(** * nelm: release model, kube client facade, plan graph and logger

    A shallow embedding of the Go sources
      internal/kube/kube_client.go      (package kube, and the release model
                                         that follows it in the same file),
      internal/plan/plan.go             (package plan),
      internal/plan/operation/apply_resource_operation.go (package operation),
      pkg/log/logboek_logger.go         (package log),
    together with the properties the specification states about them.

    Conventions.  A method with a pointer receiver that mutates the receiver
    becomes a function returning the new value.  A Go [error] result is an
    [option error] ([None] is [nil]), a nilable pointer an [option].  A call
    that may panic returns an [option] whose [None] is the panic.  Mutexes are
    not modelled: every definition describes one call running alone, which is
    what the per-resource lock and the [RWTransaction] wrappers give.  Lines
    that only write to the debug log are left out of the kube and plan
    packages. *)

From Stdlib Require Import ZArith Lia Ascii.
From stdpp Require Import base tactics option list strings gmap fin_maps sets fin_sets relations.

Local Open Scope string_scope.
Local Open Scope list_scope.

(* set_solver clears hypotheses by name; the notice it prints is noise. *)
Set Warnings "-clear-no-such-hyp".

(** ** Go errors *)

Module errors.

(** An [error] value: a package-level sentinel, an API status returned by the
    cluster (its reason, its HTTP code and its message), or [fmt.Errorf] with
    a trailing [%w] around a cause.  The message of a wrapped error is kept as
    the format and its string operands. *)
Inductive error :=
| Sentinel (label : string)
| APIStatus (reason : string) (code : Z) (message : string)
| Errorf (format : string) (operands : list string) (cause : error).

#[global] Instance error_eq_dec : EqDecision error.
Proof. solve_decision. Defined.

(** [errors.Is]: the target is found somewhere along the chain of causes. *)
Fixpoint Is (err target : error) : bool :=
  if decide (err = target) then true
  else match err with
       | Errorf _ _ cause => Is cause target
       | _ => false
       end.

(** The reasons of [metav1.StatusReason] that the API machinery knows. *)
Definition StatusReasonUnknown : string := EmptyString.
Definition StatusReasonNotFound : string := "NotFound".

Definition knownReasons : list string :=
  ["Unauthorized"; "Forbidden"; StatusReasonNotFound; "AlreadyExists";
   "Conflict"; "Gone"; "Invalid"; "ServerTimeout"; "Timeout";
   "TooManyRequests"; "BadRequest"; "MethodNotAllowed"; "NotAcceptable";
   "RequestEntityTooLarge"; "UnsupportedMediaType"; "InternalError";
   "Expired"; "ServiceUnavailable"].

Definition StatusNotFound : Z := 404.

(** [reasonAndCodeForError]: the reason and the code of the first API status
    along the chain, or the unknown reason and 0. *)
Fixpoint reasonAndCodeForError (err : error) : string * Z :=
  match err with
  | Sentinel _ => (StatusReasonUnknown, 0%Z)
  | APIStatus reason code _ => (reason, code)
  | Errorf _ _ cause => reasonAndCodeForError cause
  end.

(** [apierrors.IsNotFound]: the reason is [NotFound], or the reason is none of
    the known ones and the code is 404. *)
Definition IsNotFound (err : error) : bool :=
  let '(reason, code) := reasonAndCodeForError err in
  if decide (reason = StatusReasonNotFound) then true
  else if decide (~ (reason ∈ knownReasons) /\ code = StatusNotFound) then true
  else false.

End errors.

(** ** Package release *)

Module release.

(** Modelled from the spec: the status labels of [helmrelease.Status], a
    string type of the chart library that is not part of the sources.  The
    spelling is the one the specification gives for persisted records. *)
Definition Status := string.

Definition StatusUnknown : Status := "unknown".
Definition StatusDeployed : Status := "deployed".
Definition StatusUninstalled : Status := "uninstalled".
Definition StatusSuperseded : Status := "superseded".
Definition StatusFailed : Status := "failed".
Definition StatusUninstalling : Status := "uninstalling".
Definition StatusPendingInstall : Status := "pending-install".
Definition StatusPendingUpgrade : Status := "pending-upgrade".
Definition StatusPendingRollback : Status := "pending-rollback".
Definition StatusSkipped : Status := "skipped".

(** Modelled from the spec: [common.DeployType], whose declaration is not
    part of the sources.  [Pend] switches on four named values; every other
    value takes the switch's fall-through. *)
Inductive DeployType :=
| DeployTypeInitial
| DeployTypeInstall
| DeployTypeUpgrade
| DeployTypeRollback
| DeployTypeOther (label : string).

(** [time.Time] as the number of nanoseconds since Go's zero instant, so
    that [IsZero] is a comparison with 0. *)
Definition Time := Z.

Definition IsZero (t : Time) : bool := (t =? 0)%Z.

(** The [Release] struct.  The fields holding collaborator objects (values,
    legacy chart, mapper, annotations and the two resource lists) are never
    written by the methods below and are left out. *)
Record Release := mkRelease {
  name : string;
  namespace : string;
  revision : Z;
  status : Status;
  firstDeployed : Time;
  lastDeployed : Time;
  appVersion : string;
  chartName : string;
  chartVersion : string;
  notes : string;
}.

Definition set_status (s : Status) (r : Release) : Release :=
  {| name := name r; namespace := namespace r; revision := revision r;
     status := s;
     firstDeployed := firstDeployed r; lastDeployed := lastDeployed r;
     appVersion := appVersion r; chartName := chartName r;
     chartVersion := chartVersion r; notes := notes r |}.

Definition set_firstDeployed (t : Time) (r : Release) : Release :=
  {| name := name r; namespace := namespace r; revision := revision r;
     status := status r;
     firstDeployed := t; lastDeployed := lastDeployed r;
     appVersion := appVersion r; chartName := chartName r;
     chartVersion := chartVersion r; notes := notes r |}.

Definition set_lastDeployed (t : Time) (r : Release) : Release :=
  {| name := name r; namespace := namespace r; revision := revision r;
     status := status r;
     firstDeployed := firstDeployed r; lastDeployed := t;
     appVersion := appVersion r; chartName := chartName r;
     chartVersion := chartVersion r; notes := notes r |}.

Definition Fail (r : Release) : Release := set_status StatusFailed r.

Definition Supersede (r : Release) : Release := set_status StatusSuperseded r.

Definition Succeed (r : Release) : Release := set_status StatusDeployed r.

Definition Skip (r : Release) : Release := set_status StatusSkipped r.

(** A Go [switch] on a string with several labels in one case. *)
Definition one_of (s : string) (labels : list string) : bool :=
  existsb (String.eqb s) labels.

Definition Succeeded (r : Release) : bool :=
  if one_of (status r) [StatusDeployed; StatusSuperseded; StatusUninstalled]
  then true
  else false.

Definition Failed (r : Release) : bool :=
  if one_of (status r)
       [StatusFailed; StatusUnknown; StatusPendingInstall;
        StatusPendingUpgrade; StatusPendingRollback; StatusUninstalling]
  then true
  else false.

(** [now] is the value [time.Now()] returns inside the call. *)
Definition Pend (now : Time) (deployType : DeployType) (r : Release) : Release :=
  let r := set_status StatusPendingInstall r in
  let r :=
    match deployType with
    | DeployTypeInitial | DeployTypeInstall => set_status StatusPendingInstall r
    | DeployTypeUpgrade => set_status StatusPendingUpgrade r
    | DeployTypeRollback => set_status StatusPendingRollback r
    | DeployTypeOther _ => r
    end in
  let r := if IsZero (firstDeployed r) then set_firstDeployed now r else r in
  set_lastDeployed now r.

(** The five status transitions of the release model, as one type. *)
Inductive Transition :=
| DoPend (deployType : DeployType)
| DoFail
| DoSucceed
| DoSupersede
| DoSkip.

Definition transition (now : Time) (t : Transition) (r : Release) : Release :=
  match t with
  | DoPend deployType => Pend now deployType r
  | DoFail => Fail r
  | DoSucceed => Succeed r
  | DoSupersede => Supersede r
  | DoSkip => Skip r
  end.

(** The status a transition is meant to leave the release in. *)
Definition pending_status (deployType : DeployType) : Status :=
  match deployType with
  | DeployTypeUpgrade => StatusPendingUpgrade
  | DeployTypeRollback => StatusPendingRollback
  | _ => StatusPendingInstall
  end.

(** What the specification says of every transition: leaving [unknown] for
    the first time sets [firstDeployed], and [lastDeployed] is always
    refreshed. *)
Definition stamps_every_transition (now : Time) (t : Transition) (r : Release) : Prop :=
  (status r = StatusUnknown -> IsZero (firstDeployed r) = true ->
   firstDeployed (transition now t r) = now)
  /\ lastDeployed (transition now t r) = now.

(** A release as [NewRelease] builds it when no status and no timestamps are
    passed in the options. *)
Definition fresh : Release :=
  {| name := "app"; namespace := "default"; revision := 1;
     status := StatusUnknown; firstDeployed := 0%Z; lastDeployed := 0%Z;
     appVersion := "1.0"; chartName := "app"; chartVersion := "0.1.0";
     notes := EmptyString |}.

(** A history of transitions, each with the clock reading of its call,
    applied from left to right. *)
Definition transitions (steps : list (Time * Transition)) (r : Release) : Release :=
  foldl (fun r step => transition step.1 step.2 r) r steps.

(** The clock reading of the last [Pend] of a history, if there is one. *)
Definition lastPend (steps : list (Time * Transition)) : option Time :=
  foldl (fun found step =>
           match step.2 with
           | DoPend _ => Some step.1
           | _ => found
           end) None steps.

End release.

(** ** Packages id, schema and util *)

Module id.

(** Modelled from the spec: [id.ResourceID], whose package is not part of the
    sources.  The identity of an object under management, given by what its
    string accessors return; [VersionID] is the cache and lock key.  The two
    accessors that consult the REST mapper are part of the cluster interface
    of package kube. *)
Record ResourceID := mkResourceID {
  ID : string;
  VersionID : string;
  HumanID : string;
  Name : string;
  Namespace : string;
}.

End id.

Module schema.

Record GroupResource := mkGroupResource {
  gr_Group : string;
  gr_Resource : string;
}.

Record GroupVersionResource := mkGroupVersionResource {
  Group : string;
  Version : string;
  Resource : string;
}.

Definition GroupResource_of (gvr : GroupVersionResource) : GroupResource :=
  {| gr_Group := Group gvr; gr_Resource := Resource gvr |}.

#[global] Instance GroupResource_eq_dec : EqDecision GroupResource.
Proof. solve_decision. Defined.

End schema.

Module util.

(** Modelled from the spec: [util.IsCRDFromGR], which is not part of the
    sources; it tells whether a group and resource name a custom resource
    definition. *)
Definition IsCRDFromGR (gr : schema.GroupResource) : bool :=
  bool_decide (gr = schema.mkGroupResource "apiextensions.k8s.io" "customresourcedefinitions").

End util.

(** ** Package kube: the client facade *)

Module kube.
Import errors id schema.

(** Modelled from the spec: [common.DefaultFieldManager]. *)
Definition DefaultFieldManager : string := "nelm".

Definition DryRunAll : string := "All".

Definition DeletionPropagation := string.

Definition DeletePropagationForeground : DeletionPropagation := "Foreground".

Definition MergePatchType : string := "application/merge-patch+json".

(** [dynamic.ResourceInterface]: the resource a request is addressed to,
    inside a namespace or cluster-wide. *)
Record ResourceInterface := mkResourceInterface {
  ri_gvr : GroupVersionResource;
  ri_namespace : option string;
}.

Record ApplyOptions := mkApplyOptions {
  ao_DryRun : list string;
  ao_Force : bool;
  ao_FieldManager : string;
}.

Record PatchOptions := mkPatchOptions {
  po_FieldManager : string;
}.

Record DeleteOptions := mkDeleteOptions {
  do_PropagationPolicy : option DeletionPropagation;
}.

Record KubeClientGetOptions := mkGetOptions {
  TryCache : bool;
}.

Record KubeClientCreateOptions := mkCreateOptions {
  ForceReplicas : option Z;
}.

Record KubeClientApplyOptions := mkKubeApplyOptions {
  DryRun : bool;
}.

Record KubeClientDeleteOptions := mkKubeDeleteOptions {
  PropagationPolicy : option DeletionPropagation;
}.

(** The calls the facade makes on its collaborators, in the order made. *)
Inductive Call (U : Type) :=
| CallGet (target : ResourceInterface) (name : string)
| CallApply (target : ResourceInterface) (name : string) (obj : U) (opts : ApplyOptions)
| CallPatch (target : ResourceInterface) (name : string) (patchType : string)
    (patch : list Byte.byte) (opts : PatchOptions)
| CallDelete (target : ResourceInterface) (name : string) (opts : DeleteOptions)
| CallMapperReset.

Arguments CallGet {U}.
Arguments CallApply {U}.
Arguments CallPatch {U}.
Arguments CallDelete {U}.
Arguments CallMapperReset {U}.

(** A request to the cluster, as opposed to a reset of the local mapper. *)
Definition is_rpc {U} (c : Call U) : bool :=
  match c with
  | CallMapperReset => false
  | _ => true
  end.

(** The collaborators of the facade: the dynamic client with the cluster
    behind it, and the REST mapper.  [World] is their joint state and [U] the
    type of unstructured objects; a request returns the answer and the state
    it leaves.  [SetReplicas u n] is [unstructured.SetNestedField] writing
    the integer [n] at [spec.replicas]. *)
Class Cluster (World U : Type) := {
  GroupVersionResource : World -> ResourceID -> GroupVersionResource + error;
  Namespaced : World -> ResourceID -> bool + error;
  dynamicGet : World -> ResourceInterface -> string -> World * (U + error);
  dynamicApply : World -> ResourceInterface -> string -> U -> ApplyOptions -> World * (U + error);
  dynamicPatch : World -> ResourceInterface -> string -> string -> list Byte.byte ->
                 PatchOptions -> World * (U + error);
  dynamicDelete : World -> ResourceInterface -> string -> DeleteOptions -> World * option error;
  mapperReset : World -> World;
  SetReplicas : U -> Z -> U;
}.

Record clusterCacheEntry (U : Type) := mkEntry {
  obj : option U;
  err : option error;
}.

Arguments mkEntry {U}.
Arguments obj {U}.
Arguments err {U}.

(** The [KubeClient] struct.  [world] stands for the four collaborator
    fields, [resourceLocks] holds the keys of the mutex map, and [calls] is
    the log of what was asked of the collaborators (not a field of the Go
    struct, kept to tell a cached answer from a request). *)
Record KubeClient (World U : Type) := mkKubeClient {
  world : World;
  clusterCache : gmap string (clusterCacheEntry U);
  resourceLocks : gset string;
  calls : list (Call U);
}.

Arguments mkKubeClient {World U}.
Arguments world {World U}.
Arguments clusterCache {World U}.
Arguments resourceLocks {World U}.
Arguments calls {World U}.

Definition NewKubeClient {World U} (w : World) : KubeClient World U :=
  {| world := w; clusterCache := ∅; resourceLocks := ∅; calls := [] |}.

Section Facade.
Context {World U : Type} {cluster : Cluster World U}.

(** Methods of the facade are state transformers over the client. *)
Definition M (A : Type) : Type := KubeClient World U -> A * KubeClient World U.

#[global] Instance M_ret : MRet M := fun A (a : A) c => (a, c).

#[global] Instance M_bind : MBind M :=
  fun A B (f : A -> M B) (m : M A) c => let '(a, c') := m c in f a c'.

(** [resourceLock]: [LoadOrStore] on the mutex map; taking and releasing the
    mutex leaves no trace in a run without interleaving. *)
Definition resourceLock (resource : ResourceID) : M unit :=
  fun c =>
    (tt, {| world := world c; clusterCache := clusterCache c;
            resourceLocks := {[VersionID resource]} ∪ resourceLocks c;
            calls := calls c |}).

Definition cacheGet (key : string) : M (option (clusterCacheEntry U)) :=
  fun c => (clusterCache c !! key, c).

Definition cacheSet (key : string) (entry : clusterCacheEntry U) : M unit :=
  fun c =>
    (tt, {| world := world c; clusterCache := <[key := entry]> (clusterCache c);
            resourceLocks := resourceLocks c; calls := calls c |}).

Definition cacheDelete (key : string) : M unit :=
  fun c =>
    (tt, {| world := world c; clusterCache := delete key (clusterCache c);
            resourceLocks := resourceLocks c; calls := calls c |}).

(** One call on a collaborator: the world moves and the call is logged. *)
Definition perform {A} (call : Call U) (serve : World -> World * A) : M A :=
  fun c =>
    let '(w, answer) := serve (world c) in
    (answer, {| world := w; clusterCache := clusterCache c;
                resourceLocks := resourceLocks c; calls := calls c ++ [call] |}).

Definition resolveGVR (resource : ResourceID) : M (schema.GroupVersionResource + error) :=
  fun c => (GroupVersionResource (world c) resource, c).

Definition resolveNamespaced (resource : ResourceID) : M (bool + error) :=
  fun c => (Namespaced (world c) resource, c).

Definition clientResource (gvr : schema.GroupVersionResource) (namespace : string)
    (namespaced : bool) : ResourceInterface :=
  if namespaced
  then {| ri_gvr := gvr; ri_namespace := Some namespace |}
  else {| ri_gvr := gvr; ri_namespace := None |}.

(** The common prologue of the four writing methods and of an uncached
    [Get]: resolve the resource and build its client, or return the error. *)
Definition resolveClient (resource : ResourceID)
  : M ((schema.GroupVersionResource * ResourceInterface) + error) :=
  gvr ← resolveGVR resource;
  match gvr with
  | inr e => mret (inr (Errorf "get GroupVersionResource: %w" [] e))
  | inl gvr =>
      namespaced ← resolveNamespaced resource;
      match namespaced with
      | inr e => mret (inr (Errorf "check if resource is namespaced: %w" [] e))
      | inl namespaced => mret (inl (gvr, clientResource gvr (Namespace resource) namespaced))
      end
  end.

Definition Get (resource : ResourceID) (opts : KubeClientGetOptions)
  : M (option U * option error) :=
  resourceLock resource;;
  cached ← (if TryCache opts then cacheGet (VersionID resource) else mret None);
  match cached with
  | Some res =>
      match err res with
      | Some e =>
          mret (None, Some (Errorf "get resource %q from client cache: %w"
                              [HumanID resource] e))
      | None => mret (obj res, None)
      end
  | None =>
      client ← resolveClient resource;
      match client with
      | inr e => mret (None, Some e)
      | inl (gvr, clientResource) =>
          answer ← perform (CallGet clientResource (Name resource))
                     (fun w => dynamicGet w clientResource (Name resource));
          match answer with
          | inr e =>
              cacheSet (VersionID resource) {| obj := None; err := Some e |};;
              mret (None, Some (Errorf "get resource %q: %w" [HumanID resource] e))
          | inl resultObj =>
              cacheSet (VersionID resource) {| obj := Some resultObj; err := None |};;
              mret (Some resultObj, None)
          end
      end
  end.

Definition Create (resource : ResourceID) (unstruct : U) (opts : KubeClientCreateOptions)
  : M (option U * option error) :=
  resourceLock resource;;
  client ← resolveClient resource;
  match client with
  | inr e => mret (None, Some e)
  | inl (gvr, clientResource) =>
      let unstruct :=
        match ForceReplicas opts with
        | Some n => SetReplicas unstruct n
        | None => unstruct
        end in
      let applyOpts :=
        {| ao_DryRun := []; ao_Force := true; ao_FieldManager := DefaultFieldManager |} in
      answer ← perform (CallApply clientResource (Name resource) unstruct applyOpts)
                 (fun w => dynamicApply w clientResource (Name resource) unstruct applyOpts);
      match answer with
      | inr e =>
          cacheSet (VersionID resource) {| obj := None; err := Some e |};;
          mret (None, Some (Errorf "server-side apply resource %q: %w" [HumanID resource] e))
      | inl resultObj =>
          cacheSet (VersionID resource) {| obj := Some resultObj; err := None |};;
          (if util.IsCRDFromGR (GroupResource_of gvr)
           then perform CallMapperReset (fun w => (mapperReset w, tt))
           else mret tt);;
          mret (Some resultObj, None)
      end
  end.

Definition Apply (resource : ResourceID) (unstruct : U) (opts : KubeClientApplyOptions)
  : M (option U * option error) :=
  resourceLock resource;;
  client ← resolveClient resource;
  match client with
  | inr e => mret (None, Some e)
  | inl (gvr, clientResource) =>
      let dryRun := if DryRun opts then [DryRunAll] else [] in
      let applyOpts :=
        {| ao_DryRun := dryRun; ao_Force := true; ao_FieldManager := DefaultFieldManager |} in
      answer ← perform (CallApply clientResource (Name resource) unstruct applyOpts)
                 (fun w => dynamicApply w clientResource (Name resource) unstruct applyOpts);
      match answer with
      | inr e =>
          (if negb (DryRun opts)
           then cacheSet (VersionID resource) {| obj := None; err := Some e |}
           else mret tt);;
          mret (None, Some (Errorf "server-side %sapply resource %q: %w"
                              [if DryRun opts then "dry-run " else EmptyString;
                               HumanID resource] e))
      | inl resultObj =>
          (if negb (DryRun opts)
           then cacheSet (VersionID resource) {| obj := Some resultObj; err := None |}
           else mret tt);;
          (if util.IsCRDFromGR (GroupResource_of gvr) && negb (DryRun opts)
           then perform CallMapperReset (fun w => (mapperReset w, tt))
           else mret tt);;
          mret (Some resultObj, None)
      end
  end.

Definition MergePatch (resource : ResourceID) (patch : list Byte.byte)
  : M (option U * option error) :=
  resourceLock resource;;
  client ← resolveClient resource;
  match client with
  | inr e => mret (None, Some e)
  | inl (gvr, clientResource) =>
      let patchOpts := {| po_FieldManager := DefaultFieldManager |} in
      answer ← perform (CallPatch clientResource (Name resource) MergePatchType patch patchOpts)
                 (fun w => dynamicPatch w clientResource (Name resource) MergePatchType
                             patch patchOpts);
      match answer with
      | inr e =>
          if IsNotFound e
          then mret (None, None)
          else
            cacheSet (VersionID resource) {| obj := None; err := Some e |};;
            mret (None, Some (Errorf "merge patch resource %q: %w" [HumanID resource] e))
      | inl resultObj =>
          cacheSet (VersionID resource) {| obj := Some resultObj; err := None |};;
          mret (Some resultObj, None)
      end
  end.

Definition Delete (resource : ResourceID) (opts : KubeClientDeleteOptions)
  : M (option error) :=
  resourceLock resource;;
  client ← resolveClient resource;
  match client with
  | inr e => mret (Some e)
  | inl (gvr, clientResource) =>
      let propagationPolicy :=
        match PropagationPolicy opts with
        | Some policy => Some policy
        | None => Some DeletePropagationForeground
        end in
      let deleteOpts := {| do_PropagationPolicy := propagationPolicy |} in
      answer ← perform (CallDelete clientResource (Name resource) deleteOpts)
                 (fun w => dynamicDelete w clientResource (Name resource) deleteOpts);
      match answer with
      | Some e =>
          if IsNotFound e
          then mret None
          else mret (Some (Errorf "delete resource %q: %w" [HumanID resource] e))
      | None =>
          cacheDelete (VersionID resource);;
          mret None
      end
  end.

(** The writing calls that answer with the object the cluster holds
    afterwards: [Create], [Apply] without dry run, and [MergePatch]. *)
Inductive Mutation :=
| ByCreate (unstruct : U) (opts : KubeClientCreateOptions)
| ByApply (unstruct : U)
| ByMergePatch (patch : list Byte.byte).

Definition mutate (resource : ResourceID) (m : Mutation) : M (option U * option error) :=
  match m with
  | ByCreate unstruct opts => Create resource unstruct opts
  | ByApply unstruct => Apply resource unstruct {| DryRun := false |}
  | ByMergePatch patch => MergePatch resource patch
  end.

(** The calls made on the collaborators between two states of the client. *)
Definition fresh_calls (before after : KubeClient World U) : list (Call U) :=
  drop (length (calls before)) (calls after).

(** The propagation policy [Delete] sends. *)
Definition sentPolicy (opts : KubeClientDeleteOptions) : DeleteOptions :=
  {| do_PropagationPolicy :=
       Some (default DeletePropagationForeground (PropagationPolicy opts)) |}.

(** The options a server-side apply is sent with. *)
Definition sentApplyOptions (dryRun : bool) : ApplyOptions :=
  {| ao_DryRun := if dryRun then [DryRunAll] else [];
     ao_Force := true; ao_FieldManager := DefaultFieldManager |}.

(** The object [Create] sends: the replicas are overridden first when the
    options ask for it. *)
Definition withReplicas (unstruct : U) (opts : KubeClientCreateOptions) : U :=
  match ForceReplicas opts with
  | Some n => SetReplicas unstruct n
  | None => unstruct
  end.

(** The request a mutation puts to the cluster, as it is logged, and what the
    cluster makes of it in a given world. *)
Definition request (target : ResourceInterface) (name : string) (m : Mutation) : Call U :=
  match m with
  | ByCreate unstruct opts =>
      CallApply target name (withReplicas unstruct opts) (sentApplyOptions false)
  | ByApply unstruct => CallApply target name unstruct (sentApplyOptions false)
  | ByMergePatch patch =>
      CallPatch target name MergePatchType patch {| po_FieldManager := DefaultFieldManager |}
  end.

Definition served (w : World) (target : ResourceInterface) (name : string) (m : Mutation)
  : World * (U + error) :=
  match m with
  | ByCreate unstruct opts =>
      dynamicApply w target name (withReplicas unstruct opts) (sentApplyOptions false)
  | ByApply unstruct => dynamicApply w target name unstruct (sentApplyOptions false)
  | ByMergePatch patch =>
      dynamicPatch w target name MergePatchType patch
        {| po_FieldManager := DefaultFieldManager |}
  end.

(** What the specification says of the cache after a mutation: when the
    mutation succeeds, the entry of the resource holds the object it
    returned, and a [Get] with [TryCache] returns that object without a
    request. *)
Definition coherent_after (resource : ResourceID) (m : Mutation) (c : KubeClient World U)
  : Prop :=
  let out := mutate resource m c in
  out.1.2 = None ->
  clusterCache out.2 !! VersionID resource = Some {| obj := out.1.1; err := None |}
  /\ (Get resource {| TryCache := true |} out.2).1 = (out.1.1, None)
  /\ fresh_calls out.2 (Get resource {| TryCache := true |} out.2).2 = [].

(** What the specification says of [Delete] where the cluster reports
    NotFound: the call returns [nil] and the cache entry of the resource is
    gone. *)
Definition deleted_quietly (resource : ResourceID) (opts : KubeClientDeleteOptions)
    (c : KubeClient World U) : Prop :=
  let out := Delete resource opts c in
  out.1 = None /\ clusterCache out.2 !! VersionID resource = None.

(** The error the common prologue returns when the mapper cannot resolve the
    resource, if any. *)
Definition resolutionError (c : KubeClient World U) (resource : ResourceID) : option error :=
  match GroupVersionResource (world c) resource with
  | inr e => Some (Errorf "get GroupVersionResource: %w" [] e)
  | inl _ =>
      match Namespaced (world c) resource with
      | inr e => Some (Errorf "check if resource is namespaced: %w" [] e)
      | inl _ => None
      end
  end.

(** The five methods of the facade as one type, each with its arguments, and
    the error each call returns. *)
Inductive Method :=
| MGet (opts : KubeClientGetOptions)
| MCreate (unstruct : U) (opts : KubeClientCreateOptions)
| MApply (unstruct : U) (opts : KubeClientApplyOptions)
| MMergePatch (patch : list Byte.byte)
| MDelete (opts : KubeClientDeleteOptions).

Definition invoke (resource : ResourceID) (m : Method) : M (option U * option error) :=
  match m with
  | MGet opts => Get resource opts
  | MCreate unstruct opts => Create resource unstruct opts
  | MApply unstruct opts => Apply resource unstruct opts
  | MMergePatch patch => MergePatch resource patch
  | MDelete opts => e ← Delete resource opts; mret (None, e)
  end.

End Facade.

End kube.

(** ** Package operation *)

Module operation.
Import errors id.

(** Modelled from the spec: [operation.Status], declared in a file that is
    not part of the sources.  An operation that never ran has the zero value,
    which the plan reports as canceled. *)
Inductive Status :=
| StatusUnknown
| StatusCompleted
| StatusFailed.

#[global] Instance Status_eq_dec : EqDecision Status.
Proof. solve_decision. Defined.

(** The Go type [operation.Type], a string. *)
Definition OpType := string.

Definition TypeApplyResourceOperation : OpType := "apply".
Definition TypeExtraPostApplyResourceOperation : OpType := "extra-post-apply".

(** Modelled from the spec: the kinds declared next to the operations that
    are not part of the sources, under the names the specification lists. *)
Definition TypeCreateResourceOperation : OpType := "create".
Definition TypeExtraPostCreateResourceOperation : OpType := "extra-post-create".
Definition TypeRecreateResourceOperation : OpType := "recreate".
Definition TypeExtraPostRecreateResourceOperation : OpType := "extra-post-recreate".
Definition TypeUpdateResourceOperation : OpType := "update".
Definition TypeExtraPostUpdateResourceOperation : OpType := "extra-post-update".
Definition TypeDeleteResourceOperation : OpType := "delete".
Definition TypeExtraPostDeleteResourceOperation : OpType := "extra-post-delete".
Definition TypeTrackResourceReadinessOperation : OpType := "track-readiness".
Definition TypeTrackResourcePresenceOperation : OpType := "track-presence".
Definition TypeTrackResourceAbsenceOperation : OpType := "track-absence".
Definition TypeStageOperation : OpType := "stage-marker".
Definition TypeFailReleaseOperation : OpType := "fail-release".
Definition TypeSucceedReleaseOperation : OpType := "succeed-release".
Definition TypeSupersedePreviousReleaseOperation : OpType := "supersede-previous-release".

Section Operations.
Context {U : Type}.

(** The [ApplyResourceOperation] struct; the client it points to is the
    state [Execute] runs in. *)
Record ApplyResourceOperation := mkApplyResourceOperation {
  resource : ResourceID;
  unstruct : U;
  manageableBy : string;
  extraPost : bool;
  status : Status;
}.

Record ApplyResourceOperationOptions := mkApplyResourceOperationOptions {
  ManageableBy : string;
  ExtraPost : bool;
}.

Definition NewApplyResourceOperation (resource : ResourceID) (unstruct : U)
    (opts : ApplyResourceOperationOptions) : ApplyResourceOperation * option error :=
  ({| resource := resource; unstruct := unstruct;
      manageableBy := ManageableBy opts; extraPost := ExtraPost opts;
      status := StatusUnknown |}, None).

Definition ApplyResourceOperation_set_status (s : Status) (o : ApplyResourceOperation)
  : ApplyResourceOperation :=
  {| resource := resource o; unstruct := unstruct o; manageableBy := manageableBy o;
     extraPost := extraPost o; status := s |}.

Definition ApplyResourceOperation_Execute {World} {cluster : kube.Cluster World U}
    (o : ApplyResourceOperation) : kube.M (ApplyResourceOperation * option error) :=
  result ← kube.Apply (resource o) (unstruct o) {| kube.DryRun := false |};
  match result.2 with
  | Some e =>
      mret (ApplyResourceOperation_set_status StatusFailed o,
            Some (Errorf "error applying resource: %w" [] e))
  | None => mret (ApplyResourceOperation_set_status StatusCompleted o, None)
  end.

Definition ApplyResourceOperation_ID (o : ApplyResourceOperation) : string :=
  if extraPost o
  then TypeExtraPostApplyResourceOperation +:+ "/" +:+ ID (resource o)
  else TypeApplyResourceOperation +:+ "/" +:+ ID (resource o).

Definition ApplyResourceOperation_HumanID (o : ApplyResourceOperation) : string :=
  "apply resource: " +:+ HumanID (resource o).

Definition ApplyResourceOperation_Status (o : ApplyResourceOperation) : Status :=
  status o.

Definition ApplyResourceOperation_Type (o : ApplyResourceOperation) : OpType :=
  if extraPost o
  then TypeExtraPostApplyResourceOperation
  else TypeApplyResourceOperation.

Definition ApplyResourceOperation_Empty (o : ApplyResourceOperation) : bool :=
  false.

(** Modelled from the spec: [StageOperation], a barrier without cluster
    interaction whose file is not part of the sources.  It is filed in the
    graph under the identifier it is created with, which is the one the plan
    looks it up and links it by, and it is always empty. *)
Record StageOperation := mkStageOperation {
  stage_name : string;
  stage_status : Status;
}.

Definition NewStageOperation (name : string) : StageOperation :=
  {| stage_name := name; stage_status := StatusUnknown |}.

(** Modelled from the spec: an operation of one of the kinds whose files are
    not part of the sources (create, recreate, update, delete, the trackers
    and the release operations), given by what its five accessors return. *)
Record OtherOperation := mkOtherOperation {
  other_ID : string;
  other_HumanID : string;
  other_Type : OpType;
  other_Status : Status;
  other_Empty : bool;
}.

(** A value of the [Operation] interface: one of its implementations.  The
    accessors below dispatch on it as a Go method call does. *)
Inductive Operation :=
| OfApply (o : ApplyResourceOperation)
| OfStage (o : StageOperation)
| OfOther (o : OtherOperation).

Definition ID (op : Operation) : string :=
  match op with
  | OfApply o => ApplyResourceOperation_ID o
  | OfStage o => stage_name o
  | OfOther o => other_ID o
  end.

Definition HumanID (op : Operation) : string :=
  match op with
  | OfApply o => ApplyResourceOperation_HumanID o
  | OfStage o => stage_name o
  | OfOther o => other_HumanID o
  end.

Definition Type' (op : Operation) : OpType :=
  match op with
  | OfApply o => ApplyResourceOperation_Type o
  | OfStage o => TypeStageOperation
  | OfOther o => other_Type o
  end.

Definition Status' (op : Operation) : Status :=
  match op with
  | OfApply o => ApplyResourceOperation_Status o
  | OfStage o => stage_status o
  | OfOther o => other_Status o
  end.

Definition Empty (op : Operation) : bool :=
  match op with
  | OfApply o => ApplyResourceOperation_Empty o
  | OfStage o => true
  | OfOther o => other_Empty o
  end.

End Operations.

Arguments ApplyResourceOperation : clear implicits.
Arguments Operation : clear implicits.

End operation.

(** ** The graph library *)

Module graph.
Import errors.

(** Modelled from the spec: the directed-graph library behind the plan
    (github.com/dominikbraun/graph), which is a dependency and not part of
    the sources.  The specification asks of it vertices keyed by a hash,
    edges, cycle prevention on insert and adjacency queries; the definitions
    below give exactly that, with the library's error values. *)
Definition ErrVertexNotFound : error := Sentinel "vertex not found".
Definition ErrVertexAlreadyExists : error := Sentinel "vertex already exists".
Definition ErrEdgeNotFound : error := Sentinel "edge not found".
Definition ErrEdgeAlreadyExists : error := Sentinel "edge already exists".
Definition ErrEdgeCreatesCycle : error := Sentinel "edge would create a cycle".

Record Traits := mkTraits {
  IsDirected : bool;
  IsAcyclic : bool;
  PreventCycles_ : bool;
}.

Definition Directed (t : Traits) : Traits :=
  {| IsDirected := true; IsAcyclic := IsAcyclic t; PreventCycles_ := PreventCycles_ t |}.

Definition Acyclic (t : Traits) : Traits :=
  {| IsDirected := IsDirected t; IsAcyclic := true; PreventCycles_ := PreventCycles_ t |}.

Definition PreventCycles (t : Traits) : Traits :=
  {| IsDirected := IsDirected t; IsAcyclic := true; PreventCycles_ := true |}.

(** Modelled from the spec: a graph of the library, with the hash that keys
    its vertices, its traits, the vertices by key and the set of edges. *)
Record Graph (T : Type) := mkGraph {
  hash : T -> string;
  traits : Traits;
  vertices : gmap string T;
  edges : gset (string * string);
}.

Arguments mkGraph {T}.
Arguments hash {T}.
Arguments traits {T}.
Arguments vertices {T}.
Arguments edges {T}.

Section Library.
Context {T : Type}.

Definition New (hash : T -> string) (options : list (Traits -> Traits)) : Graph T :=
  {| hash := hash;
     traits := foldl (fun t option => option t) (mkTraits false false false) options;
     vertices := ∅;
     edges := ∅ |}.

Definition Vertex (g : Graph T) (key : string) : T + error :=
  match vertices g !! key with
  | Some v => inl v
  | None => inr ErrVertexNotFound
  end.

Definition AddVertex (g : Graph T) (value : T) : Graph T * option error :=
  match vertices g !! hash g value with
  | Some _ => (g, Some ErrVertexAlreadyExists)
  | None =>
      ({| hash := hash g; traits := traits g;
          vertices := <[hash g value := value]> (vertices g);
          edges := edges g |}, None)
  end.

Definition successors (g : Graph T) (key : string) : gset string :=
  set_map snd (filter (fun e : string * string => e.1 = key) (edges g)).

Definition predecessors (g : Graph T) (key : string) : list string :=
  (elements (filter (fun e : string * string => e.2 = key) (edges g))).*1.

(** Every vertex has an entry, also one without outgoing edges. *)
Definition AdjacencyMap (g : Graph T) : gmap string (gset string) * option error :=
  (map_imap (fun key _ => Some (successors g key)) (vertices g), None).

Definition PredecessorMap (g : Graph T) : gmap string (list string) * option error :=
  (map_imap (fun key _ => Some (predecessors g key)) (vertices g), None).

(** The cycle check: walk the predecessors of [source] depth first, with an
    explicit stack and a visited set; meeting [target] means that [target]
    already leads to [source]. *)
Fixpoint createsCycle_walk (fuel : nat) (preds : string -> list string) (target : string)
    (stack : list string) (visited : gset string) : option bool :=
  match fuel with
  | O => None
  | S fuel =>
      match stack with
      | [] => Some false
      | currentHash :: stack =>
          if decide (currentHash ∈ visited)
          then createsCycle_walk fuel preds target stack visited
          else if decide (currentHash = target)
          then Some true
          else createsCycle_walk fuel preds target
                 (foldl (fun st adjacency => adjacency :: st) stack (preds currentHash))
                 ({[currentHash]} ∪ visited)
      end
  end.

(** Every step of the walk either drops a visited entry from the stack or
    retires the edges into a fresh vertex, so two more steps than there are
    edges always suffice. *)
Definition createsCycle_fuel (g : Graph T) : nat := S (S (size (edges g))).

Definition CreatesCycle (g : Graph T) (source target : string) : bool :=
  if decide (source = target)
  then true
  else match createsCycle_walk (createsCycle_fuel g) (predecessors g) target [source] ∅ with
       | Some found => found
       | None => true
       end.

Definition AddEdge (g : Graph T) (source target : string) : Graph T * option error :=
  match vertices g !! source with
  | None => (g, Some (Errorf "source vertex %v: %w" [source] ErrVertexNotFound))
  | Some _ =>
      match vertices g !! target with
      | None => (g, Some (Errorf "target vertex %v: %w" [target] ErrVertexNotFound))
      | Some _ =>
          if decide ((source, target) ∈ edges g)
          then (g, Some ErrEdgeAlreadyExists)
          else if PreventCycles_ (traits g) && CreatesCycle g source target
          then (g, Some ErrEdgeCreatesCycle)
          else ({| hash := hash g; traits := traits g; vertices := vertices g;
                   edges := {[(source, target)]} ∪ edges g |}, None)
      end
  end.

(** Reading the graph as a relation: an edge, a path, and the absence of a
    path from a vertex back to itself. *)
Definition edge (g : Graph T) (a b : string) : Prop := (a, b) ∈ edges g.

Definition path (g : Graph T) : relation string := tc (edge g).

Definition acyclic (g : Graph T) : Prop := forall v, ~ path g v v.

Definition add_edge (g : Graph T) (a b : string) : Graph T :=
  {| hash := hash g; traits := traits g; vertices := vertices g;
     edges := {[(a, b)]} ∪ edges g |}.

End Library.

End graph.

(** ** Package plan *)

Module plan.
Import errors.

Section Plan.
Context {U Any : Type}.

(** [fmt.Sprintf] of the Go standard library, taken as given: the string it
    makes of a format and its operands. *)
Variable Sprintf : string -> list Any -> string.

Abbreviation Op := (operation.Operation U).

Record Plan := mkPlan {
  graph : graph.Graph Op;
}.

Definition NewPlan : Plan :=
  {| graph := graph.New operation.ID [graph.Acyclic; graph.PreventCycles; graph.Directed] |}.

(** [lo.Must] on a value and a found flag, and [lo.Must0] on an error: both
    panic where the Go code would. *)
Definition Must {A} (r : option (option A * bool)) : option A :=
  '(value, ok) ← r;
  if ok : bool then value else None.

Definition Must0 (r : Plan * option error) : option Plan :=
  match r.2 with
  | Some _ => None
  | None => Some r.1
  end.

(** [Operation] formats its arguments into the identifier it looks up.  A
    vertex missing is the answer [(nil, false)]; any other error of the graph
    panics. *)
Definition Operation (p : Plan) (idFormat : string) (a : list Any)
  : option (option Op * bool) :=
  let opID := Sprintf idFormat a in
  match graph.Vertex (graph p) opID with
  | inr e =>
      if Is e graph.ErrVertexNotFound
      then Some (None, false)
      else None
  | inl vertex => Some (Some vertex, true)
  end.

(** The result triple of the queries: operations, found flag, error. *)
Definition Found : Type := list Op * bool * option error.

Definition nonempty {A} (l : list A) : bool := bool_decide (0 < length l).

(** Every key of the adjacency map is handed to [Operation] as a format
    without operands, under [lo.Must].  The iteration order of a Go map is
    not fixed; the keys are taken here in the order of the finite map, and
    nothing below depends on it. *)
Definition Operations (p : Plan) : option Found :=
  let '(adjMap, e) := graph.AdjacencyMap (graph p) in
  match e with
  | Some e => Some ([], false, Some (Errorf "error getting adjacency map: %w" [] e))
  | None =>
      operations ← mapM (fun opID => Must (Operation p opID [])) (map_to_list adjMap).*1;
      Some (operations, nonempty operations, None)
  end.

(** The shape shared by the three queries by status: take all operations and
    keep those in the given status. *)
Definition operationsWithStatus (s : operation.Status) (p : Plan) : option Found :=
  '(ops, found, e) ← Operations p;
  match e with
  | Some e => Some ([], false, Some (Errorf "error getting operations: %w" [] e))
  | None =>
      if negb found
      then Some ([], false, None)
      else
        let kept := filter (fun op => operation.Status' op = s) ops in
        Some (kept, nonempty kept, None)
  end.

Definition CompletedOperations (p : Plan) : option Found :=
  operationsWithStatus operation.StatusCompleted p.

Definition FailedOperations (p : Plan) : option Found :=
  operationsWithStatus operation.StatusFailed p.

Definition CanceledOperations (p : Plan) : option Found :=
  operationsWithStatus operation.StatusUnknown p.

Definition WorthyCompletedOperations (p : Plan) : option Found :=
  '(completedOps, found, e) ← CompletedOperations p;
  match e with
  | Some e => Some ([], false, Some (Errorf "error getting completed operations: %w" [] e))
  | None =>
      if negb found
      then Some ([], false, None)
      else
        let worthyCompletedOps :=
          filter (fun op => operation.Type' op ∈
                    [operation.TypeCreateResourceOperation;
                     operation.TypeRecreateResourceOperation;
                     operation.TypeUpdateResourceOperation;
                     operation.TypeApplyResourceOperation;
                     operation.TypeDeleteResourceOperation;
                     operation.TypeExtraPostCreateResourceOperation;
                     operation.TypeExtraPostRecreateResourceOperation;
                     operation.TypeExtraPostApplyResourceOperation;
                     operation.TypeExtraPostUpdateResourceOperation;
                     operation.TypeExtraPostDeleteResourceOperation])
                 completedOps in
        Some (worthyCompletedOps, nonempty worthyCompletedOps, None)
  end.

Definition WorthyFailedOperations (p : Plan) : option Found :=
  '(failedOps, found, e) ← FailedOperations p;
  match e with
  | Some e => Some ([], false, Some (Errorf "error getting failed operations: %w" [] e))
  | None =>
      if negb found
      then Some ([], false, None)
      else
        let worthyFailedOps := foldl (fun acc op => (acc ++ [op])%list) [] failedOps in
        Some (worthyFailedOps, nonempty worthyFailedOps, None)
  end.

Definition WorthyCanceledOperations (p : Plan) : option Found :=
  '(canceledOps, found, e) ← CanceledOperations p;
  match e with
  | Some e => Some ([], false, Some (Errorf "error getting canceled operations: %w" [] e))
  | None =>
      if negb found
      then Some ([], false, None)
      else
        let worthyCanceledOps :=
          filter (fun op => operation.Type' op ∈
                    [operation.TypeCreateResourceOperation;
                     operation.TypeRecreateResourceOperation;
                     operation.TypeUpdateResourceOperation;
                     operation.TypeApplyResourceOperation;
                     operation.TypeDeleteResourceOperation])
                 canceledOps in
        Some (worthyCanceledOps, nonempty worthyCanceledOps, None)
  end.

Definition PredecessorMap (p : Plan) : gmap string (list string) * option error :=
  graph.PredecessorMap (graph p).

Definition AddOperation (p : Plan) (op : Op) : option Plan :=
  let '(g, e) := graph.AddVertex (graph p) op in
  match e with
  | Some e =>
      if negb (Is e graph.ErrVertexAlreadyExists)
      then None
      else Some {| graph := g |}
  | None => Some {| graph := g |}
  end.

Definition AddDependency (p : Plan) (fromOpID toOpID : string) : Plan * option error :=
  let '(g, e) := graph.AddEdge (graph p) fromOpID toOpID in
  match e with
  | Some e =>
      if Is e graph.ErrEdgeAlreadyExists
      then ({| graph := g |}, None)
      else ({| graph := g |},
            Some (Errorf "error adding edge from %q to %q: %w" [fromOpID; toOpID] e))
  | None => ({| graph := g |}, None)
  end.

(** Insert a stage marker under [stageID] unless [Operation], given
    [stageID] as a format without operands, finds a vertex. *)
Definition ensureStage (p : Plan) (stageID : string) : option Plan :=
  '(_, found) ← Operation p stageID [];
  if negb found
  then AddOperation p (operation.OfStage (operation.NewStageOperation stageID))
  else Some p.

Definition AddStagedOperation (p : Plan) (op : Op) (stageInID stageOutID : string)
  : option Plan :=
  p ← AddOperation p op;
  p ← ensureStage p stageInID;
  p ← ensureStage p stageOutID;
  p ← Must0 (AddDependency p stageInID stageOutID);
  p ← Must0 (AddDependency p stageInID (operation.ID op));
  Must0 (AddDependency p (operation.ID op) stageOutID).

Definition AddInStagedOperation (p : Plan) (op : Op) (stageInID : string) : option Plan :=
  p ← AddOperation p op;
  p ← ensureStage p stageInID;
  Must0 (AddDependency p stageInID (operation.ID op)).

Definition AddOutStagedOperation (p : Plan) (op : Op) (stageOutID : string) : option Plan :=
  p ← AddOperation p op;
  p ← ensureStage p stageOutID;
  Must0 (AddDependency p (operation.ID op) stageOutID).

(** The loop of [Useless]: the first operation of a resource-affecting kind
    that is not empty ends it with [false]. *)
Fixpoint Useless_loop (ops : list Op) : bool :=
  match ops with
  | [] => true
  | op :: ops =>
      if decide (operation.Type' op ∈
           [operation.TypeCreateResourceOperation;
            operation.TypeRecreateResourceOperation;
            operation.TypeUpdateResourceOperation;
            operation.TypeApplyResourceOperation;
            operation.TypeDeleteResourceOperation;
            operation.TypeFailReleaseOperation;
            operation.TypeTrackResourceReadinessOperation;
            operation.TypeTrackResourcePresenceOperation;
            operation.TypeTrackResourceAbsenceOperation;
            operation.TypeExtraPostCreateResourceOperation;
            operation.TypeExtraPostRecreateResourceOperation;
            operation.TypeExtraPostApplyResourceOperation;
            operation.TypeExtraPostUpdateResourceOperation;
            operation.TypeExtraPostDeleteResourceOperation])
      then if negb (operation.Empty op) then false else Useless_loop ops
      else Useless_loop ops
  end.

Definition Useless (p : Plan) : option (bool * option error) :=
  '(ops, found, e) ← Operations p;
  match e with
  | Some e => Some (false, Some (Errorf "error getting operations: %w" [] e))
  | None =>
      if negb found
      then Some (true, None)
      else Some (Useless_loop ops, None)
  end.

(** A sequence of calls building a plan; it succeeds when no call panics and
    every [AddDependency] returns [nil]. *)
Inductive Call :=
| CallAddOperation (op : Op)
| CallAddDependency (fromOpID toOpID : string).

Fixpoint build (calls : list Call) (p : Plan) : option Plan :=
  match calls with
  | [] => Some p
  | CallAddOperation op :: calls => p ← AddOperation p op; build calls p
  | CallAddDependency a b :: calls => p ← Must0 (AddDependency p a b); build calls p
  end.

(** The kinds that change a resource, as the specification lists them. *)
Definition mutating_kinds : list operation.OpType :=
  [operation.TypeCreateResourceOperation;
   operation.TypeRecreateResourceOperation;
   operation.TypeUpdateResourceOperation;
   operation.TypeApplyResourceOperation;
   operation.TypeDeleteResourceOperation;
   operation.TypeExtraPostCreateResourceOperation;
   operation.TypeExtraPostRecreateResourceOperation;
   operation.TypeExtraPostApplyResourceOperation;
   operation.TypeExtraPostUpdateResourceOperation;
   operation.TypeExtraPostDeleteResourceOperation].

Definition base_mutating_kinds : list operation.OpType :=
  [operation.TypeCreateResourceOperation;
   operation.TypeRecreateResourceOperation;
   operation.TypeUpdateResourceOperation;
   operation.TypeApplyResourceOperation;
   operation.TypeDeleteResourceOperation].

(** An operation held by the plan, under whatever key. *)
Definition is_vertex (p : Plan) (op : Op) : Prop :=
  exists key, graph.vertices (graph p) !! key = Some op.

(** An identifier that [Sprintf], given no operands, returns as it is: one
    without formatting verbs.  [plain_keys] says so of every key of the
    graph. *)
Definition plain (opID : string) : Prop := Sprintf opID [] = opID.

Definition plain_keys (p : Plan) : Prop :=
  map_Forall (fun opID _ => plain opID) (graph.vertices (graph p)).

#[global] Instance plain_dec opID : Decision (plain opID).
Proof. unfold plain. apply _. Defined.

#[global] Instance plain_keys_dec p : Decision (plain_keys p).
Proof. unfold plain_keys. apply _. Defined.

(** What the specification says of a Worthy query: it returns exactly the
    operations of the plan in the given status whose kind changes a
    resource. *)
Definition worthy_exactly (query : Plan -> option Found) (s : operation.Status)
    (p : Plan) : Prop :=
  exists ops found,
    query p = Some (ops, found, None)
    /\ forall op, op ∈ ops <->
         (is_vertex p op
          /\ operation.Status' op = s
          /\ operation.Type' op ∈ mutating_kinds).

(** The kinds [Useless] looks at: those that change a resource, the
    trackers and the operation that fails the release. *)
Definition useless_kinds : list operation.OpType :=
  [operation.TypeCreateResourceOperation;
   operation.TypeRecreateResourceOperation;
   operation.TypeUpdateResourceOperation;
   operation.TypeApplyResourceOperation;
   operation.TypeDeleteResourceOperation;
   operation.TypeFailReleaseOperation;
   operation.TypeTrackResourceReadinessOperation;
   operation.TypeTrackResourcePresenceOperation;
   operation.TypeTrackResourceAbsenceOperation;
   operation.TypeExtraPostCreateResourceOperation;
   operation.TypeExtraPostRecreateResourceOperation;
   operation.TypeExtraPostApplyResourceOperation;
   operation.TypeExtraPostUpdateResourceOperation;
   operation.TypeExtraPostDeleteResourceOperation].

(** The invariant of a plan built through the calls of this package: its
    graph prevents cycles and has none. *)
Definition guarded (p : Plan) : Prop :=
  graph.PreventCycles_ (graph.traits (graph p)) = true /\ graph.acyclic (graph p).

(** What the specification says of [AddStagedOperation]: for every operation
    and every two stage identifiers the call inserts the operation, has both
    stage markers in place and adds the three edges. *)
Definition staged_as_specified (p : Plan) (op : Op) (stageInID stageOutID : string) : Prop :=
  exists p',
    AddStagedOperation p op stageInID stageOutID = Some p'
    /\ is_Some (graph.vertices (graph p') !! operation.ID op)
    /\ is_Some (graph.vertices (graph p') !! stageInID)
    /\ is_Some (graph.vertices (graph p') !! stageOutID)
    /\ graph.edge (graph p') stageInID (operation.ID op)
    /\ graph.edge (graph p') (operation.ID op) stageOutID
    /\ graph.edge (graph p') stageInID stageOutID.


Definition worthy_queries_exact (p : Plan) : Prop :=
  worthy_exactly WorthyCompletedOperations operation.StatusCompleted p
  /\ worthy_exactly WorthyFailedOperations operation.StatusFailed p
  /\ worthy_exactly WorthyCanceledOperations operation.StatusUnknown p.

End Plan.

Arguments Plan : clear implicits.

End plan.

(** ** Package log: the logboek logger *)

Module log.

(** The Go type [log.Level], a string. *)
Definition Level := string.

(** Modelled from the spec: the level names and the slice [Levels], declared
    in a file that is not part of the sources.  [AcceptLevel] compares
    positions in [Levels], so the slice runs from the quietest level to the
    most verbose one. *)
Definition SilentLevel : Level := "silent".
Definition ErrorLevel : Level := "error".
Definition WarningLevel : Level := "warn".
Definition InfoLevel : Level := "info".
Definition DebugLevel : Level := "debug".
Definition TraceLevel : Level := "trace".

Definition Levels : list Level :=
  [SilentLevel; ErrorLevel; WarningLevel; InfoLevel; DebugLevel; TraceLevel].

(** The level managers of the logging backend. *)
Inductive Stream :=
| StreamDebug
| StreamDefault
| StreamWarn
| StreamError.

(** What the logger asks of the backend.  A message reaches it as a format
    string followed by operands. *)
Inductive BackendCall (Any : Type) :=
| LogF (stream : Stream) (format : string) (a : list Any)
| LogFHighlight (stream : Stream) (format : string) (a : list Any)
| SetAcceptedLevel (stream : Stream)
| Mute.

Arguments LogF {Any}.
Arguments LogFHighlight {Any}.
Arguments SetAcceptedLevel {Any}.
Arguments Mute {Any}.

Definition newline : string := String (Ascii.ascii_of_nat 10) EmptyString.

(** [slices.Index]: the position of the first match, or -1. *)
Fixpoint Index_from (i : Z) (s : list Level) (v : Level) : Z :=
  match s with
  | [] => (-1)%Z
  | x :: s => if decide (v = x) then i else Index_from (i + 1)%Z s v
  end.

Definition Index (s : list Level) (v : Level) : Z := Index_from 0%Z s v.

(** The five buffered levels, one per stash of the logger. *)
Inductive Channel :=
| ChTrace
| ChDebug
| ChInfo
| ChWarn
| ChError.

#[global] Instance Channel_eq_dec : EqDecision Channel.
Proof. solve_decision. Defined.

Section Logger.
Context {Any : Type}.

(** [fmt.Sprintf], taken as given. *)
Variable Sprintf : string -> list Any -> string.

(** The [LogboekLogger] struct, and in [output] the calls made on the
    backend so far. *)
Record LogboekLogger := mkLogboekLogger {
  traceStash : gmap string (list string);
  debugStash : gmap string (list string);
  infoStash : gmap string (list string);
  warnStash : gmap string (list string);
  errorStash : gmap string (list string);
  level : Level;
  output : list (BackendCall Any);
}.

Definition NewLogboekLogger : LogboekLogger :=
  {| traceStash := ∅; debugStash := ∅; infoStash := ∅; warnStash := ∅; errorStash := ∅;
     level := InfoLevel; output := [] |}.

Definition emit (call : BackendCall Any) (l : LogboekLogger) : LogboekLogger :=
  {| traceStash := traceStash l; debugStash := debugStash l; infoStash := infoStash l;
     warnStash := warnStash l; errorStash := errorStash l;
     level := level l; output := (output l ++ [call])%list |}.

Definition Level' (l : LogboekLogger) : Level := level l.

Definition AcceptLevel (l : LogboekLogger) (lvl : Level) : bool :=
  let lvlI := Index Levels lvl in
  let currentLvl := Level' l in
  let currentLvlI := Index Levels currentLvl in
  (currentLvlI >=? lvlI)%Z.

Definition Trace (l : LogboekLogger) (format : string) (a : list Any) : LogboekLogger :=
  if negb (AcceptLevel l TraceLevel) then l
  else emit (LogF StreamDebug (format +:+ newline) a) l.

Definition Debug (l : LogboekLogger) (format : string) (a : list Any) : LogboekLogger :=
  if negb (AcceptLevel l DebugLevel) then l
  else emit (LogF StreamDebug (format +:+ newline) a) l.

Definition Info (l : LogboekLogger) (format : string) (a : list Any) : LogboekLogger :=
  if negb (AcceptLevel l InfoLevel) then l
  else emit (LogF StreamDefault (format +:+ newline) a) l.

Definition Warn (l : LogboekLogger) (format : string) (a : list Any) : LogboekLogger :=
  if negb (AcceptLevel l WarningLevel) then l
  else emit (LogFHighlight StreamWarn (format +:+ newline) a) l.

Definition Error (l : LogboekLogger) (format : string) (a : list Any) : LogboekLogger :=
  if negb (AcceptLevel l ErrorLevel) then l
  else emit (LogFHighlight StreamError (format +:+ newline) a) l.

(** The ten push and pop methods are five copies of one pair, each over its
    own stash and its own logging method; the pair is written once, indexed
    by the channel. *)
Definition stash (ch : Channel) (l : LogboekLogger) : gmap string (list string) :=
  match ch with
  | ChTrace => traceStash l
  | ChDebug => debugStash l
  | ChInfo => infoStash l
  | ChWarn => warnStash l
  | ChError => errorStash l
  end.

Definition set_stash (ch : Channel) (s : gmap string (list string)) (l : LogboekLogger)
  : LogboekLogger :=
  match ch with
  | ChTrace =>
      {| traceStash := s; debugStash := debugStash l; infoStash := infoStash l;
         warnStash := warnStash l; errorStash := errorStash l;
         level := level l; output := output l |}
  | ChDebug =>
      {| traceStash := traceStash l; debugStash := s; infoStash := infoStash l;
         warnStash := warnStash l; errorStash := errorStash l;
         level := level l; output := output l |}
  | ChInfo =>
      {| traceStash := traceStash l; debugStash := debugStash l; infoStash := s;
         warnStash := warnStash l; errorStash := errorStash l;
         level := level l; output := output l |}
  | ChWarn =>
      {| traceStash := traceStash l; debugStash := debugStash l; infoStash := infoStash l;
         warnStash := s; errorStash := errorStash l;
         level := level l; output := output l |}
  | ChError =>
      {| traceStash := traceStash l; debugStash := debugStash l; infoStash := infoStash l;
         warnStash := warnStash l; errorStash := s;
         level := level l; output := output l |}
  end.

Definition log_on (ch : Channel) : LogboekLogger -> string -> list Any -> LogboekLogger :=
  match ch with
  | ChTrace => Trace
  | ChDebug => Debug
  | ChInfo => Info
  | ChWarn => Warn
  | ChError => Error
  end.

Definition level_of (ch : Channel) : Level :=
  match ch with
  | ChTrace => TraceLevel
  | ChDebug => DebugLevel
  | ChInfo => InfoLevel
  | ChWarn => WarningLevel
  | ChError => ErrorLevel
  end.

(** [stash[group]] in Go: the nil slice when the key is absent. *)
Definition buffer (ch : Channel) (l : LogboekLogger) (group : string) : list string :=
  default [] (stash ch l !! group).

Definition Push (ch : Channel) (l : LogboekLogger) (group : string) (format : string)
    (a : list Any) : LogboekLogger :=
  set_stash ch (<[group := (buffer ch l group ++ [Sprintf format a])%list]> (stash ch l)) l.

Definition Pop (ch : Channel) (l : LogboekLogger) (group : string) : LogboekLogger :=
  let l' := foldl (fun l msg => log_on ch l msg []) l (buffer ch l group) in
  set_stash ch (delete group (stash ch l')) l'.

Definition TracePush := Push ChTrace.
Definition TracePop := Pop ChTrace.
Definition DebugPush := Push ChDebug.
Definition DebugPop := Pop ChDebug.
Definition InfoPush := Push ChInfo.
Definition InfoPop := Pop ChInfo.
Definition WarnPush := Push ChWarn.
Definition WarnPop := Pop ChWarn.
Definition ErrorPush := Push ChError.
Definition ErrorPop := Pop ChError.

Definition set_level (lvl : Level) (l : LogboekLogger) : LogboekLogger :=
  {| traceStash := traceStash l; debugStash := debugStash l; infoStash := infoStash l;
     warnStash := warnStash l; errorStash := errorStash l;
     level := lvl; output := output l |}.

Definition SetLevel (l : LogboekLogger) (lvl : Level) : option LogboekLogger :=
  if decide (lvl = DebugLevel \/ lvl = TraceLevel)
  then Some (set_level lvl (emit (SetAcceptedLevel StreamDebug) l))
  else if decide (lvl = InfoLevel)
  then Some (set_level lvl (emit (SetAcceptedLevel StreamDefault) l))
  else if decide (lvl = WarningLevel)
  then Some (set_level lvl (emit (SetAcceptedLevel StreamWarn) l))
  else if decide (lvl = ErrorLevel)
  then Some (set_level lvl (emit (SetAcceptedLevel StreamError) l))
  else if decide (lvl = SilentLevel)
  then Some (set_level lvl (emit Mute l))
  else None.

(** A run of push calls for one group, each with its format and operands. *)
Definition pushes (ch : Channel) (l : LogboekLogger) (group : string)
    (entries : list (string * list Any)) : LogboekLogger :=
  foldl (fun l entry => Push ch l group entry.1 entry.2) l entries.

(** The backend calls made between two states of the logger. *)
Definition emitted (before after : LogboekLogger) : list (BackendCall Any) :=
  drop (length (output before)) (output after).

(** The backend call that carries one buffered message on a channel. *)
Definition carry (ch : Channel) (msg : string) : BackendCall Any :=
  match ch with
  | ChTrace | ChDebug => LogF StreamDebug (msg +:+ newline) []
  | ChInfo => LogF StreamDefault (msg +:+ newline) []
  | ChWarn => LogFHighlight StreamWarn (msg +:+ newline) []
  | ChError => LogFHighlight StreamError (msg +:+ newline) []
  end.

(** What the specification says of a pop: it emits exactly the messages
    pushed under the group, in order, and removes the group. *)
Definition pop_emits_pushed (ch : Channel) (l : LogboekLogger) (group : string)
    (entries : list (string * list Any)) : Prop :=
  let l1 := pushes ch l group entries in
  let l2 := Pop ch l1 group in
  emitted l1 l2 =
    map (carry ch) (buffer ch l group ++ map (fun entry => Sprintf entry.1 entry.2) entries)%list
  /\ stash ch l2 !! group = None.

End Logger.

Arguments LogboekLogger : clear implicits.

End log.

(** ** Concrete inputs used by the examples *)

Module examples.
Import errors id schema.

(** A small cluster: requests are counted, the object named [gone] is
    reported as not found, and one name resolves to the resource of custom
    resource definitions. *)
Definition notFound : error := APIStatus StatusReasonNotFound 404 "not found".

Definition configMaps : GroupVersionResource :=
  mkGroupVersionResource "core" "v1" "configmaps".

Definition crds : GroupVersionResource :=
  mkGroupVersionResource "apiextensions.k8s.io" "v1" "customresourcedefinitions".

Definition demoCluster : kube.Cluster nat string :=
  {| kube.GroupVersionResource := fun _ r =>
       inl (if decide (Name r = "widgets.example.com") then crds else configMaps);
     kube.Namespaced := fun _ r => inl (negb (bool_decide (Namespace r = EmptyString)));
     kube.dynamicGet := fun w _ name =>
       (S w, if decide (name = "gone") then inr notFound else inl ("live " +:+ name));
     kube.dynamicApply := fun w _ _ obj _ => (S w, inl obj);
     kube.dynamicPatch := fun w _ name _ _ _ =>
       (S w, if decide (name = "gone") then inr notFound else inl ("patched " +:+ name));
     kube.dynamicDelete := fun w _ name _ =>
       (S w, if decide (name = "gone") then Some notFound else None);
     kube.mapperReset := fun w => w;
     kube.SetReplicas := fun u _ => u |}.

Definition cfg : ResourceID :=
  {| ID := "core/v1/ConfigMap/app/cfg"; VersionID := "core/v1/ConfigMap/app/cfg";
     HumanID := "app/ConfigMap/cfg"; Name := "cfg"; Namespace := "app" |}.

Definition gone : ResourceID :=
  {| ID := "core/v1/ConfigMap/app/gone"; VersionID := "core/v1/ConfigMap/app/gone";
     HumanID := "app/ConfigMap/gone"; Name := "gone"; Namespace := "app" |}.

Definition widgets : ResourceID :=
  {| ID := "apiextensions.k8s.io/v1/CustomResourceDefinition//widgets.example.com";
     VersionID := "apiextensions.k8s.io/v1/CustomResourceDefinition//widgets.example.com";
     HumanID := "CustomResourceDefinition/widgets.example.com";
     Name := "widgets.example.com"; Namespace := EmptyString |}.

Definition client0 : kube.KubeClient nat string := kube.NewKubeClient 0.

(** A readiness tracker that failed, and a plan holding only it. *)
Definition failedTracker : operation.Operation string :=
  operation.OfOther
    {| operation.other_ID := "track-readiness/apps/v1/Deployment/app/web";
       operation.other_HumanID := "track readiness: app/Deployment/web";
       operation.other_Type := operation.TypeTrackResourceReadinessOperation;
       operation.other_Status := operation.StatusFailed;
       operation.other_Empty := false |}.

Definition trackerPlan : plan.Plan string :=
  default plan.NewPlan (plan.AddOperation plan.NewPlan failedTracker).

(** An apply operation for the config map, and a plan holding only it. *)
Definition applyCfg : operation.ApplyResourceOperation string :=
  (operation.NewApplyResourceOperation cfg "v1"
     {| operation.ManageableBy := "nelm"; operation.ExtraPost := false |}).1.


(** Two stage markers with an edge from the first to the second. *)
Definition orderedStages : list (plan.Call (U := string)) :=
  [plan.CallAddOperation (operation.OfStage (operation.NewStageOperation "stage/install"));
   plan.CallAddOperation (operation.OfStage (operation.NewStageOperation "stage/post-install"));
   plan.CallAddDependency "stage/install" "stage/post-install"].

Definition stagedPlan : plan.Plan string :=
  default plan.NewPlan (plan.build orderedStages plan.NewPlan).

(** A formatter for messages without operands: the format comes back as it
    is. *)
Definition verbatim : string -> list unit -> string := fun format _ => format.

(** A formatter for identifiers without operands, doing what [fmt.Sprintf]
    does with text and with the verb [%%]: text is copied and [%%] comes out
    as one [%].  No other verb occurs in the identifiers below. *)
Fixpoint percent (format : string) : string :=
  match format with
  | String "%"%char (String "%"%char rest) => String "%"%char (percent rest)
  | String c rest => String c (percent rest)
  | EmptyString => EmptyString
  end.

Definition Sprintf : string -> list unit -> string := fun format _ => percent format.




End examples.

(** * Properties *)

(** ** The release model *)

Section ReleaseFacts.
Import release.

Lemma one_of_spec s labels : one_of s labels = true <-> s ∈ labels.
Proof.
  unfold one_of. rewrite existsb_exists. split.
  - intros (x & Hin & Heq). apply String.eqb_eq in Heq. subst.
    by apply list_elem_of_In.
  - intros Hin. exists s. split; [by apply list_elem_of_In | apply String.eqb_refl].
Qed.

Lemma Succeeded_spec r :
  Succeeded r = true <->
  status r ∈ [StatusDeployed; StatusSuperseded; StatusUninstalled].
Proof.
  unfold Succeeded. rewrite <- one_of_spec.
  destruct (one_of _ _); intuition congruence.
Qed.

Lemma Failed_spec r :
  Failed r = true <->
  status r ∈ [StatusFailed; StatusUnknown; StatusPendingInstall;
              StatusPendingUpgrade; StatusPendingRollback; StatusUninstalling].
Proof.
  unfold Failed. rewrite <- one_of_spec.
  destruct (one_of _ _); intuition congruence.
Qed.

End ReleaseFacts.

(** C8. For every release, [Succeeded] holds exactly on the statuses deployed,
    superseded and uninstalled, [Failed] holds exactly on failed, unknown, the
    three pending statuses and uninstalling, and a skipped release is in
    neither set. *)
Theorem release_succeeded_failed_sets (r : release.Release) :
  (release.Succeeded r = true <->
     release.status r ∈ [release.StatusDeployed; release.StatusSuperseded;
                         release.StatusUninstalled])
  /\ (release.Failed r = true <->
     release.status r ∈ [release.StatusFailed; release.StatusUnknown;
                         release.StatusPendingInstall; release.StatusPendingUpgrade;
                         release.StatusPendingRollback; release.StatusUninstalling])
  /\ (release.status r = release.StatusSkipped ->
      release.Succeeded r = false /\ release.Failed r = false).
Proof.
  split; [apply Succeeded_spec | split; [apply Failed_spec |]].
  intros Hs. unfold release.Succeeded, release.Failed. rewrite Hs. done.
Qed.

Lemma release_succeeded_failed_sets_witness :
  release.status (release.Skip release.fresh) = release.StatusSkipped
  /\ release.Succeeded (release.Skip release.fresh) = false
  /\ release.Failed (release.Skip release.fresh) = false.
Proof.
  split; [reflexivity |].
  apply (release_succeeded_failed_sets (release.Skip release.fresh)).
  reflexivity.
Defined.

(** C2, as the specification words it, fails for [Fail]: a release that has
    never been deployed keeps both timestamps at zero. *)
Lemma release_fail_keeps_timestamps :
  ~ release.stamps_every_transition 5%Z release.DoFail release.fresh.
Proof.
  unfold release.stamps_every_transition. intros [_ H]. vm_compute in H. discriminate.
Qed.

(** C2, amended. [Pend] sets [lastDeployed] to the current time and sets
    [firstDeployed] to it when [firstDeployed] is still zero, whatever the
    status was; [Fail], [Succeed], [Supersede] and [Skip] change the status and
    nothing else, so they leave both timestamps as they were. *)
Theorem release_pend_is_the_only_stamp (now : release.Time) (r : release.Release) :
  (forall deployType,
      release.lastDeployed (release.Pend now deployType r) = now
      /\ release.firstDeployed (release.Pend now deployType r) =
           (if release.IsZero (release.firstDeployed r) then now
            else release.firstDeployed r)
      /\ release.status (release.Pend now deployType r) =
           release.pending_status deployType)
  /\ (forall t, t ∈ [release.DoFail; release.DoSucceed; release.DoSupersede; release.DoSkip] ->
      release.firstDeployed (release.transition now t r) = release.firstDeployed r
      /\ release.lastDeployed (release.transition now t r) = release.lastDeployed r
      /\ release.status (release.transition now t r) =
           match t with
           | release.DoFail => release.StatusFailed
           | release.DoSucceed => release.StatusDeployed
           | release.DoSupersede => release.StatusSuperseded
           | _ => release.StatusSkipped
           end).
Proof.
  split.
  - intros deployType. unfold release.Pend.
    destruct deployType; cbn; destruct (release.IsZero (release.firstDeployed r)); done.
  - intros t Ht. destruct t; [| done..].
    exfalso. repeat (apply elem_of_cons in Ht as [Ht | Ht]; [discriminate |]).
    by apply elem_of_nil in Ht.
Qed.

Lemma release_pend_is_the_only_stamp_witness :
  release.lastDeployed (release.transition 7%Z release.DoFail release.fresh) = 0%Z
  /\ release.lastDeployed (release.Pend 7%Z release.DeployTypeUpgrade release.fresh) = 7%Z.
Proof.
  split.
  - apply (release_pend_is_the_only_stamp 7%Z release.fresh).
    apply elem_of_cons. by left.
  - apply (release_pend_is_the_only_stamp 7%Z release.fresh).
Defined.

(** ** The kube client facade *)

Section KubeFacts.
Context {World U : Type} {cluster : kube.Cluster World U}.
Import errors id kube.

Implicit Types (c : KubeClient World U) (resource : ResourceID).

Lemma fresh_calls_same c c' : calls c' = calls c -> fresh_calls c c' = [].
Proof. intros E. unfold fresh_calls. rewrite E. apply drop_all. Qed.

Lemma fresh_calls_more c c' l : calls c' = calls c ++ l -> fresh_calls c c' = l.
Proof. intros E. unfold fresh_calls. rewrite E. apply drop_app_length. Qed.

(** Unfolds one method of the facade down to the primitive steps. *)
Ltac facade :=
  unfold mutate, Get, Create, Apply, MergePatch, Delete, resolveClient, resolveGVR,
    resolveNamespaced, perform, cacheGet, cacheSet, cacheDelete, resourceLock;
  unfold mbind, mret, M_bind, M_ret; cbn.

(** When the mapper knows the resource, the prologue yields its client. *)
Lemma resolveClient_ok c resource gvr namespaced :
  GroupVersionResource (world c) resource = inl gvr ->
  Namespaced (world c) resource = inl namespaced ->
  resolveClient resource c =
    (inl (gvr, clientResource gvr (Namespace resource) namespaced), c).
Proof.
  intros Hgvr Hns. unfold resolveClient, resolveGVR, resolveNamespaced.
  unfold mbind, mret, M_bind, M_ret. by rewrite Hgvr, Hns.
Qed.

(** A hit: [Get] with [TryCache] answers from the entry and asks nothing. *)
Lemma Get_hit c resource entry :
  clusterCache c !! VersionID resource = Some entry ->
  let out := Get resource {| TryCache := true |} c in
  out.1 = match err entry with
          | Some e => (None, Some (Errorf "get resource %q from client cache: %w"
                                     [HumanID resource] e))
          | None => (obj entry, None)
          end
  /\ calls out.2 = calls c
  /\ world out.2 = world c
  /\ clusterCache out.2 = clusterCache c.
Proof.
  intros Hhit. facade. rewrite Hhit. by destruct (err entry).
Qed.

(** A mutation that answers with an object leaves that object in the cache. *)
Lemma mutate_caches c c1 resource m resultObj :
  mutate resource m c = (Some resultObj, None, c1) ->
  clusterCache c1 !! VersionID resource = Some {| obj := Some resultObj; err := None |}.
Proof.
  destruct m; facade; intros Hrun;
    repeat case_match; simplify_eq/=; by rewrite lookup_insert_eq.
Qed.

(** What a mutation does when the mapper knows the resource and the cluster
    answers with an object: the object is returned and cached, and a [Create]
    or an [Apply] on the resource of custom resource definitions goes on to
    reset the mapper. *)
Lemma mutate_served c resource gvr namespaced m resultObj :
  GroupVersionResource (world c) resource = inl gvr ->
  Namespaced (world c) resource = inl namespaced ->
  let target := clientResource gvr (Namespace resource) namespaced in
  let answer := served (world c) target (Name resource) m in
  let reset := match m with
               | ByMergePatch _ => false
               | _ => util.IsCRDFromGR (schema.GroupResource_of gvr)
               end in
  answer.2 = inl resultObj ->
  let out := mutate resource m c in
  out.1 = (Some resultObj, None)
  /\ clusterCache out.2 =
       <[VersionID resource := {| obj := Some resultObj; err := None |}]> (clusterCache c)
  /\ calls out.2 =
       calls c ++ request target (Name resource) m :: (if reset then [CallMapperReset] else [])
  /\ world out.2 = (if reset then mapperReset answer.1 else answer.1).
Proof.
  intros Hgvr Hns target answer reset Hanswer. subst answer reset.
  destruct m as [unstruct opts | unstruct | patch]; cbn in *;
    unfold Create, Apply, MergePatch, resourceLock, mbind, M_bind;
    (erewrite resolveClient_ok by eassumption);
    unfold perform, cacheSet, mbind, mret, M_bind, M_ret; cbn;
    fold target; unfold withReplicas, sentApplyOptions in *; cbn in *.
  - destruct (dynamicApply _ _ _ _ _) as [w answer]; cbn in *. subst answer.
    destruct (util.IsCRDFromGR _); cbn; by rewrite <- ?app_assoc.
  - destruct (dynamicApply _ _ _ _ _) as [w answer]; cbn in *. subst answer.
    rewrite andb_true_r. destruct (util.IsCRDFromGR _); cbn; by rewrite <- ?app_assoc.
  - destruct (dynamicPatch _ _ _ _ _ _) as [w answer]; cbn in *. by subst answer.
Qed.

(** What an [Apply] with [DryRun] does when the mapper knows the resource:
    one apply request carrying the dry-run directive, whose answer is handed
    back; nothing else changes. *)
Lemma Apply_dry_run_served c resource unstruct gvr namespaced :
  GroupVersionResource (world c) resource = inl gvr ->
  Namespaced (world c) resource = inl namespaced ->
  let target := clientResource gvr (Namespace resource) namespaced in
  let answer := dynamicApply (world c) target (Name resource) unstruct
                  (sentApplyOptions true) in
  let out := Apply resource unstruct {| DryRun := true |} c in
  calls out.2 =
    calls c ++ [CallApply target (Name resource) unstruct (sentApplyOptions true)]
  /\ world out.2 = answer.1
  /\ clusterCache out.2 = clusterCache c
  /\ out.1 = match answer.2 with
             | inl resultObj => (Some resultObj, None)
             | inr e => (None, Some (Errorf "server-side %sapply resource %q: %w"
                                       ["dry-run "; HumanID resource] e))
             end.
Proof.
  intros Hgvr Hns target answer. subst answer.
  unfold Apply, resourceLock, mbind, M_bind.
  erewrite resolveClient_ok by eassumption.
  unfold perform, cacheSet, mbind, mret, M_bind, M_ret; cbn. fold target.
  unfold sentApplyOptions.
  destruct (dynamicApply _ _ _ _ _) as [w [resultObj | e]]; cbn; [| done].
  by rewrite andb_false_r.
Qed.

End KubeFacts.

(** C1, as the specification words it, fails: a [MergePatch] to which the
    cluster answers NotFound succeeds with no object, and the entry an earlier
    [Apply] left for the resource is still served afterwards. *)
Lemma kube_merge_patch_not_found_keeps_entry :
  ~ kube.coherent_after (cluster := examples.demoCluster) examples.gone
      (kube.ByMergePatch [])
      (kube.Apply (cluster := examples.demoCluster) examples.gone "v1"
         {| kube.DryRun := false |} examples.client0).2.
Proof.
  intros Hclaim. destruct (Hclaim eq_refl) as (_ & Hget & _).
  vm_compute in Hget. discriminate.
Qed.

(** C1, amended. [Get] with [TryCache] set answers from the cache entry of
    the resource's [VersionID], a cached error included, without a request to
    the cluster.  When the mapper knows the resource and the cluster answers
    a [Create], an [Apply] without dry run or a [MergePatch] with an object,
    the call returns that object and the entry holds it, so the next [Get]
    with [TryCache] returns it, again without a request. *)
Theorem kube_get_serves_from_cache {World U : Type} {cluster : kube.Cluster World U}
    (c : kube.KubeClient World U) (resource : id.ResourceID) :
  (forall entry,
      kube.clusterCache c !! id.VersionID resource = Some entry ->
      (kube.Get resource {| kube.TryCache := true |} c).1 =
        match kube.err entry with
        | Some e => (None, Some (errors.Errorf "get resource %q from client cache: %w"
                                   [id.HumanID resource] e))
        | None => (kube.obj entry, None)
        end
      /\ kube.fresh_calls c (kube.Get resource {| kube.TryCache := true |} c).2 = []
      /\ kube.world (kube.Get resource {| kube.TryCache := true |} c).2 = kube.world c)
  /\ (forall gvr namespaced m resultObj,
      kube.GroupVersionResource (kube.world c) resource = inl gvr ->
      kube.Namespaced (kube.world c) resource = inl namespaced ->
      (kube.served (kube.world c)
         (kube.clientResource gvr (id.Namespace resource) namespaced)
         (id.Name resource) m).2 = inl resultObj ->
      let out := kube.mutate resource m c in
      out.1 = (Some resultObj, None)
      /\ kube.clusterCache out.2 !! id.VersionID resource =
           Some {| kube.obj := Some resultObj; kube.err := None |}
      /\ (kube.Get resource {| kube.TryCache := true |} out.2).1 = (Some resultObj, None)
      /\ kube.fresh_calls out.2 (kube.Get resource {| kube.TryCache := true |} out.2).2 = []
      /\ kube.world (kube.Get resource {| kube.TryCache := true |} out.2).2
         = kube.world out.2).
Proof.
  split.
  - intros entry Hhit. destruct (Get_hit c resource entry Hhit) as (Hr & Hc & Hw & _).
    split; [exact Hr |]. split; [by apply fresh_calls_same | exact Hw].
  - intros gvr namespaced m resultObj Hgvr Hns Hanswer out.
    destruct (mutate_served c resource gvr namespaced m resultObj Hgvr Hns Hanswer)
      as (Hret & Hcache & _).
    assert (kube.clusterCache out.2 !! id.VersionID resource =
              Some {| kube.obj := Some resultObj; kube.err := None |}) as Hentry
      by (subst out; rewrite Hcache; apply lookup_insert_eq).
    destruct (Get_hit out.2 resource _ Hentry) as (Hr & Hc & Hw & _).
    split; [exact Hret |]. split; [exact Hentry |]. split; [exact Hr |].
    split; [by apply fresh_calls_same | exact Hw].
Qed.

Lemma kube_get_serves_from_cache_witness :
  (let out := kube.Create (cluster := examples.demoCluster) examples.cfg "v1"
                {| kube.ForceReplicas := None |} examples.client0 in
   out.1 = (Some "v1", None)
   /\ (kube.Get (cluster := examples.demoCluster) examples.cfg
         {| kube.TryCache := true |} out.2).1 = (Some "v1", None)
   /\ kube.fresh_calls out.2
        (kube.Get (cluster := examples.demoCluster) examples.cfg
           {| kube.TryCache := true |} out.2).2 = [])
  /\ (let out := kube.Apply (cluster := examples.demoCluster) examples.cfg "v2"
                   {| kube.DryRun := false |} examples.client0 in
      out.1 = (Some "v2", None)
      /\ (kube.Get (cluster := examples.demoCluster) examples.cfg
            {| kube.TryCache := true |} out.2).1 = (Some "v2", None)
      /\ kube.fresh_calls out.2
           (kube.Get (cluster := examples.demoCluster) examples.cfg
              {| kube.TryCache := true |} out.2).2 = [])
  /\ (let out := kube.MergePatch (cluster := examples.demoCluster) examples.cfg []
                   examples.client0 in
      out.1 = (Some "patched cfg", None)
      /\ (kube.Get (cluster := examples.demoCluster) examples.cfg
            {| kube.TryCache := true |} out.2).1 = (Some "patched cfg", None)
      /\ kube.fresh_calls out.2
           (kube.Get (cluster := examples.demoCluster) examples.cfg
              {| kube.TryCache := true |} out.2).2 = []).
Proof.
  destruct (kube_get_serves_from_cache (cluster := examples.demoCluster)
              examples.client0 examples.cfg) as [_ Hafter].
  pose proof (Hafter examples.configMaps true
                (kube.ByCreate "v1" {| kube.ForceReplicas := None |}) "v1"
                eq_refl eq_refl eq_refl) as (Hc1 & _ & Hc2 & Hc3 & _).
  pose proof (Hafter examples.configMaps true (kube.ByApply "v2") "v2"
                eq_refl eq_refl eq_refl) as (Ha1 & _ & Ha2 & Ha3 & _).
  pose proof (Hafter examples.configMaps true (kube.ByMergePatch []) "patched cfg"
                eq_refl eq_refl eq_refl) as (Hp1 & _ & Hp2 & Hp3 & _).
  split; [| split].
  - split; [exact Hc1 |]. split; [exact Hc2 | exact Hc3].
  - split; [exact Ha1 |]. split; [exact Ha2 | exact Ha3].
  - split; [exact Hp1 |]. split; [exact Hp2 | exact Hp3].
Defined.

(** C4, as the specification words it, fails: the object named [gone] was
    applied and is cached, the cluster then reports NotFound to the [Delete],
    which returns [nil], and the entry is still in the cache. *)
Lemma kube_delete_not_found_keeps_entry :
  ~ kube.deleted_quietly (cluster := examples.demoCluster) examples.gone
      {| kube.PropagationPolicy := None |}
      (kube.Apply (cluster := examples.demoCluster) examples.gone "v1"
         {| kube.DryRun := false |} examples.client0).2.
Proof.
  intros [_ Hentry]. vm_compute in Hentry. discriminate.
Qed.

(** C4, amended. [Delete] makes one request, with the caller's propagation
    policy or, without one, foreground; it returns [nil] when the cluster
    reports NotFound, and when the cluster carried the deletion out it returns
    [nil] and removes the cache entry.  [MergePatch] makes one request,
    returns [(nil, nil)] on NotFound and, when the cluster answers with an
    object, returns and caches it.  Every other error of a [Delete] or a
    [MergePatch] comes back wrapped, and so does every error of the cluster or
    of the cache in [Get], [Create] and [Apply], NotFound included. *)
Theorem kube_not_found_downgrade {World U : Type} {cluster : kube.Cluster World U}
    (c : kube.KubeClient World U) (resource : id.ResourceID)
    (gvr : schema.GroupVersionResource) (namespaced : bool) :
  kube.GroupVersionResource (kube.world c) resource = inl gvr ->
  kube.Namespaced (kube.world c) resource = inl namespaced ->
  let target := kube.clientResource gvr (id.Namespace resource) namespaced in
  let name := id.Name resource in
  let key := id.VersionID resource in
  (forall opts,
      let out := kube.Delete resource opts c in
      kube.fresh_calls c out.2 = [kube.CallDelete target name (kube.sentPolicy opts)]
      /\ match (kube.dynamicDelete (kube.world c) target name (kube.sentPolicy opts)).2 with
         | None =>
             out.1 = None
             /\ kube.clusterCache out.2 = delete key (kube.clusterCache c)
         | Some e =>
             out.1 = if errors.IsNotFound e then None
                     else Some (errors.Errorf "delete resource %q: %w"
                                  [id.HumanID resource] e)
         end)
  /\ kube.do_PropagationPolicy (kube.sentPolicy {| kube.PropagationPolicy := None |})
     = Some kube.DeletePropagationForeground
  /\ (forall patch,
      let out := kube.MergePatch resource patch c in
      kube.fresh_calls c out.2 =
        [kube.CallPatch target name kube.MergePatchType patch
           {| kube.po_FieldManager := kube.DefaultFieldManager |}]
      /\ match (kube.dynamicPatch (kube.world c) target name kube.MergePatchType patch
                  {| kube.po_FieldManager := kube.DefaultFieldManager |}).2 with
         | inl resultObj =>
             out.1 = (Some resultObj, None)
             /\ kube.clusterCache out.2 =
                  <[key := {| kube.obj := Some resultObj; kube.err := None |}]>
                    (kube.clusterCache c)
         | inr e =>
             out.1 = if errors.IsNotFound e then (None, None)
                     else (None, Some (errors.Errorf "merge patch resource %q: %w"
                                         [id.HumanID resource] e))
         end)
  /\ (forall e opts,
      (kube.TryCache opts = false \/ kube.clusterCache c !! key = None) ->
      (kube.dynamicGet (kube.world c) target name).2 = inr e ->
      (kube.Get resource opts c).1 =
        (None, Some (errors.Errorf "get resource %q: %w" [id.HumanID resource] e)))
  /\ (forall e entry,
      kube.clusterCache c !! key = Some entry ->
      kube.err entry = Some e ->
      (kube.Get resource {| kube.TryCache := true |} c).1 =
        (None, Some (errors.Errorf "get resource %q from client cache: %w"
                       [id.HumanID resource] e)))
  /\ (forall e unstruct opts,
      (kube.dynamicApply (kube.world c) target name (kube.withReplicas unstruct opts)
         (kube.sentApplyOptions false)).2 = inr e ->
      (kube.Create resource unstruct opts c).1 =
        (None, Some (errors.Errorf "server-side apply resource %q: %w"
                       [id.HumanID resource] e)))
  /\ (forall e unstruct dryRun,
      (kube.dynamicApply (kube.world c) target name unstruct
         (kube.sentApplyOptions dryRun)).2 = inr e ->
      (kube.Apply resource unstruct {| kube.DryRun := dryRun |} c).1 =
        (None, Some (errors.Errorf "server-side %sapply resource %q: %w"
                       [if dryRun then "dry-run " else EmptyString;
                        id.HumanID resource] e))).
Proof.
  intros Hgvr Hns target name key.
  split; [| split; [reflexivity |]; split; [| split; [| split; [| split]]]].
  - intros opts out. subst out. unfold kube.Delete, kube.resourceLock, mbind, kube.M_bind.
    erewrite resolveClient_ok by eassumption.
    unfold kube.perform, kube.cacheDelete, mbind, mret, kube.M_bind, kube.M_ret; cbn.
    fold target name. unfold kube.sentPolicy.
    replace (match kube.PropagationPolicy opts with
             | Some policy => Some policy
             | None => Some kube.DeletePropagationForeground
             end)
      with (Some (default kube.DeletePropagationForeground (kube.PropagationPolicy opts)))
      by (by destruct (kube.PropagationPolicy opts)).
    destruct (kube.dynamicDelete _ _ _ _) as [w [e |]]; cbn.
    + destruct (errors.IsNotFound e); cbn;
        (split; [by apply fresh_calls_more | done]).
    + split; [by apply fresh_calls_more | done].
  - intros patch out. subst out. unfold kube.MergePatch, kube.resourceLock, mbind, kube.M_bind.
    erewrite resolveClient_ok by eassumption.
    unfold kube.perform, kube.cacheSet, mbind, mret, kube.M_bind, kube.M_ret; cbn.
    fold target name key.
    destruct (kube.dynamicPatch _ _ _ _ _ _) as [w [resultObj | e]]; cbn.
    + split; [by apply fresh_calls_more | done].
    + destruct (errors.IsNotFound e); cbn; (split; [by apply fresh_calls_more | done]).
  - intros e opts Hmiss Hanswer. unfold kube.Get, kube.resourceLock, mbind, kube.M_bind.
    unfold kube.cacheGet, mret, kube.M_ret.
    assert (kube.TryCache opts = true -> kube.clusterCache c !! key = None) as Hnone
      by (intros Ht; destruct Hmiss as [Hf | Hm]; [congruence | done]).
    destruct (kube.TryCache opts); cbn; [fold key; rewrite Hnone by done |];
      (erewrite resolveClient_ok by eassumption);
      unfold kube.perform, kube.cacheSet, mbind, mret, kube.M_bind, kube.M_ret; cbn;
      fold target name;
      destruct (kube.dynamicGet _ _ _) as [w answer]; cbn in *; by subst.
  - intros e entry Hhit Herr.
    destruct (Get_hit c resource entry Hhit) as (Hr & _). by rewrite Herr in Hr.
  - intros e unstruct opts Hanswer. unfold kube.Create, kube.resourceLock, mbind, kube.M_bind.
    erewrite resolveClient_ok by eassumption.
    unfold kube.perform, kube.cacheSet, mbind, mret, kube.M_bind, kube.M_ret; cbn.
    fold target name. unfold kube.sentApplyOptions, kube.withReplicas in Hanswer.
    destruct (kube.dynamicApply _ _ _ _ _) as [w answer]; cbn in *; by subst.
  - intros e unstruct dryRun Hanswer. unfold kube.Apply, kube.resourceLock, mbind, kube.M_bind.
    erewrite resolveClient_ok by eassumption.
    unfold kube.perform, kube.cacheSet, mbind, mret, kube.M_bind, kube.M_ret; cbn.
    fold target name. unfold kube.sentApplyOptions in Hanswer.
    destruct (kube.dynamicApply _ _ _ _ _) as [w answer]; cbn in *. subst answer.
    by destruct dryRun.
Qed.

Lemma kube_not_found_downgrade_witness :
  (kube.Delete (cluster := examples.demoCluster) examples.gone
     {| kube.PropagationPolicy := None |} examples.client0).1 = None
  /\ (kube.MergePatch (cluster := examples.demoCluster) examples.gone []
        examples.client0).1 = (None, None)
  /\ (kube.Get (cluster := examples.demoCluster) examples.gone {| kube.TryCache := true |}
        examples.client0).1 =
     (None, Some (errors.Errorf "get resource %q: %w" ["app/ConfigMap/gone"]
                    examples.notFound)).
Proof.
  destruct (kube_not_found_downgrade (cluster := examples.demoCluster)
              examples.client0 examples.gone examples.configMaps true
              eq_refl eq_refl) as (Hdelete & _ & Hpatch & Hget & _).
  split; [| split].
  - exact (proj2 (Hdelete {| kube.PropagationPolicy := None |})).
  - exact (proj2 (Hpatch [])).
  - apply (Hget examples.notFound {| kube.TryCache := true |}); [by right | reflexivity].
Defined.

Section KubeApplyFacts.
Context {World U : Type} {cluster : kube.Cluster World U}.
Import errors id kube.

Implicit Types (c : KubeClient World U) (resource : ResourceID).

(** What a dry-run [Apply] does, whether or not the mapper knows the
    resource: the cache stays, and the only call that can be made is the
    apply request carrying the dry-run directive. *)
Lemma Apply_dry_run_frame c resource unstruct :
  let out := Apply resource unstruct {| DryRun := true |} c in
  clusterCache out.2 = clusterCache c
  /\ (fresh_calls c out.2 = []
      \/ exists target,
           fresh_calls c out.2 =
             [CallApply target (Name resource) unstruct (sentApplyOptions true)]).
Proof.
  unfold Apply, resolveClient, resolveGVR, resolveNamespaced, perform, cacheSet,
    resourceLock. unfold mbind, mret, M_bind, M_ret. cbn.
  destruct (GroupVersionResource _ _) as [gvr | e]; cbn;
    [| split; [done | left; by apply fresh_calls_same]].
  destruct (Namespaced _ _) as [namespaced | e]; cbn;
    [| split; [done | left; by apply fresh_calls_same]].
  destruct (dynamicApply _ _ _ _ _) as [w [resultObj | e]]; cbn.
  - rewrite andb_false_r. cbn. split; [done |]. right. eexists. by apply fresh_calls_more.
  - split; [done |]. right. eexists. by apply fresh_calls_more.
Qed.

End KubeApplyFacts.

(** C5. An [Apply] with [DryRun] set leaves the read cache as it was and
    does not reset the mapper, whatever the mapper and the cluster answer;
    when the mapper knows the resource, the call sends one apply request whose
    options carry the dry-run directive and hands back the cluster's answer,
    an object or the error wrapped, also for a custom resource definition.  A
    [Create] or an [Apply] without dry run that the cluster answers with an
    object returns it and, on the resource of custom resource definitions,
    resets the mapper after the request. *)
Theorem kube_dry_run_apply_is_inert {World U : Type} {cluster : kube.Cluster World U}
    (c : kube.KubeClient World U) (resource : id.ResourceID) (unstruct : U) :
  (kube.clusterCache (kube.Apply resource unstruct {| kube.DryRun := true |} c).2
     = kube.clusterCache c
   /\ ~ (kube.CallMapperReset ∈
          kube.fresh_calls c (kube.Apply resource unstruct {| kube.DryRun := true |} c).2))
  /\ (forall gvr namespaced,
        kube.GroupVersionResource (kube.world c) resource = inl gvr ->
        kube.Namespaced (kube.world c) resource = inl namespaced ->
        let target := kube.clientResource gvr (id.Namespace resource) namespaced in
        let directive :=
          {| kube.ao_DryRun := [kube.DryRunAll]; kube.ao_Force := true;
             kube.ao_FieldManager := kube.DefaultFieldManager |} in
        let answer :=
          kube.dynamicApply (kube.world c) target (id.Name resource) unstruct directive in
        let out := kube.Apply resource unstruct {| kube.DryRun := true |} c in
        kube.fresh_calls c out.2 =
          [kube.CallApply target (id.Name resource) unstruct directive]
        /\ kube.world out.2 = answer.1
        /\ out.1 = match answer.2 with
                   | inl resultObj => (Some resultObj, None)
                   | inr e =>
                       (None, Some (errors.Errorf "server-side %sapply resource %q: %w"
                                      ["dry-run "; id.HumanID resource] e))
                   end)
  /\ (forall gvr namespaced m resultObj,
        kube.GroupVersionResource (kube.world c) resource = inl gvr ->
        kube.Namespaced (kube.world c) resource = inl namespaced ->
        (forall patch, m <> kube.ByMergePatch patch) ->
        let target := kube.clientResource gvr (id.Namespace resource) namespaced in
        let answer := kube.served (kube.world c) target (id.Name resource) m in
        let crd := util.IsCRDFromGR (schema.GroupResource_of gvr) in
        answer.2 = inl resultObj ->
        let out := kube.mutate resource m c in
        out.1 = (Some resultObj, None)
        /\ kube.fresh_calls c out.2 =
             kube.request target (id.Name resource) m
             :: (if crd then [kube.CallMapperReset] else [])
        /\ kube.world out.2 = (if crd then kube.mapperReset answer.1 else answer.1)).
Proof.
  split; [| split].
  - destruct (Apply_dry_run_frame c resource unstruct) as [Hcache Hcalls].
    split; [exact Hcache |]. destruct Hcalls as [-> | [target ->]].
    + apply not_elem_of_nil.
    + intros Hin. apply list_elem_of_singleton in Hin. discriminate.
  - intros gvr namespaced Hgvr Hns target directive answer out.
    destruct (Apply_dry_run_served c resource unstruct gvr namespaced Hgvr Hns)
      as (Hcalls & Hworld & _ & Hret).
    split; [by apply fresh_calls_more |]. split; [exact Hworld | exact Hret].
  - intros gvr namespaced m resultObj Hgvr Hns Hm target answer crd Hanswer out.
    destruct (mutate_served c resource gvr namespaced m resultObj Hgvr Hns Hanswer)
      as (Hret & _ & Hcalls & Hworld).
    assert (match m with
            | kube.ByMergePatch _ => false
            | _ => util.IsCRDFromGR (schema.GroupResource_of gvr)
            end = crd) as Hreset
      by (destruct m as [| | patch]; [done | done | by destruct (Hm patch)]).
    rewrite Hreset in Hcalls, Hworld.
    split; [exact Hret |]. split; [by apply fresh_calls_more | exact Hworld].
Qed.

Lemma kube_dry_run_apply_is_inert_witness :
  kube.fresh_calls examples.client0
    (kube.Create (cluster := examples.demoCluster) examples.widgets "crd"
       {| kube.ForceReplicas := None |} examples.client0).2
  = [kube.CallApply {| kube.ri_gvr := examples.crds; kube.ri_namespace := None |}
       "widgets.example.com" "crd" (kube.sentApplyOptions false);
     kube.CallMapperReset]
  /\ kube.fresh_calls examples.client0
       (kube.Apply (cluster := examples.demoCluster) examples.widgets "crd"
          {| kube.DryRun := false |} examples.client0).2
     = [kube.CallApply {| kube.ri_gvr := examples.crds; kube.ri_namespace := None |}
          "widgets.example.com" "crd" (kube.sentApplyOptions false);
        kube.CallMapperReset]
  /\ kube.fresh_calls examples.client0
       (kube.Apply (cluster := examples.demoCluster) examples.widgets "crd"
          {| kube.DryRun := true |} examples.client0).2
     = [kube.CallApply {| kube.ri_gvr := examples.crds; kube.ri_namespace := None |}
          "widgets.example.com" "crd" (kube.sentApplyOptions true)]
  /\ kube.clusterCache
       (kube.Apply (cluster := examples.demoCluster) examples.widgets "crd"
          {| kube.DryRun := true |} examples.client0).2 = ∅.
Proof.
  destruct (kube_dry_run_apply_is_inert (cluster := examples.demoCluster)
              examples.client0 examples.widgets "crd") as ((Hcache & _) & Hdry & Hreset).
  split; [| split; [| split; [| exact Hcache]]].
  - destruct (Hreset examples.crds false
                (kube.ByCreate "crd" {| kube.ForceReplicas := None |}) "crd"
                eq_refl eq_refl) as (_ & Hcalls & _);
      [intros patch; discriminate | reflexivity | exact Hcalls].
  - destruct (Hreset examples.crds false (kube.ByApply "crd") "crd" eq_refl eq_refl)
      as (_ & Hcalls & _);
      [intros patch; discriminate | reflexivity | exact Hcalls].
  - exact (proj1 (Hdry examples.crds false eq_refl eq_refl)).
Defined.

(** ** The queries of the plan *)

Section PlanQueries.
Context {U Any : Type} (Sprintf : string -> list Any -> string).
Import errors plan.

Implicit Types (p : Plan U) (op : operation.Operation U).

(** [lo.Must] over [Operation] is the lookup of the formatted key among the
    vertices. *)
Lemma Must_Operation p idFormat a :
  Must (Operation Sprintf p idFormat a)
  = graph.vertices (graph p) !! Sprintf idFormat a.
Proof.
  unfold Must, Operation, graph.Vertex.
  by destruct (graph.vertices (graph p) !! Sprintf idFormat a).
Qed.

(** A key of the graph that formatting leaves alone is found under itself. *)
Lemma plain_keys_lookup p opID :
  plain_keys Sprintf p ->
  is_Some (graph.vertices (graph p) !! opID) ->
  Sprintf opID [] = opID.
Proof. intros Hplain [op Hop]. exact (Hplain opID op Hop). Qed.

Lemma nonempty_nil {A} : nonempty (@nil A) = false.
Proof. done. Qed.

Lemma nonempty_false {A} (l : list A) : nonempty l = false -> l = [].
Proof.
  destruct l; [done |]. unfold nonempty. cbn. intros Hf.
  apply bool_decide_eq_false in Hf. lia.
Qed.

(** When formatting leaves every key alone, [Operations] does not panic and
    returns the vertices of the graph. *)
Lemma Operations_spec p :
  plain_keys Sprintf p ->
  exists ops,
    Operations Sprintf p = Some (ops, nonempty ops, None)
    /\ forall op, op ∈ ops <-> is_vertex p op.
Proof.
  intros Hplain.
  assert (forall k, is_Some (graph.vertices (graph p) !! k) ->
            Must (Operation Sprintf p k []) = graph.vertices (graph p) !! k) as Hmust.
  { intros k Hk. by rewrite Must_Operation, (plain_keys_lookup p k Hplain Hk). }
  unfold Operations, graph.AdjacencyMap.
  set (adj := map_imap _ _).
  assert (forall k, k ∈ (map_to_list adj).*1 <-> is_Some (graph.vertices (graph p) !! k))
    as Hkeys.
  { intros k. rewrite list_elem_of_fmap. split.
    - intros ([k' s] & -> & Hin). apply elem_of_map_to_list in Hin.
      unfold adj in Hin. rewrite map_lookup_imap in Hin. cbn in *.
      destruct (graph.vertices (graph p) !! k'); [eauto | done].
    - intros [v Hv]. exists (k, graph.successors (graph p) k). split; [done |].
      apply elem_of_map_to_list. unfold adj. rewrite map_lookup_imap, Hv. done. }
  destruct (mapM (fun opID => Must (Operation Sprintf p opID [])) (map_to_list adj).*1)
    as [ops |] eqn:Hm.
  - exists ops. split; [done |]. apply mapM_Some in Hm. intros op. split.
    + intros Hin. apply list_elem_of_lookup in Hin as [i Hi].
      destruct (Forall2_lookup_r _ _ _ _ _ Hm Hi) as (k & Hki & Hk).
      rewrite Hmust in Hk by (apply Hkeys; by eapply list_elem_of_lookup_2).
      by exists k.
    + intros [k Hk]. assert (k ∈ (map_to_list adj).*1) as Hin by (apply Hkeys; eauto).
      apply list_elem_of_lookup in Hin as [i Hi].
      destruct (Forall2_lookup_l _ _ _ _ _ Hm Hi) as (op' & Hop' & Hk').
      rewrite Hmust, Hk in Hk' by eauto. simplify_eq. by eapply list_elem_of_lookup_2.
  - exfalso. assert (is_Some (mapM (fun opID => Must (Operation Sprintf p opID []))
                                (map_to_list adj).*1)) as [? ?]; [| congruence].
    apply mapM_is_Some, Forall_forall. intros k Hin. cbn.
    rewrite Hmust by (by apply Hkeys). by apply Hkeys.
Qed.

(** Under the same condition a query by status does not panic and keeps the
    vertices in that status. *)
Lemma operationsWithStatus_spec s p :
  plain_keys Sprintf p ->
  exists ops,
    operationsWithStatus Sprintf s p = Some (ops, nonempty ops, None)
    /\ forall op, op ∈ ops <-> (is_vertex p op /\ operation.Status' op = s).
Proof.
  intros Hplain. destruct (Operations_spec p Hplain) as (ops & Hops & Hin).
  unfold operationsWithStatus. rewrite Hops. cbn.
  destruct (nonempty ops) eqn:Hne; cbn.
  - eexists. split; [done |]. intros op. rewrite list_elem_of_filter, Hin. tauto.
  - exists []. split; [done |]. apply nonempty_false in Hne. subst ops.
    intros op. rewrite <- Hin. split; [by intros ?%elem_of_nil | by intros [?%elem_of_nil _]].
Qed.

(** The tail shared by the Worthy queries that select by kind. *)
Lemma filtered_query_spec (kinds : list operation.OpType) (message : string)
    (inner : option Found) (P : operation.Operation U -> Prop) :
  (exists ops, inner = Some (ops, nonempty ops, None) /\ forall op, op ∈ ops <-> P op) ->
  exists ops,
    ('(inOps, found, e) ← inner;
     match e with
     | Some e => Some ([], false, Some (Errorf message [] e))
     | None =>
         if negb found then Some ([], false, None)
         else let kept := filter (fun op => operation.Type' op ∈ kinds) inOps in
              Some (kept, nonempty kept, None)
     end) = Some (ops, nonempty ops, None)
    /\ forall op, op ∈ ops <-> (P op /\ operation.Type' op ∈ kinds).
Proof.
  intros (inOps & -> & Hin). cbn.
  destruct (nonempty inOps) eqn:Hne; cbn.
  - eexists. split; [done |]. intros op. rewrite list_elem_of_filter, Hin. tauto.
  - exists []. split; [done |]. apply nonempty_false in Hne. subst inOps.
    intros op. rewrite <- Hin. split; [by intros ?%elem_of_nil | by intros [?%elem_of_nil _]].
Qed.

Lemma copy_by_append {A} (l acc : list A) :
  foldl (fun acc x => acc ++ [x]) acc l = acc ++ l.
Proof.
  revert acc. induction l as [| x l IH]; intros acc; cbn; [by rewrite app_nil_r |].
  by rewrite IH, <- app_assoc.
Qed.

Lemma WorthyCompletedOperations_spec p :
  plain_keys Sprintf p ->
  exists ops,
    WorthyCompletedOperations Sprintf p = Some (ops, nonempty ops, None)
    /\ forall op, op ∈ ops <->
         ((is_vertex p op /\ operation.Status' op = operation.StatusCompleted)
          /\ operation.Type' op ∈ mutating_kinds).
Proof.
  intros Hplain.
  apply (filtered_query_spec mutating_kinds "error getting completed operations: %w"
           (CompletedOperations Sprintf p)
           (fun op => is_vertex p op /\ operation.Status' op = operation.StatusCompleted)).
  by apply operationsWithStatus_spec.
Qed.

Lemma WorthyCanceledOperations_spec p :
  plain_keys Sprintf p ->
  exists ops,
    WorthyCanceledOperations Sprintf p = Some (ops, nonempty ops, None)
    /\ forall op, op ∈ ops <->
         ((is_vertex p op /\ operation.Status' op = operation.StatusUnknown)
          /\ operation.Type' op ∈ base_mutating_kinds).
Proof.
  intros Hplain.
  apply (filtered_query_spec base_mutating_kinds "error getting canceled operations: %w"
           (CanceledOperations Sprintf p)
           (fun op => is_vertex p op /\ operation.Status' op = operation.StatusUnknown)).
  by apply operationsWithStatus_spec.
Qed.

Lemma WorthyFailedOperations_spec p :
  plain_keys Sprintf p ->
  exists ops,
    WorthyFailedOperations Sprintf p = Some (ops, nonempty ops, None)
    /\ forall op, op ∈ ops <->
         (is_vertex p op /\ operation.Status' op = operation.StatusFailed).
Proof.
  intros Hplain.
  destruct (operationsWithStatus_spec operation.StatusFailed p Hplain) as (ops & Hops & Hin).
  unfold WorthyFailedOperations, FailedOperations. rewrite Hops. cbn.
  destruct (nonempty ops) eqn:Hne; cbn.
  - rewrite copy_by_append. cbn. exists ops. by rewrite Hne.
  - exists []. split; [done |]. apply nonempty_false in Hne. by subst ops.
Qed.


End PlanQueries.

(** The kinds [WorthyCanceledOperations] keeps are among those that change a
    resource. *)
Lemma base_kinds_mutate (kind : operation.OpType) :
  kind ∈ plan.base_mutating_kinds -> kind ∈ plan.mutating_kinds.
Proof.
  unfold plan.base_mutating_kinds, plan.mutating_kinds. intros Hin.
  repeat (apply elem_of_cons in Hin as [-> | Hin];
          [repeat (apply elem_of_cons; first [by left | right]) |]).
  by apply elem_of_nil in Hin.
Qed.

(** C3, as the specification words it, fails: a failed readiness tracker is
    among the worthy failed operations although its kind changes no
    resource. *)
Lemma plan_worthy_failed_keeps_trackers :
  ~ plan.worthy_queries_exact examples.Sprintf examples.trackerPlan.
Proof.
  intros (_ & (ops & found & Hq & Hexact) & _).
  vm_compute in Hq. injection Hq as <- _.
  assert (examples.failedTracker ∈ [examples.failedTracker]) as Hin
    by apply list_elem_of_singleton, eq_refl.
  apply Hexact in Hin as (_ & _ & Hkind).
  unfold plan.mutating_kinds in Hkind.
  repeat (apply elem_of_cons in Hkind as [Hkind | Hkind]; [discriminate |]).
  by apply elem_of_nil in Hkind.
Qed.

(** C3, amended. For a plan none of whose vertex identifiers is changed by
    formatting, the three Worthy queries return without error.
    [WorthyCompletedOperations] returns exactly the completed operations of
    the ten resource-changing kinds; [WorthyFailedOperations] returns every
    failed operation, whatever its kind; [WorthyCanceledOperations] returns
    only operations still in status unknown of a resource-changing kind, and
    among them every one whose kind is create, recreate, update, apply or
    delete. *)
Theorem plan_worthy_queries {U Any : Type} (Sprintf : string -> list Any -> string)
    (p : plan.Plan U) :
  plan.plain_keys Sprintf p ->
  exists completed failed canceled,
    plan.WorthyCompletedOperations Sprintf p
      = Some (completed, plan.nonempty completed, None)
    /\ plan.WorthyFailedOperations Sprintf p = Some (failed, plan.nonempty failed, None)
    /\ plan.WorthyCanceledOperations Sprintf p
       = Some (canceled, plan.nonempty canceled, None)
    /\ forall op : operation.Operation U,
         (op ∈ completed <->
            ((plan.is_vertex p op /\ operation.Status' op = operation.StatusCompleted)
             /\ operation.Type' op ∈ plan.mutating_kinds))
         /\ (op ∈ failed <->
            (plan.is_vertex p op /\ operation.Status' op = operation.StatusFailed))
         /\ (op ∈ canceled ->
            ((plan.is_vertex p op /\ operation.Status' op = operation.StatusUnknown)
             /\ operation.Type' op ∈ plan.mutating_kinds))
         /\ (((plan.is_vertex p op /\ operation.Status' op = operation.StatusUnknown)
              /\ operation.Type' op ∈ plan.base_mutating_kinds) ->
             op ∈ canceled).
Proof.
  intros Hplain.
  destruct (WorthyCompletedOperations_spec Sprintf p Hplain) as (completed & Hc & Hcin).
  destruct (WorthyFailedOperations_spec Sprintf p Hplain) as (failed & Hf & Hfin).
  destruct (WorthyCanceledOperations_spec Sprintf p Hplain) as (canceled & Hx & Hxin).
  exists completed, failed, canceled.
  split; [exact Hc |]. split; [exact Hf |]. split; [exact Hx |].
  intros op. split; [apply Hcin |]. split; [apply Hfin |]. split.
  - intros Hin. apply Hxin in Hin as [Hv Hkind]. split; [exact Hv |].
    by apply base_kinds_mutate.
  - apply Hxin.
Qed.

Lemma plan_worthy_queries_witness :
  plan.plain_keys examples.Sprintf examples.trackerPlan
  /\ plan.WorthyFailedOperations examples.Sprintf examples.trackerPlan
     = Some ([examples.failedTracker], true, None)
  /\ plan.WorthyCompletedOperations examples.Sprintf examples.trackerPlan
     = Some ([], false, None).
Proof.
  assert (plan.plain_keys examples.Sprintf examples.trackerPlan) as Hplain
    by (apply (bool_decide_unpack _); vm_compute; reflexivity).
  split; [exact Hplain |].
  destruct (plan_worthy_queries examples.Sprintf examples.trackerPlan Hplain)
    as (completed & failed & canceled & Hc & Hf & _).
  split.
  - rewrite Hf. vm_compute in Hf. by injection Hf as <- _.
  - rewrite Hc. vm_compute in Hc. by injection Hc as <- _.
Defined.




(** ** The graph: the cycle check decides reachability *)

Section GraphFacts.
Context {T : Type}.
Import errors graph.

Implicit Types (g : Graph T) (stack : list string) (visited : gset string).

Lemma elem_of_predecessors g x v : x ∈ predecessors g v <-> edge g x v.
Proof.
  unfold predecessors, edge. rewrite list_elem_of_fmap. split.
  - intros ([a b] & -> & Hin). apply elem_of_elements, elem_of_filter in Hin as [Hb Hin].
    cbn in *. by subst.
  - intros Hin. exists (x, v). split; [done |].
    apply elem_of_elements, elem_of_filter. done.
Qed.

Lemma length_predecessors g v :
  length (predecessors g v) = size (filter (fun e : string * string => e.2 = v) (edges g)).
Proof. unfold predecessors. by rewrite length_fmap. Qed.

Lemma push_all (l stack : list string) :
  foldl (fun st adjacency => adjacency :: st) stack l = reverse l ++ stack.
Proof.
  revert stack. induction l as [| x l IH]; intros stack; [done |].
  rewrite reverse_cons, <- app_assoc. exact (IH (x :: stack)).
Qed.

(** Whatever the walk meets leads to the source, so an answer [true] is a
    path from the target to the source. *)
Lemma walk_sound g source target fuel stack visited :
  Forall (fun x => rtc (edge g) x source) stack ->
  createsCycle_walk fuel (predecessors g) target stack visited = Some true ->
  rtc (edge g) target source.
Proof.
  revert stack visited. induction fuel as [| fuel IH]; intros stack visited Hst; cbn; [done |].
  destruct stack as [| cur rest]; [done |].
  apply Forall_cons in Hst as [Hcur Hrest].
  case_decide; [by apply IH |]. case_decide; [by subst |].
  apply IH. rewrite push_all. apply Forall_app. split; [| done].
  apply Forall_reverse, Forall_forall. intros x Hx.
  apply elem_of_predecessors in Hx. by eapply rtc_l.
Qed.

(** An answer [false] leaves a set that holds the stack and the visited
    vertices, is closed under predecessors and misses the target. *)
Lemma walk_complete g target fuel stack visited :
  target ∉ visited ->
  (forall x v, edge g x v -> v ∈ visited -> x ∈ visited \/ x ∈ stack) ->
  createsCycle_walk fuel (predecessors g) target stack visited = Some false ->
  exists V : gset string,
    visited ⊆ V
    /\ (forall x, x ∈ stack -> x ∈ V)
    /\ (target ∉ V)
    /\ (forall x v, edge g x v -> v ∈ V -> x ∈ V).
Proof.
  revert stack visited. induction fuel as [| fuel IH]; intros stack visited Ht Hinv; cbn;
    [done |].
  destruct stack as [| cur rest].
  - intros _. exists visited. split; [done |].
    split; [by intros x ?%elem_of_nil |]. split; [done |].
    intros x v He Hv. destruct (Hinv x v He Hv) as [? | ?%elem_of_nil]; done.
  - case_decide as Hvis.
    + intros Hrun. destruct (IH rest visited Ht) as (V & Hsub & Hstack & HtV & Hclosed);
        [| done |].
      * intros x v He Hv. destruct (Hinv x v He Hv) as [? | Hx]; [by left |].
        apply elem_of_cons in Hx as [-> | ?]; [by left | by right].
      * exists V. split; [done |]. split; [| done]. intros x Hx.
        apply elem_of_cons in Hx as [-> | ?]; [by apply Hsub | by apply Hstack].
    + case_decide as Htarget; [done |]. intros Hrun.
      assert (target ∉ {[cur]} ∪ visited) as Ht' by set_solver.
      assert (forall x v, edge g x v -> v ∈ {[cur]} ∪ visited ->
                x ∈ {[cur]} ∪ visited
                \/ x ∈ foldl (fun st adjacency => adjacency :: st) rest
                         (predecessors g cur)) as Hinv'; [| destruct (IH _ _ Ht' Hinv' Hrun)
        as (V & Hsub & Hstack & HtV & Hclosed)].
      * intros x v He Hv. rewrite push_all, elem_of_app, elem_of_reverse.
        apply elem_of_union in Hv as [Hv | Hv].
        -- apply elem_of_singleton in Hv. subst v. right. left.
           by apply elem_of_predecessors.
        -- destruct (Hinv x v He Hv) as [? | Hx]; [left; set_solver |].
           apply elem_of_cons in Hx as [-> | ?]; [left; set_solver | right; by right].
      * exists V. split; [set_solver |]. split; [| done]. intros x Hx.
        apply elem_of_cons in Hx as [-> | Hx]; [set_solver |].
        apply Hstack. rewrite push_all, elem_of_app. by right.
Qed.

(** The edges into vertices the walk has not visited yet. *)
Lemma pending_split g visited cur :
  cur ∉ visited ->
  size (filter (fun e : string * string => e.2 ∉ visited) (edges g)) =
    size (filter (fun e : string * string => e.2 = cur) (edges g))
    + size (filter (fun e : string * string => e.2 ∉ {[cur]} ∪ visited) (edges g)).
Proof.
  intros Hcur. rewrite <- size_union.
  - f_equal. apply set_eq. intros [a b].
    rewrite elem_of_union, !elem_of_filter. cbn.
    destruct (decide (b = cur)) as [-> | Hne]; set_solver.
  - intros [a b]. rewrite !elem_of_filter. cbn. set_solver.
Qed.

(** The walk ends before its fuel does. *)
Lemma walk_fuel g target fuel stack visited :
  length stack + size (filter (fun e : string * string => e.2 ∉ visited) (edges g)) < fuel ->
  is_Some (createsCycle_walk fuel (predecessors g) target stack visited).
Proof.
  revert stack visited. induction fuel as [| fuel IH]; intros stack visited Hlt; [lia |].
  cbn. destruct stack as [| cur rest]; [eauto |]. cbn in Hlt.
  case_decide as Hvis; [apply IH; lia |]. case_decide; [eauto |].
  apply IH. rewrite push_all, length_app, length_reverse, length_predecessors.
  rewrite (pending_split g visited cur Hvis) in Hlt. lia.
Qed.

(** The cycle check answers [true] exactly when the target leads to the
    source, in zero or more edges. *)
Lemma CreatesCycle_spec g source target :
  CreatesCycle g source target = true <-> rtc (edge g) target source.
Proof.
  unfold CreatesCycle. case_decide as Heq; [by subst |].
  assert (forall fuel, createsCycle_fuel g <= fuel ->
            is_Some (createsCycle_walk fuel (predecessors g) target [source] ∅)) as Hsome.
  { intros fuel Hle. apply walk_fuel. eapply Nat.lt_le_trans; [| exact Hle].
    unfold createsCycle_fuel. simpl length.
    do 2 apply le_n_S. apply subseteq_size. intros e. rewrite elem_of_filter. tauto. }
  specialize (Hsome _ (le_n _)).
  remember (createsCycle_fuel g) as fuel eqn:Hfuel. clear Hfuel.
  destruct Hsome as [found Hrun].
  rewrite Hrun. destruct found.
  - split; [| done]. intros _. eapply walk_sound; [| exact Hrun].
    by apply Forall_singleton.
  - split; [done |]. intros Hpath. exfalso.
    destruct (walk_complete g target fuel [source] ∅) as (V & _ & Hstack & HtV & Hclosed);
      [set_solver | set_solver | exact Hrun |].
    apply HtV. clear HtV Hrun Heq.
    induction Hpath as [| x y z Hxy _ IHp]; [apply Hstack, elem_of_cons; by left |].
    eapply Hclosed; [exact Hxy | by apply IHp].
Qed.

(** A path of the graph with one more edge either is a path of the graph or
    goes through the new edge. *)
Lemma path_add_edge g a b x y :
  path (add_edge g a b) x y ->
  path g x y \/ (rtc (edge g) x a /\ rtc (edge g) b y).
Proof.
  assert (forall u v, edge (add_edge g a b) u v -> edge g u v \/ (u = a /\ v = b)) as Hedge.
  { intros u v. unfold edge, add_edge. cbn. set_solver. }
  induction 1 as [x y He | x y z He _ IH].
  - apply Hedge in He as [He | [-> ->]]; [left; by apply tc_once | by right].
  - apply Hedge in He as [He | [-> ->]].
    + destruct IH as [IH | [IHa IHb]]; [left; by eapply tc_l |].
      right. split; [by eapply rtc_l | done].
    + right. split; [done |]. destruct IH as [IH | [_ IHb]]; [by apply tc_rtc | done].
Qed.

Lemma rtc_add_edge g a b x y :
  rtc (edge (add_edge g a b)) x y ->
  rtc (edge g) x y \/ (rtc (edge g) x a /\ rtc (edge g) b y).
Proof.
  intros [-> | Hp]%rtc_tc; [by left |].
  apply path_add_edge in Hp as [Hp | ?]; [left; by apply tc_rtc | by right].
Qed.

(** A cycle that appears with a new edge closes a path the graph had. *)
Lemma cycle_add_edge g a b v :
  acyclic g -> path (add_edge g a b) v v -> rtc (edge g) b a.
Proof.
  intros Hac Hp. apply path_add_edge in Hp as [Hp | [Hva Hbv]]; [by destruct (Hac v) |].
  by etrans.
Qed.

(** What [AddEdge] returns, case by case. *)
Lemma AddEdge_spec g source target :
  is_Some (vertices g !! source) ->
  is_Some (vertices g !! target) ->
  AddEdge g source target =
    if decide ((source, target) ∈ edges g) then (g, Some ErrEdgeAlreadyExists)
    else if PreventCycles_ (traits g) && CreatesCycle g source target
         then (g, Some ErrEdgeCreatesCycle)
         else (add_edge g source target, None).
Proof.
  intros [vs Hs] [vt Ht]. unfold AddEdge. by rewrite Hs, Ht.
Qed.

Lemma add_edge_present g a b : (a, b) ∈ edges g -> add_edge g a b = g.
Proof.
  intros Hin. destruct g as [h t vs es]. unfold add_edge. cbn in *. f_equal.
  apply set_eq. set_solver.
Qed.

End GraphFacts.

(** ** Building the plan *)

Section PlanBuild.
Context {U : Type}.
Import errors plan.

Implicit Types (p : Plan U) (op : operation.Operation U).

(** [AddOperation] never panics: the only error of [AddVertex] is the one it
    tolerates. *)
Lemma AddOperation_spec p op :
  AddOperation p op = Some {| graph := (graph.AddVertex (graph p) op).1 |}.
Proof.
  unfold AddOperation, graph.AddVertex.
  by destruct (graph.vertices (graph p) !! graph.hash (graph p) op).
Qed.

Lemma AddVertex_frame (g : graph.Graph (operation.Operation U)) op :
  graph.hash (graph.AddVertex g op).1 = graph.hash g
  /\ graph.traits (graph.AddVertex g op).1 = graph.traits g
  /\ graph.edges (graph.AddVertex g op).1 = graph.edges g.
Proof.
  unfold graph.AddVertex. by destruct (graph.vertices g !! graph.hash g op).
Qed.

(** An existing vertex wins over the one offered under the same key. *)
Lemma AddVertex_lookup (g : graph.Graph (operation.Operation U)) op key :
  graph.vertices (graph.AddVertex g op).1 !! key =
    if decide (key = graph.hash g op)
    then Some (default op (graph.vertices g !! key))
    else graph.vertices g !! key.
Proof.
  unfold graph.AddVertex. destruct (graph.vertices g !! graph.hash g op) eqn:Hk; cbn.
  - case_decide; [subst; by rewrite Hk | done].
  - case_decide; [subst; by rewrite lookup_insert_eq, Hk | by rewrite lookup_insert_ne].
Qed.

(** [AddDependency] between two vertices, when the target does not lead to
    the source: the edge is in the graph afterwards and no error comes
    back. *)
Lemma AddDependency_ok p a b :
  is_Some (graph.vertices (graph p) !! a) ->
  is_Some (graph.vertices (graph p) !! b) ->
  ~ rtc (graph.edge (graph p)) b a ->
  AddDependency p a b = ({| graph := graph.add_edge (graph p) a b |}, None).
Proof.
  intros Ha Hb Hno. unfold AddDependency. rewrite AddEdge_spec by done.
  case_decide as Hedge; cbn; [by rewrite add_edge_present |].
  destruct (graph.CreatesCycle (graph p) a b) eqn:Hc;
    [by apply CreatesCycle_spec in Hc |].
  by rewrite andb_false_r.
Qed.

(** [AddDependency] when the edge is new and the target leads to the source,
    on a graph that prevents cycles: the graph stays and an error wrapping
    the library's comes back. *)
Lemma AddDependency_cycle p a b :
  is_Some (graph.vertices (graph p) !! a) ->
  is_Some (graph.vertices (graph p) !! b) ->
  graph.PreventCycles_ (graph.traits (graph p)) = true ->
  ~ graph.edge (graph p) a b ->
  rtc (graph.edge (graph p)) b a ->
  AddDependency p a b =
    (p, Some (Errorf "error adding edge from %q to %q: %w" [a; b]
                graph.ErrEdgeCreatesCycle)).
Proof.
  intros Ha Hb Htrait Hedge Hpath. unfold AddDependency. rewrite AddEdge_spec by done.
  rewrite decide_False by done. apply CreatesCycle_spec in Hpath.
  rewrite Htrait, Hpath. cbn. by destruct p.
Qed.

Lemma AddDependency_again p a b :
  is_Some (graph.vertices (graph p) !! a) ->
  is_Some (graph.vertices (graph p) !! b) ->
  graph.edge (graph p) a b ->
  AddDependency p a b = (p, None).
Proof.
  intros Ha Hb Hedge. unfold AddDependency. rewrite AddEdge_spec by done.
  rewrite decide_True by done. cbn. by destruct p.
Qed.

Lemma NewPlan_guarded : guarded (NewPlan (U := U)).
Proof.
  split; [done |]. intros v Hp. destruct Hp as [x y He | x y z He _]; cbn in He;
    unfold graph.edge in He; cbn in He; by apply not_elem_of_empty in He.
Qed.

Lemma AddOperation_guarded p p' op : guarded p -> AddOperation p op = Some p' -> guarded p'.
Proof.
  rewrite AddOperation_spec. intros [Ht Hac] [= <-]. unfold guarded. cbn.
  destruct (AddVertex_frame (graph p) op) as (_ & Htr & He).
  split; [by rewrite Htr |]. unfold graph.acyclic, graph.path, graph.edge in *.
  by rewrite He.
Qed.

Lemma AddDependency_guarded p p' a b :
  guarded p -> Must0 (AddDependency p a b) = Some p' -> guarded p'.
Proof.
  intros [Ht Hac]. unfold AddDependency, graph.AddEdge.
  destruct (graph.vertices (graph p) !! a); [| done].
  destruct (graph.vertices (graph p) !! b); [| done].
  case_decide as Hedge; [cbn; intros [= <-]; by split |].
  rewrite Ht. cbn. destruct (graph.CreatesCycle (graph p) a b) eqn:Hc; [done |].
  cbn. intros [= <-]. split; [done |]. cbn. intros v Hp.
  apply (cycle_add_edge (graph p) a b v Hac) in Hp.
  apply CreatesCycle_spec in Hp. congruence.
Qed.

Lemma build_guarded calls p p' : guarded p -> build calls p = Some p' -> guarded p'.
Proof.
  revert p. induction calls as [| [op | a b] calls IH]; intros p Hg; cbn.
  - by intros [= <-].
  - destruct (AddOperation p op) as [p1 |] eqn:H1; [| done]. cbn.
    apply IH. by eapply AddOperation_guarded.
  - destruct (Must0 (AddDependency p a b)) as [p1 |] eqn:H1; [| done]. cbn.
    apply IH. by eapply AddDependency_guarded.
Qed.

End PlanBuild.

(** C7. In a plan that prevents cycles and has none, for two vertices [a] and
    [b] of the graph: [AddDependency a b] returns [nil] and leaves the plan as
    it is when the edge is there already; it returns an error, around the
    library's cycle error, and leaves the plan, still acyclic, as it is when
    the edge would close a cycle.  Every sequence of [AddOperation] and
    [AddDependency] calls on a new plan that succeeds ends in an acyclic
    graph. *)
Theorem plan_dependencies_keep_acyclic {U : Type} :
  (forall calls (p : plan.Plan U),
      plan.build calls plan.NewPlan = Some p -> graph.acyclic (plan.graph p))
  /\ (forall (p : plan.Plan U) a b,
      graph.PreventCycles_ (graph.traits (plan.graph p)) = true ->
      graph.acyclic (plan.graph p) ->
      is_Some (graph.vertices (plan.graph p) !! a) ->
      is_Some (graph.vertices (plan.graph p) !! b) ->
      (graph.edge (plan.graph p) a b -> plan.AddDependency p a b = (p, None))
      /\ ((exists v, graph.path (graph.add_edge (plan.graph p) a b) v v) ->
          exists e,
            plan.AddDependency p a b = (p, Some e)
            /\ errors.Is e graph.ErrEdgeCreatesCycle = true
            /\ graph.acyclic (plan.graph p))).
Proof.
  split.
  - intros calls p Hbuild. by destruct (build_guarded calls _ p NewPlan_guarded Hbuild).
  - intros p a b Htrait Hac Ha Hb. split; [by apply AddDependency_again |].
    intros [v Hcycle]. pose proof (cycle_add_edge _ _ _ _ Hac Hcycle) as Hpath.
    assert (~ graph.edge (plan.graph p) a b) as Hedge.
    { intros Hedge. apply (Hac a). eapply tc_rtc_r; [by apply tc_once | done]. }
    eexists. split; [by apply AddDependency_cycle |]. by split.
Qed.

Lemma plan_dependencies_keep_acyclic_witness :
  plan.AddDependency examples.stagedPlan "stage/install" "stage/post-install"
    = (examples.stagedPlan, None)
  /\ (exists e,
        plan.AddDependency examples.stagedPlan "stage/post-install" "stage/install"
          = (examples.stagedPlan, Some e)
        /\ errors.Is e graph.ErrEdgeCreatesCycle = true
        /\ graph.acyclic (plan.graph examples.stagedPlan)).
Proof.
  destruct (@plan_dependencies_keep_acyclic string) as [Hbuild Hdep].
  assert (graph.acyclic (plan.graph examples.stagedPlan)) as Hac
    by (apply (Hbuild examples.orderedStages); vm_compute; reflexivity).
  assert (graph.edge (plan.graph examples.stagedPlan) "stage/install" "stage/post-install")
    as Hedge by (vm_compute; reflexivity).
  split.
  - apply Hdep; [reflexivity | exact Hac | vm_compute; eauto | vm_compute; eauto | exact Hedge].
  - apply Hdep; [reflexivity | exact Hac | vm_compute; eauto | vm_compute; eauto |].
    exists "stage/install". eapply tc_l; [| apply tc_once].
    + unfold graph.edge, graph.add_edge. cbn. apply elem_of_union_r. exact Hedge.
    + unfold graph.edge, graph.add_edge. cbn. apply elem_of_union_l, elem_of_singleton.
      reflexivity.
Defined.

(** ** Dependencies on a guarded plan *)

Section PlanMore.
Context {U : Type}.
Import errors plan.

Implicit Types (p : Plan U) (op : operation.Operation U).

Lemma Useless_loop_true (ops : list (operation.Operation U)) :
  Useless_loop ops = true <->
  forall op, op ∈ ops -> operation.Type' op ∈ useless_kinds -> operation.Empty op = true.
Proof.
  induction ops as [| op ops IH]; cbn.
  - split; [| done]. intros _ op Hin. by apply elem_of_nil in Hin.
  - fold (@useless_kinds). case_decide as Hkind.
    + destruct (operation.Empty op) eqn:Hempty; cbn.
      * rewrite IH. split.
        -- intros Hall op' Hin. apply elem_of_cons in Hin as [-> | Hin]; [done | by apply Hall].
        -- intros Hall op' Hin. apply Hall. by apply elem_of_cons; right.
      * split; [done |]. intros Hall.
        rewrite <- Hempty. apply Hall; [by apply elem_of_cons; left | done].
    + rewrite IH. split.
      * intros Hall op' Hin. apply elem_of_cons in Hin as [-> | Hin]; [done | by apply Hall].
      * intros Hall op' Hin. apply Hall. by apply elem_of_cons; right.
Qed.

Lemma plan_eta p : {| graph := graph p |} = p.
Proof. by destruct p. Qed.

Lemma rtc_edge_decide (g : graph.Graph (operation.Operation U)) x y :
  rtc (graph.edge g) x y \/ ~ rtc (graph.edge g) x y.
Proof.
  destruct (graph.CreatesCycle g y x) eqn:Hc.
  - left. by apply CreatesCycle_spec.
  - right. intros Hp. apply CreatesCycle_spec in Hp. congruence.
Qed.

Lemma rtc_add_edge_mono (g : graph.Graph (operation.Operation U)) a b x y :
  rtc (graph.edge g) x y -> rtc (graph.edge (graph.add_edge g a b)) x y.
Proof.
  induction 1 as [| x y z He _ IH]; [done |].
  eapply rtc_l; [| exact IH]. unfold graph.edge, graph.add_edge in *. cbn. set_solver.
Qed.

Lemma add_edge_guarded p a b :
  guarded p -> ~ rtc (graph.edge (graph p)) b a ->
  guarded {| graph := graph.add_edge (graph p) a b |}.
Proof.
  intros [Ht Hac] Hno. split; [done |]. cbn. intros v Hp.
  apply Hno. by eapply cycle_add_edge.
Qed.

(** [lo.Must0] over [AddDependency] between two vertices of a guarded plan:
    a panic exactly when the target leads to the source. *)
Lemma Must0_AddDependency p a b :
  guarded p ->
  is_Some (graph.vertices (graph p) !! a) ->
  is_Some (graph.vertices (graph p) !! b) ->
  (rtc (graph.edge (graph p)) b a -> Must0 (AddDependency p a b) = None)
  /\ (~ rtc (graph.edge (graph p)) b a ->
      Must0 (AddDependency p a b) = Some {| graph := graph.add_edge (graph p) a b |}).
Proof.
  intros [Ht Hac] Ha Hb. split.
  - intros Hpath. rewrite AddDependency_cycle; [done | done | done | done | | done].
    intros Hedge. apply (Hac a). eapply tc_rtc_r; [by apply tc_once | done].
  - intros Hno. by rewrite AddDependency_ok.
Qed.

(** The vertices [AddStagedOperation] puts in place before it adds edges. *)
Lemma AddOperation_grows p p' op :
  AddOperation p op = Some p' ->
  graph.hash (graph p') = graph.hash (graph p)
  /\ graph.traits (graph p') = graph.traits (graph p)
  /\ graph.edges (graph p') = graph.edges (graph p)
  /\ is_Some (graph.vertices (graph p') !! graph.hash (graph p) op)
  /\ forall key, is_Some (graph.vertices (graph p) !! key) ->
       is_Some (graph.vertices (graph p') !! key).
Proof.
  rewrite AddOperation_spec. intros [= <-]. cbn.
  destruct (AddVertex_frame (graph p) op) as (Hh & Ht & He).
  split; [done |]. split; [done |]. split; [done |]. split.
  - rewrite AddVertex_lookup, decide_True by done. eauto.
  - intros key [v Hv]. rewrite AddVertex_lookup, Hv. case_decide; eauto.
Qed.

Lemma guarded_same_edges p p' :
  graph.traits (graph p') = graph.traits (graph p) ->
  graph.edges (graph p') = graph.edges (graph p) ->
  guarded p -> guarded p'.
Proof.
  intros Ht He [Htrait Hac]. split; [by rewrite Ht |].
  unfold graph.acyclic, graph.path, graph.edge in *. by rewrite He.
Qed.

Lemma rtc_same_edges (g g' : graph.Graph (operation.Operation U)) x y :
  graph.edges g' = graph.edges g ->
  rtc (graph.edge g') x y -> rtc (graph.edge g) x y.
Proof. intros He. unfold graph.edge. by rewrite He. Qed.

Lemma rtc_same_edges_iff (g g' : graph.Graph (operation.Operation U)) x y :
  graph.edges g' = graph.edges g ->
  rtc (graph.edge g') x y <-> rtc (graph.edge g) x y.
Proof. intros He. split; apply rtc_same_edges; done. Qed.

End PlanMore.

Section StagedMore.
Context {U Any : Type} (Sprintf : string -> list Any -> string).
Import errors plan.

Implicit Types (p : Plan U) (op : operation.Operation U).

(** With a stage identifier that formatting leaves alone, [ensureStage] adds
    a marker exactly when no vertex has the identifier. *)
Lemma ensureStage_spec p stageID :
  plain Sprintf stageID ->
  ensureStage Sprintf p stageID =
    Some (match graph.vertices (graph p) !! stageID with
          | Some _ => p
          | None =>
              {| graph := (graph.AddVertex (graph p)
                             (operation.OfStage (operation.NewStageOperation stageID))).1 |}
          end).
Proof.
  intros Hplain. unfold ensureStage, Operation, graph.Vertex. rewrite Hplain.
  destruct (graph.vertices (graph p) !! stageID); cbn; [done |].
  apply AddOperation_spec.
Qed.

Lemma ensureStage_frame p p' stageID :
  plain Sprintf stageID ->
  ensureStage Sprintf p stageID = Some p' ->
  graph.hash (graph p') = graph.hash (graph p)
  /\ graph.traits (graph p') = graph.traits (graph p)
  /\ graph.edges (graph p') = graph.edges (graph p).
Proof.
  intros Hplain. rewrite ensureStage_spec by done. intros [= <-].
  destruct (graph.vertices (graph p) !! stageID); [done |]. apply AddVertex_frame.
Qed.

Lemma ensureStage_lookup p p' stageID key :
  plain Sprintf stageID ->
  graph.hash (graph p) = operation.ID ->
  ensureStage Sprintf p stageID = Some p' ->
  graph.vertices (graph p') !! key =
    if decide (key = stageID)
    then Some (default (operation.OfStage (operation.NewStageOperation stageID))
                 (graph.vertices (graph p) !! key))
    else graph.vertices (graph p) !! key.
Proof.
  intros Hplain Hhash. rewrite ensureStage_spec by done. intros [= <-].
  destruct (graph.vertices (graph p) !! stageID) eqn:Hk.
  - case_decide; [subst; by rewrite Hk | done].
  - cbn. rewrite AddVertex_lookup, Hhash. cbn. done.
Qed.

Lemma ensureStage_grows p p' stageID :
  plain Sprintf stageID ->
  graph.hash (graph p) = operation.ID ->
  ensureStage Sprintf p stageID = Some p' ->
  graph.hash (graph p') = graph.hash (graph p)
  /\ graph.traits (graph p') = graph.traits (graph p)
  /\ graph.edges (graph p') = graph.edges (graph p)
  /\ is_Some (graph.vertices (graph p') !! stageID)
  /\ forall key, is_Some (graph.vertices (graph p) !! key) ->
       is_Some (graph.vertices (graph p') !! key).
Proof.
  intros Hplain Hhash Hrun.
  destruct (ensureStage_frame _ _ _ Hplain Hrun) as (Hh & Ht & He).
  split; [done |]. split; [done |]. split; [done |]. split.
  - rewrite (ensureStage_lookup _ _ _ _ Hplain Hhash Hrun), decide_True by done.
    eauto.
  - intros key [v Hv]. rewrite (ensureStage_lookup _ _ _ _ Hplain Hhash Hrun), Hv.
    case_decide; eauto.
Qed.

(** Before it adds edges, [AddStagedOperation] has put the three vertices in
    place and changed nothing else of the graph. *)
Lemma staged_vertices p op stageInID stageOutID :
  plain Sprintf stageInID ->
  plain Sprintf stageOutID ->
  graph.hash (graph p) = operation.ID ->
  exists p3,
    (p1 ← AddOperation p op; p2 ← ensureStage Sprintf p1 stageInID;
     ensureStage Sprintf p2 stageOutID) = Some p3
    /\ graph.hash (graph p3) = operation.ID
    /\ graph.traits (graph p3) = graph.traits (graph p)
    /\ graph.edges (graph p3) = graph.edges (graph p)
    /\ is_Some (graph.vertices (graph p3) !! operation.ID op)
    /\ is_Some (graph.vertices (graph p3) !! stageInID)
    /\ is_Some (graph.vertices (graph p3) !! stageOutID).
Proof.
  intros Hin Hout Hhash.
  destruct (AddOperation p op) as [p1 |] eqn:H1; [| by rewrite AddOperation_spec in H1].
  destruct (AddOperation_grows _ _ _ H1) as (Hh1 & Ht1 & He1 & Vop1 & Hmono1).
  rewrite Hhash in Vop1, Hh1.
  destruct (ensureStage Sprintf p1 stageInID) as [p2 |] eqn:H2;
    [| by rewrite ensureStage_spec in H2 by done].
  destruct (ensureStage_grows _ _ _ Hin Hh1 H2) as (Hh2 & Ht2 & He2 & Vin2 & Hmono2).
  rewrite Hh1 in Hh2.
  destruct (ensureStage Sprintf p2 stageOutID) as [p3 |] eqn:H3;
    [| by rewrite ensureStage_spec in H3 by done].
  destruct (ensureStage_grows _ _ _ Hout Hh2 H3) as (Hh3 & Ht3 & He3 & Vout3 & Hmono3).
  exists p3. cbn. rewrite H2. cbn. split; [exact H3 |].
  split; [congruence |]. split; [congruence |]. split; [congruence |]. auto.
Qed.

End StagedMore.

(** ** Staged operations *)

Section Staged.
Context {U Any : Type} (Sprintf : string -> list Any -> string).
Import errors plan.

Implicit Types (p : Plan U) (op : operation.Operation U).

(** The effect of [AddStagedOperation] when none of its three edges closes a
    cycle. *)
Lemma AddStagedOperation_spec p op stageInID stageOutID :
  graph.hash (graph p) = operation.ID ->
  plain Sprintf stageInID ->
  plain Sprintf stageOutID ->
  ~ rtc (graph.edge (graph p)) stageOutID stageInID ->
  ~ rtc (graph.edge (graph p)) (operation.ID op) stageInID ->
  ~ rtc (graph.edge (graph p)) stageOutID (operation.ID op) ->
  exists p',
    AddStagedOperation Sprintf p op stageInID stageOutID = Some p'
    /\ graph.vertices (graph p') !! operation.ID op =
         Some (default op (graph.vertices (graph p) !! operation.ID op))
    /\ graph.vertices (graph p') !! stageInID =
         Some (default (operation.OfStage (operation.NewStageOperation stageInID))
                 (graph.vertices (graph p) !! stageInID))
    /\ graph.vertices (graph p') !! stageOutID =
         Some (default (operation.OfStage (operation.NewStageOperation stageOutID))
                 (graph.vertices (graph p) !! stageOutID))
    /\ (forall key, key <> operation.ID op -> key <> stageInID -> key <> stageOutID ->
         graph.vertices (graph p') !! key = graph.vertices (graph p) !! key)
    /\ graph.edges (graph p') =
         {[(stageInID, stageOutID); (stageInID, operation.ID op);
           (operation.ID op, stageOutID)]} ∪ graph.edges (graph p).
Proof.
  intros Hhash Hin Hout Hoi Hpi Hop.
  assert (operation.ID op <> stageInID) as Hne1 by (intros E; apply Hpi; by rewrite E).
  assert (stageOutID <> stageInID) as Hne2 by (intros E; apply Hoi; by rewrite E).
  assert (stageOutID <> operation.ID op) as Hne3 by (intros E; apply Hop; by rewrite E).
  unfold AddStagedOperation. rewrite AddOperation_spec. cbn.
  set (p1 := {| graph := (graph.AddVertex (graph p) op).1 |}).
  destruct (AddVertex_frame (graph p) op) as (Hh1 & Ht1 & He1).
  assert (forall key, graph.vertices (graph p1) !! key =
            if decide (key = operation.ID op)
            then Some (default op (graph.vertices (graph p) !! key))
            else graph.vertices (graph p) !! key) as Hv1.
  { intros key. unfold p1. cbn. by rewrite AddVertex_lookup, Hhash. }
  destruct (ensureStage Sprintf p1 stageInID) as [p2 |] eqn:H2;
    [| by rewrite ensureStage_spec in H2 by done].
  destruct (ensureStage_frame Sprintf _ _ _ Hin H2) as (Hh2 & Ht2 & He2).
  pose proof (fun key => ensureStage_lookup Sprintf p1 p2 stageInID key Hin
                           ltac:(unfold p1; cbn; congruence) H2) as Hv2.
  cbn. destruct (ensureStage Sprintf p2 stageOutID) as [p3 |] eqn:H3;
    [| by rewrite ensureStage_spec in H3 by done].
  destruct (ensureStage_frame Sprintf _ _ _ Hout H3) as (Hh3 & Ht3 & He3).
  pose proof (fun key => ensureStage_lookup Sprintf p2 p3 stageOutID key Hout
                           ltac:(unfold p1 in *; cbn in *; congruence) H3) as Hv3.
  cbn.
  assert (graph.edges (graph p3) = graph.edges (graph p)) as He
    by (unfold p1 in *; cbn in *; congruence).
  assert (graph.vertices (graph p3) !! operation.ID op =
            Some (default op (graph.vertices (graph p) !! operation.ID op))) as Vop.
  { rewrite Hv3, decide_False by done. rewrite Hv2, decide_False by done.
    by rewrite Hv1, decide_True. }
  assert (graph.vertices (graph p3) !! stageInID =
            Some (default (operation.OfStage (operation.NewStageOperation stageInID))
                    (graph.vertices (graph p) !! stageInID))) as Vin.
  { rewrite Hv3, decide_False by done. rewrite Hv2, decide_True by done.
    by rewrite Hv1, decide_False. }
  assert (graph.vertices (graph p3) !! stageOutID =
            Some (default (operation.OfStage (operation.NewStageOperation stageOutID))
                    (graph.vertices (graph p) !! stageOutID))) as Vout.
  { rewrite Hv3, decide_True by done. rewrite Hv2, decide_False by done.
    by rewrite Hv1, decide_False. }
  assert (forall x y, rtc (graph.edge (graph p3)) x y -> rtc (graph.edge (graph p)) x y)
    as Hback by (intros x y; by apply rtc_same_edges).
  rewrite (AddDependency_ok p3 stageInID stageOutID); [| by eauto | by eauto | by auto].
  cbn. set (g4 := graph.add_edge (graph p3) stageInID stageOutID).
  assert (forall x y, rtc (graph.edge g4) x y ->
            rtc (graph.edge (graph p)) x y
            \/ (rtc (graph.edge (graph p)) x stageInID
                /\ rtc (graph.edge (graph p)) stageOutID y)) as Hback4.
  { intros x y [H | [Ha Hb]]%rtc_add_edge; [left; by apply Hback |].
    right. split; by apply Hback. }
  rewrite (AddDependency_ok {| graph := g4 |} stageInID (operation.ID op));
    [| cbn; by eauto | cbn; by eauto |].
  2: { cbn. intros [H | [H _]]%Hback4; by auto. }
  cbn. set (g5 := graph.add_edge g4 stageInID (operation.ID op)).
  rewrite (AddDependency_ok {| graph := g5 |} (operation.ID op) stageOutID);
    [| cbn; by eauto | cbn; by eauto |].
  2: { cbn. intros [H | [H _]]%rtc_add_edge.
       - apply Hback4 in H as [H | [H _]]; by auto.
       - apply Hback4 in H as [H | [H _]]; by auto. }
  cbn. eexists. split; [done |]. cbn.
  split; [exact Vop |]. split; [exact Vin |]. split; [exact Vout |]. split.
  - intros key K1 K2 K3. rewrite Hv3, decide_False by done.
    rewrite Hv2, decide_False by done. by rewrite Hv1, decide_False.
  - rewrite He. apply set_eq. intros e. set_solver.
Qed.

(** On a plan whose graph prevents cycles and has none, the call panics
    exactly when one of its three edges would close a cycle, and what it
    returns is again such a plan. *)
Lemma AddStagedOperation_outcome p op stageInID stageOutID :
  guarded p ->
  graph.hash (graph p) = operation.ID ->
  plain Sprintf stageInID ->
  plain Sprintf stageOutID ->
  (AddStagedOperation Sprintf p op stageInID stageOutID = None <->
     (rtc (graph.edge (graph p)) stageOutID stageInID
      \/ rtc (graph.edge (graph p)) (operation.ID op) stageInID
      \/ rtc (graph.edge (graph p)) stageOutID (operation.ID op)))
  /\ (forall p', AddStagedOperation Sprintf p op stageInID stageOutID = Some p' ->
        guarded p' /\ graph.hash (graph p') = operation.ID).
Proof.
  intros Hg Hhash Hin Hout.
  destruct (staged_vertices Sprintf p op stageInID stageOutID Hin Hout Hhash)
    as (p3 & Hrun & Hh3 & Ht3 & He3 & Vop & Vin & Vout).
  assert (guarded p3) as Hg3 by (by eapply guarded_same_edges).
  assert (AddStagedOperation Sprintf p op stageInID stageOutID =
            (p4 ← Must0 (AddDependency p3 stageInID stageOutID);
             p5 ← Must0 (AddDependency p4 stageInID (operation.ID op));
             Must0 (AddDependency p5 (operation.ID op) stageOutID))) as ->.
  { unfold AddStagedOperation.
    destruct (AddOperation p op) as [p1 |]; [| done]. cbn in *.
    destruct (ensureStage Sprintf p1 stageInID) as [p2 |]; [| done]. cbn in *.
    by rewrite Hrun. }
  assert (forall x y, rtc (graph.edge (graph p3)) x y
                      <-> rtc (graph.edge (graph p)) x y) as H3
    by (intros x y; by apply rtc_same_edges_iff).
  destruct (Must0_AddDependency p3 stageInID stageOutID Hg3 Vin Vout) as [Hbad1 Hok1].
  destruct (rtc_edge_decide (graph p) stageOutID stageInID) as [Hoi | Hoi].
  { rewrite Hbad1 by (by apply H3). cbn. split; [tauto | done]. }
  rewrite Hok1 by (by rewrite H3). cbn [mbind option_bind].
  set (p4 := {| graph := graph.add_edge (graph p3) stageInID stageOutID |}).
  assert (guarded p4) as Hg4 by (apply add_edge_guarded; [done | by rewrite H3]).
  assert (forall x y, rtc (graph.edge (graph p4)) x y ->
            rtc (graph.edge (graph p)) x y
            \/ (rtc (graph.edge (graph p)) x stageInID
                /\ rtc (graph.edge (graph p)) stageOutID y)) as H4.
  { intros x y [H | [Ha Hb]]%rtc_add_edge; [left; by apply H3 |].
    right. split; by apply H3. }
  destruct (Must0_AddDependency p4 stageInID (operation.ID op) Hg4 Vin Vop) as [Hbad2 Hok2].
  destruct (rtc_edge_decide (graph p) (operation.ID op) stageInID) as [Hpi | Hpi].
  { rewrite Hbad2; [cbn; split; [tauto | done] |].
    apply (rtc_add_edge_mono (graph p3)). by apply H3. }
  rewrite Hok2 by (intros [H | [H _]]%H4; done). cbn [mbind option_bind].
  set (p5 := {| graph := graph.add_edge (graph p4) stageInID (operation.ID op) |}).
  assert (guarded p5) as Hg5
    by (apply add_edge_guarded; [done | intros [H | [H _]]%H4; done]).
  destruct (Must0_AddDependency p5 (operation.ID op) stageOutID Hg5 Vop Vout) as [Hbad3 Hok3].
  destruct (rtc_edge_decide (graph p) stageOutID (operation.ID op)) as [Hop | Hop].
  { rewrite Hbad3; [split; [tauto | done] |].
    apply (rtc_add_edge_mono (graph p4)), (rtc_add_edge_mono (graph p3)).
    by apply H3. }
  assert (~ rtc (graph.edge (graph p5)) stageOutID (operation.ID op)) as Hno5.
  { intros [H | [H _]]%rtc_add_edge; apply H4 in H as [H | [H _]]; done. }
  rewrite Hok3 by done. split.
  - split; [done |]. intros [? | [? | ?]]; done.
  - intros p' [= <-]. split; [by apply (add_edge_guarded p5) |]. exact Hh3.
Qed.

End Staged.

(** C6, as the specification words it, fails when both stage identifiers are
    the same: the spanning edge would be a loop, the graph refuses it and the
    call panics. *)
Lemma plan_staged_same_stage_panics :
  ~ plan.staged_as_specified (U := string) examples.Sprintf plan.NewPlan
      (operation.OfApply examples.applyCfg) "stage/install" "stage/install".
Proof.
  intros (p' & Hrun & _). vm_compute in Hrun. discriminate.
Qed.

(** C6, amended.  The stage identifiers are ones that formatting leaves
    alone.  When the out-stage does not lead to the in-stage, the operation
    does not lead to the in-stage and the out-stage does not lead to the
    operation (in zero or more edges, so the three identifiers differ),
    [AddStagedOperation] returns, the graph holds a vertex under the
    operation's identifier (the operation, unless one was there), a vertex
    under each stage identifier (a new stage marker, unless one was there), no
    other vertex changes, and the edges are those of before with stageIn → op,
    op → stageOut and stageIn → stageOut.  When one of the three does lead
    there, in a graph that prevents cycles and has none, the call panics. *)
Theorem plan_staged_operation {U Any : Type} (Sprintf : string -> list Any -> string)
    (p : plan.Plan U) (op : operation.Operation U) (stageInID stageOutID : string) :
  graph.hash (plan.graph p) = operation.ID ->
  plan.plain Sprintf stageInID ->
  plan.plain Sprintf stageOutID ->
  (~ rtc (graph.edge (plan.graph p)) stageOutID stageInID ->
   ~ rtc (graph.edge (plan.graph p)) (operation.ID op) stageInID ->
   ~ rtc (graph.edge (plan.graph p)) stageOutID (operation.ID op) ->
   exists p',
     plan.AddStagedOperation Sprintf p op stageInID stageOutID = Some p'
     /\ graph.vertices (plan.graph p') !! operation.ID op =
          Some (default op (graph.vertices (plan.graph p) !! operation.ID op))
     /\ graph.vertices (plan.graph p') !! stageInID =
          Some (default (operation.OfStage (operation.NewStageOperation stageInID))
                  (graph.vertices (plan.graph p) !! stageInID))
     /\ graph.vertices (plan.graph p') !! stageOutID =
          Some (default (operation.OfStage (operation.NewStageOperation stageOutID))
                  (graph.vertices (plan.graph p) !! stageOutID))
     /\ (forall key, key <> operation.ID op -> key <> stageInID -> key <> stageOutID ->
          graph.vertices (plan.graph p') !! key = graph.vertices (plan.graph p) !! key)
     /\ graph.edges (plan.graph p') =
          {[(stageInID, stageOutID); (stageInID, operation.ID op);
            (operation.ID op, stageOutID)]} ∪ graph.edges (plan.graph p))
  /\ (plan.guarded p ->
      (rtc (graph.edge (plan.graph p)) stageOutID stageInID
       \/ rtc (graph.edge (plan.graph p)) (operation.ID op) stageInID
       \/ rtc (graph.edge (plan.graph p)) stageOutID (operation.ID op)) ->
      plan.AddStagedOperation Sprintf p op stageInID stageOutID = None).
Proof.
  intros Hhash Hin Hout. split.
  - by apply AddStagedOperation_spec.
  - intros Hg Hpath.
    by apply (AddStagedOperation_outcome Sprintf p op stageInID stageOutID Hg Hhash Hin Hout).
Qed.

Lemma plan_staged_operation_witness :
  (exists p',
    plan.AddStagedOperation examples.Sprintf plan.NewPlan
      (operation.OfApply examples.applyCfg) "stage/install" "stage/post-install" = Some p'
    /\ graph.edges (plan.graph p') =
         {[("stage/install", "stage/post-install");
           ("stage/install", operation.ID (operation.OfApply examples.applyCfg));
           (operation.ID (operation.OfApply examples.applyCfg), "stage/post-install")]}
         ∪ graph.edges (plan.graph (plan.NewPlan (U := string))))
  /\ plan.AddStagedOperation examples.Sprintf examples.stagedPlan
       (operation.OfApply examples.applyCfg) "stage/post-install" "stage/install" = None.
Proof.
  split.
  - destruct (plan_staged_operation examples.Sprintf plan.NewPlan
                (operation.OfApply examples.applyCfg)
                "stage/install" "stage/post-install" eq_refl eq_refl eq_refl)
      as [Hgood _].
    destruct Hgood as (p' & Hrun & _ & _ & _ & _ & Hedges);
      [intros Hp; apply CreatesCycle_spec in Hp; vm_compute in Hp; discriminate
      | intros Hp; apply CreatesCycle_spec in Hp; vm_compute in Hp; discriminate
      | intros Hp; apply CreatesCycle_spec in Hp; vm_compute in Hp; discriminate
      |].
    exists p'. split; [exact Hrun | exact Hedges].
  - destruct (plan_staged_operation examples.Sprintf examples.stagedPlan
                (operation.OfApply examples.applyCfg)
                "stage/post-install" "stage/install" eq_refl eq_refl eq_refl)
      as [_ Hbad].
    apply Hbad.
    + apply (build_guarded examples.orderedStages plan.NewPlan); [apply NewPlan_guarded |].
      vm_compute. reflexivity.
    + left. apply rtc_once. vm_compute. reflexivity.
Defined.

(** ** The logger *)

Section LoggerFacts.
Context {Any : Type} (Sprintf : string -> list Any -> string).
Import log.

Implicit Types (l : LogboekLogger Any) (ch : Channel) (group : string).

Lemma stash_set_stash ch ch' s l :
  stash ch' (set_stash ch s l) = if decide (ch' = ch) then s else stash ch' l.
Proof. by destruct ch, ch'. Qed.

Lemma set_stash_frame ch s l :
  output (set_stash ch s l) = output l /\ level (set_stash ch s l) = level l.
Proof. by destruct ch. Qed.

(** A log method either hands the message to the backend or drops it,
    according to the level of the logger. *)
Lemma log_on_spec ch l msg :
  log_on ch l msg [] =
    if AcceptLevel l (level_of ch) then emit (carry ch msg) l else l.
Proof.
  destruct ch; cbn; unfold Trace, Debug, Info, Warn, Error;
    by destruct (AcceptLevel l _).
Qed.

Lemma log_all_spec ch msgs l :
  let l' := foldl (fun l msg => log_on ch l msg []) l msgs in
  output l' =
    output l ++ (if AcceptLevel l (level_of ch) then map (carry ch) msgs else [])
  /\ level l' = level l
  /\ forall ch', stash ch' l' = stash ch' l.
Proof.
  revert l. induction msgs as [| msg msgs IH]; intros l; cbn.
  - split; [| done]. destruct (AcceptLevel _ _); by rewrite app_nil_r.
  - destruct (IH (log_on ch l msg [])) as (Hout & Hlevel & Hstash).
    rewrite log_on_spec in Hout, Hlevel, Hstash. rewrite log_on_spec.
    destruct (AcceptLevel l (level_of ch)) eqn:Hacc.
    + assert (AcceptLevel (emit (carry ch msg) l) (level_of ch) = true) as Hacc'
        by exact Hacc.
      rewrite Hacc' in Hout. split; [| split].
      * rewrite Hout. cbn. by rewrite <- app_assoc.
      * exact Hlevel.
      * intros ch'. rewrite Hstash. by destruct ch'.
    + rewrite Hacc in Hout. done.
Qed.

Lemma Push_spec ch l group format a :
  stash ch (Push Sprintf ch l group format a) =
    <[group := buffer ch l group ++ [Sprintf format a]]> (stash ch l)
  /\ (forall ch', ch' <> ch -> stash ch' (Push Sprintf ch l group format a) = stash ch' l)
  /\ output (Push Sprintf ch l group format a) = output l
  /\ level (Push Sprintf ch l group format a) = level l.
Proof.
  unfold Push. split; [by rewrite stash_set_stash, decide_True |].
  split; [intros ch' Hne; by rewrite stash_set_stash, decide_False |].
  apply set_stash_frame.
Qed.

Lemma pushes_spec ch group entries l :
  let l' := pushes Sprintf ch l group entries in
  buffer ch l' group = buffer ch l group ++ map (fun entry => Sprintf entry.1 entry.2) entries
  /\ (forall group', group' <> group -> stash ch l' !! group' = stash ch l !! group')
  /\ (forall ch', ch' <> ch -> stash ch' l' = stash ch' l)
  /\ output l' = output l
  /\ level l' = level l.
Proof.
  revert l. induction entries as [| [format a] entries IH]; intros l; cbv zeta.
  - cbn. by rewrite app_nil_r.
  - change (pushes Sprintf ch l group ((format, a) :: entries))
      with (pushes Sprintf ch (Push Sprintf ch l group format a) group entries).
    destruct (IH (Push Sprintf ch l group format a)) as (Hbuf & Hgroups & Hchs & Hout & Hlvl).
    destruct (Push_spec ch l group format a) as (Hs & Hothers & Ho & Hl).
    split; [| split; [| split; [| split]]].
    + rewrite Hbuf. unfold buffer at 1. rewrite Hs, lookup_insert_eq. cbn.
      by rewrite <- app_assoc.
    + intros group' Hne. rewrite Hgroups by done. rewrite Hs. by rewrite lookup_insert_ne.
    + intros ch' Hne. rewrite Hchs by done. by apply Hothers.
    + by rewrite Hout.
    + by rewrite Hlvl.
Qed.

Lemma Pop_spec ch l group :
  output (Pop ch l group) =
    output l ++ (if AcceptLevel l (level_of ch)
                 then map (carry ch) (buffer ch l group) else [])
  /\ stash ch (Pop ch l group) = delete group (stash ch l)
  /\ (forall ch', ch' <> ch -> stash ch' (Pop ch l group) = stash ch' l)
  /\ level (Pop ch l group) = level l.
Proof.
  unfold Pop.
  destruct (log_all_spec ch (buffer ch l group) l) as (Hout & Hlvl & Hstash).
  destruct (set_stash_frame ch
              (delete group (stash ch (foldl (fun l msg => log_on ch l msg []) l
                                         (buffer ch l group))))
              (foldl (fun l msg => log_on ch l msg []) l (buffer ch l group)))
    as (Ho & Hl).
  split; [by rewrite Ho |]. split; [by rewrite stash_set_stash, decide_True, Hstash |].
  split; [intros ch' Hne; by rewrite stash_set_stash, decide_False, Hstash |].
  by rewrite Hl.
Qed.

Lemma emitted_spec l l' calls : output l' = output l ++ calls -> emitted l l' = calls.
Proof. intros E. unfold emitted. rewrite E. apply drop_app_length. Qed.

End LoggerFacts.

(** C9, as the specification words it, fails for the trace channel of a new
    logger: its level is info, so the pop of a group drops the trace messages
    instead of emitting them. *)
Lemma log_trace_pop_is_silent_at_info :
  ~ log.pop_emits_pushed examples.verbatim log.ChTrace log.NewLogboekLogger "group"
      [("rendering", [])].
Proof.
  intros [Hemitted _]. vm_compute in Hemitted. discriminate.
Qed.

(** C9, amended. On each of the five channels, after any run of pushes for a
    group, the group's buffer is what it was followed by the formatted
    messages in push order; a pop hands them to the channel's log method in
    that order, which passes each on to the backend, as a format string with a
    newline, when the logger's level accepts the channel's level and drops it
    otherwise; in both cases the pop removes the group, so a second pop emits
    nothing.  A push for one group leaves every other group of the channel and
    every other channel as they were. *)
Theorem log_pop_flushes_group {Any : Type} (Sprintf : string -> list Any -> string)
    (ch : log.Channel) (l : log.LogboekLogger Any) (group : string)
    (entries : list (string * list Any)) :
  let l1 := log.pushes Sprintf ch l group entries in
  let l2 := log.Pop ch l1 group in
  let messages :=
    log.buffer ch l group ++ map (fun entry => Sprintf entry.1 entry.2) entries in
  log.buffer ch l1 group = messages
  /\ log.emitted l1 l2 =
       (if log.AcceptLevel l (log.level_of ch) then map (log.carry ch) messages else [])
  /\ log.stash ch l2 !! group = None
  /\ log.emitted l2 (log.Pop ch l2 group) = []
  /\ (forall group', group' <> group ->
        log.stash ch l1 !! group' = log.stash ch l !! group')
  /\ (forall ch', ch' <> ch -> log.stash ch' l1 = log.stash ch' l).
Proof.
  intros l1 l2 messages.
  destruct (pushes_spec Sprintf ch group entries l) as (Hbuf & Hgroups & Hchs & Hout & Hlvl).
  fold l1 in Hbuf, Hgroups, Hchs, Hout, Hlvl.
  destruct (Pop_spec ch l1 group) as (Hpop & Hstash & _ & Hlvl2). fold l2 in Hpop, Hstash, Hlvl2.
  assert (log.AcceptLevel l1 (log.level_of ch) = log.AcceptLevel l (log.level_of ch)) as Hacc
    by (unfold log.AcceptLevel, log.Level'; by rewrite Hlvl).
  split; [exact Hbuf |]. split.
  { apply emitted_spec. rewrite Hpop, Hacc, Hbuf. done. }
  split; [rewrite Hstash; apply lookup_delete_eq |]. split.
  { apply emitted_spec. destruct (Pop_spec ch l2 group) as (Hpop2 & _).
    rewrite Hpop2. unfold log.buffer. rewrite Hstash, lookup_delete_eq. cbn.
    by destruct (log.AcceptLevel l2 (log.level_of ch)). }
  split; [exact Hgroups | exact Hchs].
Qed.

Lemma log_pop_flushes_group_witness :
  log.emitted
    (log.pushes examples.verbatim log.ChInfo log.NewLogboekLogger "group"
       [("first", []); ("second", [])])
    (log.Pop log.ChInfo
       (log.pushes examples.verbatim log.ChInfo log.NewLogboekLogger "group"
          [("first", []); ("second", [])]) "group")
  = [log.carry log.ChInfo "first"; log.carry log.ChInfo "second"]
  /\ log.stash log.ChInfo
       (log.pushes examples.verbatim log.ChInfo log.NewLogboekLogger "other"
          [("first", [])]) !! "group" = None.
Proof.
  split.
  - exact (proj1 (proj2 (log_pop_flushes_group examples.verbatim log.ChInfo
                           log.NewLogboekLogger "group" [("first", []); ("second", [])]))).
  - destruct (log_pop_flushes_group examples.verbatim log.ChInfo
                log.NewLogboekLogger "other" [("first", [])])
      as (_ & _ & _ & _ & Hgroups & _).
    rewrite (Hgroups "group"); [reflexivity | discriminate].
Defined.

(** * Further properties *)

(** ** The kube client facade: reads, failures and locality *)

Section KubeMore.
Context {World U : Type} {cluster : kube.Cluster World U}.
Import errors id kube.

Implicit Types (c : KubeClient World U) (resource : ResourceID).

Ltac facade_steps :=
  unfold perform, cacheGet, cacheSet, cacheDelete, mbind, mret, M_bind, M_ret; cbn.

Lemma resolveClient_error c resource e :
  resolutionError c resource = Some e -> resolveClient resource c = (inr e, c).
Proof.
  unfold resolutionError, resolveClient, resolveGVR, resolveNamespaced.
  unfold mbind, mret, M_bind, M_ret.
  destruct (GroupVersionResource _ _); [destruct (Namespaced _ _) |]; by intros [= <-].
Qed.

(** [Get] that goes to the cluster: one request, and its answer is cached. *)
Lemma Get_miss c resource gvr namespaced opts :
  GroupVersionResource (world c) resource = inl gvr ->
  Namespaced (world c) resource = inl namespaced ->
  (TryCache opts = false \/ clusterCache c !! VersionID resource = None) ->
  let target := clientResource gvr (Namespace resource) namespaced in
  let answer := (dynamicGet (world c) target (Name resource)).2 in
  let out := Get resource opts c in
  calls out.2 = calls c ++ [CallGet target (Name resource)]
  /\ out.1 = match answer with
             | inl resultObj => (Some resultObj, None)
             | inr e => (None, Some (Errorf "get resource %q: %w" [HumanID resource] e))
             end
  /\ clusterCache out.2 =
       <[VersionID resource :=
           match answer with
           | inl resultObj => {| obj := Some resultObj; err := None |}
           | inr e => {| obj := None; err := Some e |}
           end]> (clusterCache c).
Proof.
  intros Hgvr Hns Hmiss target answer out. subst out answer.
  assert (TryCache opts = true -> clusterCache c !! VersionID resource = None) as Hnone
    by (intros Ht; destruct Hmiss as [Hf | Hm]; [congruence | done]).
  unfold Get, resourceLock, mbind, M_bind. unfold cacheGet, mret, M_ret.
  destruct (TryCache opts); cbn; [rewrite Hnone by done |];
    (erewrite resolveClient_ok by eassumption); facade_steps; fold target;
    by destruct (dynamicGet _ _ _) as [w [resultObj | e]].
Qed.

End KubeMore.

(** X1. A [Get] that bypasses or misses the cache makes exactly one request,
    returns the cluster's answer and caches it, an error included; the next
    [Get] with [TryCache] returns the same object, or the same error, without
    a request. *)
Theorem kube_get_fills_the_cache {World U : Type} {cluster : kube.Cluster World U}
    (c : kube.KubeClient World U) (resource : id.ResourceID)
    (gvr : schema.GroupVersionResource) (namespaced : bool)
    (opts : kube.KubeClientGetOptions) :
  kube.GroupVersionResource (kube.world c) resource = inl gvr ->
  kube.Namespaced (kube.world c) resource = inl namespaced ->
  (kube.TryCache opts = false \/ kube.clusterCache c !! id.VersionID resource = None) ->
  let target := kube.clientResource gvr (id.Namespace resource) namespaced in
  let answer := (kube.dynamicGet (kube.world c) target (id.Name resource)).2 in
  let out := kube.Get resource opts c in
  let again := kube.Get resource {| kube.TryCache := true |} out.2 in
  kube.fresh_calls c out.2 = [kube.CallGet target (id.Name resource)]
  /\ kube.fresh_calls out.2 again.2 = []
  /\ match answer with
     | inl resultObj =>
         out.1 = (Some resultObj, None) /\ again.1 = (Some resultObj, None)
     | inr e =>
         out.1 = (None, Some (errors.Errorf "get resource %q: %w" [id.HumanID resource] e))
         /\ again.1 = (None, Some (errors.Errorf "get resource %q from client cache: %w"
                                     [id.HumanID resource] e))
     end.
Proof.
  intros Hgvr Hns Hmiss target answer out again.
  destruct (Get_miss c resource gvr namespaced opts Hgvr Hns Hmiss)
    as (Hcalls & Hout & Hcache).
  fold target answer out in Hcalls, Hout, Hcache.
  assert (kube.clusterCache out.2 !! id.VersionID resource =
            Some match answer with
                 | inl resultObj => {| kube.obj := Some resultObj; kube.err := None |}
                 | inr e => {| kube.obj := None; kube.err := Some e |}
                 end) as Hentry by (rewrite Hcache; apply lookup_insert_eq).
  destruct (Get_hit out.2 resource _ Hentry) as (Hagain & Hcalls2 & _).
  fold again in Hagain, Hcalls2.
  split; [by apply fresh_calls_more |]. split; [by apply fresh_calls_same |].
  rewrite Hout, Hagain. by destruct answer.
Qed.

Lemma kube_get_fills_the_cache_witness :
  let out := kube.Get (cluster := examples.demoCluster) examples.gone
               {| kube.TryCache := true |} examples.client0 in
  let again := kube.Get (cluster := examples.demoCluster) examples.gone
                 {| kube.TryCache := true |} out.2 in
  kube.fresh_calls out.2 again.2 = []
  /\ again.1 = (None, Some (errors.Errorf "get resource %q from client cache: %w"
                              ["app/ConfigMap/gone"] examples.notFound)).
Proof.
  intros out again.
  destruct (kube_get_fills_the_cache (cluster := examples.demoCluster) examples.client0
              examples.gone examples.configMaps true {| kube.TryCache := true |}
              eq_refl eq_refl (or_intror eq_refl)) as (_ & Hquiet & Hanswer).
  split; [exact Hquiet | exact (proj2 Hanswer)].
Defined.

(** X2. When the mapper cannot resolve the resource, every method that has to
    go to the cluster returns the resolution error, makes no call at all and
    leaves the cache and the collaborators as they were. *)
Theorem kube_unresolved_resource_is_untouched {World U : Type}
    {cluster : kube.Cluster World U}
    (c : kube.KubeClient World U) (resource : id.ResourceID) (m : kube.Method)
    (e : errors.error) :
  kube.resolutionError c resource = Some e ->
  match m with
  | kube.MGet opts =>
      kube.TryCache opts = false \/ kube.clusterCache c !! id.VersionID resource = None
  | _ => True
  end ->
  (kube.invoke resource m c).1 = (None, Some e)
  /\ kube.fresh_calls c (kube.invoke resource m c).2 = []
  /\ kube.clusterCache (kube.invoke resource m c).2 = kube.clusterCache c
  /\ kube.world (kube.invoke resource m c).2 = kube.world c.
Proof.
  intros Hres Hmiss.
  destruct m as [opts | unstruct opts | unstruct opts | patch | opts]; cbn;
    unfold kube.Get, kube.Create, kube.Apply, kube.MergePatch, kube.Delete,
      kube.resourceLock, mbind, kube.M_bind;
    [| erewrite resolveClient_error by (cbn; eassumption); cbn;
       (split; [done |]); (split; [by apply fresh_calls_same | done]) ..].
  assert (kube.TryCache opts = true ->
          kube.clusterCache c !! id.VersionID resource = None) as Hnone
    by (intros Ht; destruct Hmiss as [Hf | Hm]; [congruence | done]).
  unfold kube.cacheGet, mret, kube.M_ret.
  destruct (kube.TryCache opts); cbn; [rewrite Hnone by done |];
    (erewrite resolveClient_error by (cbn; eassumption)); cbn;
    (split; [done |]); (split; [by apply fresh_calls_same | done]).
Qed.

Lemma kube_unresolved_resource_is_untouched_witness :
  let broken : kube.Cluster nat string :=
    {| kube.GroupVersionResource := fun _ _ => inr (errors.Sentinel "no match");
       kube.Namespaced := fun _ _ => inl true;
       kube.dynamicGet := fun w _ _ => (S w, inl "never");
       kube.dynamicApply := fun w _ _ obj _ => (S w, inl obj);
       kube.dynamicPatch := fun w _ _ _ _ _ => (S w, inl "never");
       kube.dynamicDelete := fun w _ _ _ => (S w, None);
       kube.mapperReset := fun w => w;
       kube.SetReplicas := fun u _ => u |} in
  (kube.invoke (cluster := broken) examples.cfg
     (kube.MDelete {| kube.PropagationPolicy := None |}) examples.client0).1
  = (None, Some (errors.Errorf "get GroupVersionResource: %w" []
                   (errors.Sentinel "no match"))).
Proof.
  intros broken.
  apply (kube_unresolved_resource_is_untouched (cluster := broken) examples.client0
           examples.cfg (kube.MDelete {| kube.PropagationPolicy := None |}));
    [reflexivity | exact I].
Defined.

(** X3. A [Create], an [Apply] without dry run or a [MergePatch] that fails
    after asking the cluster leaves the cluster's error in the cache, in
    place of whatever was cached: the next [Get] with [TryCache] fails with
    that error and asks nothing. *)
Theorem kube_failed_write_is_cached {World U : Type} {cluster : kube.Cluster World U}
    (c c1 : kube.KubeClient World U) (resource : id.ResourceID) (m : kube.Mutation)
    (result : option U) (failure : errors.error) :
  kube.mutate resource m c = (result, Some failure, c1) ->
  kube.fresh_calls c c1 <> [] ->
  exists format operands e,
    failure = errors.Errorf format operands e
    /\ result = None
    /\ kube.clusterCache c1 !! id.VersionID resource =
         Some {| kube.obj := None; kube.err := Some e |}
    /\ (kube.Get resource {| kube.TryCache := true |} c1).1 =
         (None, Some (errors.Errorf "get resource %q from client cache: %w"
                        [id.HumanID resource] e))
    /\ kube.fresh_calls c1 (kube.Get resource {| kube.TryCache := true |} c1).2 = [].
Proof.
  intros Hrun Hasked.
  assert (exists format operands e,
            failure = errors.Errorf format operands e /\ result = None
            /\ kube.clusterCache c1 !! id.VersionID resource =
                 Some {| kube.obj := None; kube.err := Some e |})
    as (format & operands & e & -> & -> & Hentry).
  { destruct m as [unstruct opts | unstruct | patch]; cbn in Hrun;
      unfold kube.Create, kube.Apply, kube.MergePatch, kube.resolveClient, kube.resolveGVR,
        kube.resolveNamespaced, kube.perform, kube.cacheSet, kube.resourceLock in Hrun;
      unfold mbind, mret, kube.M_bind, kube.M_ret in Hrun; cbn in Hrun;
      repeat case_match; simplify_eq/=;
      try (exfalso; apply Hasked; by apply fresh_calls_same);
      do 3 eexists; (split; [reflexivity |]); (split; [reflexivity |]);
      by rewrite lookup_insert_eq. }
  destruct (Get_hit c1 resource _ Hentry) as (Hr & Hc & _).
  exists format, operands, e. repeat split; try done. by apply fresh_calls_same.
Qed.

Lemma kube_failed_write_is_cached_witness :
  let refusing : kube.Cluster nat string :=
    {| kube.GroupVersionResource := fun _ _ => inl examples.configMaps;
       kube.Namespaced := fun _ _ => inl true;
       kube.dynamicGet := fun w _ name => (S w, inl name);
       kube.dynamicApply := fun w _ _ _ _ => (S w, inr (errors.APIStatus "Conflict" 409 "conflict"));
       kube.dynamicPatch := fun w _ _ _ _ _ => (S w, inl "never");
       kube.dynamicDelete := fun w _ _ _ => (S w, None);
       kube.mapperReset := fun w => w;
       kube.SetReplicas := fun u _ => u |} in
  let c1 := (kube.mutate (cluster := refusing) examples.cfg (kube.ByApply "v2")
               examples.client0).2 in
  exists format operands e,
    errors.Errorf "server-side %sapply resource %q: %w" [EmptyString; "app/ConfigMap/cfg"]
      (errors.APIStatus "Conflict" 409 "conflict") = errors.Errorf format operands e
    /\ (kube.Get (cluster := refusing) examples.cfg {| kube.TryCache := true |} c1).1 =
         (None, Some (errors.Errorf "get resource %q from client cache: %w"
                        [id.HumanID examples.cfg] e)).
Proof.
  intros refusing c1.
  destruct (kube_failed_write_is_cached (cluster := refusing) examples.client0 c1
              examples.cfg (kube.ByApply "v2") None
              (errors.Errorf "server-side %sapply resource %q: %w"
                 [EmptyString; "app/ConfigMap/cfg"]
                 (errors.APIStatus "Conflict" 409 "conflict")))
    as (format & operands & e & Hf & _ & _ & Hget & _);
    [reflexivity | vm_compute; discriminate |].
  exists format, operands, e. split; [exact Hf | exact Hget].
Defined.

(** X4. What [Delete] means for later cached reads of a resource that has a
    cache entry: when the cluster carried the deletion out the entry is gone,
    so the next [Get] with [TryCache] asks the cluster again; when the cluster
    reported NotFound, or any other error, the entry stays and the next [Get]
    with [TryCache] still serves it without a request. *)
Theorem kube_delete_and_later_reads {World U : Type} {cluster : kube.Cluster World U}
    (c : kube.KubeClient World U) (resource : id.ResourceID)
    (gvr : schema.GroupVersionResource) (namespaced : bool)
    (opts : kube.KubeClientDeleteOptions) (entry : kube.clusterCacheEntry U) :
  kube.GroupVersionResource (kube.world c) resource = inl gvr ->
  kube.Namespaced (kube.world c) resource = inl namespaced ->
  kube.clusterCache c !! id.VersionID resource = Some entry ->
  let target := kube.clientResource gvr (id.Namespace resource) namespaced in
  let out := kube.Delete resource opts c in
  let again := kube.Get resource {| kube.TryCache := true |} out.2 in
  match (kube.dynamicDelete (kube.world c) target (id.Name resource)
           (kube.sentPolicy opts)).2 with
  | None =>
      kube.clusterCache out.2 !! id.VersionID resource = None
      /\ forall gvr' namespaced',
           kube.GroupVersionResource (kube.world out.2) resource = inl gvr' ->
           kube.Namespaced (kube.world out.2) resource = inl namespaced' ->
           kube.fresh_calls out.2 again.2 =
             [kube.CallGet (kube.clientResource gvr' (id.Namespace resource) namespaced')
                (id.Name resource)]
  | Some e =>
      kube.fresh_calls out.2 again.2 = []
      /\ again.1 = match kube.err entry with
                   | Some cached =>
                       (None, Some (errors.Errorf "get resource %q from client cache: %w"
                                      [id.HumanID resource] cached))
                   | None => (kube.obj entry, None)
                   end
  end.
Proof.
  intros Hgvr Hns Hentry target out again.
  assert (match (kube.dynamicDelete (kube.world c) target (id.Name resource)
                   (kube.sentPolicy opts)).2 with
          | None => kube.clusterCache out.2 = delete (id.VersionID resource) (kube.clusterCache c)
          | Some _ => kube.clusterCache out.2 = kube.clusterCache c
          end) as Hcache.
  { subst out. unfold kube.Delete, kube.resourceLock, mbind, kube.M_bind.
    erewrite resolveClient_ok by eassumption.
    unfold kube.perform, kube.cacheDelete, mbind, mret, kube.M_bind, kube.M_ret; cbn.
    fold target. unfold kube.sentPolicy.
    replace (match kube.PropagationPolicy opts with
             | Some policy => Some policy
             | None => Some kube.DeletePropagationForeground
             end)
      with (Some (default kube.DeletePropagationForeground (kube.PropagationPolicy opts)))
      by (by destruct (kube.PropagationPolicy opts)).
    destruct (kube.dynamicDelete _ _ _ _) as [w [e |]]; cbn; [| done].
    by destruct (errors.IsNotFound e). }
  destruct ((kube.dynamicDelete _ _ _ _).2) as [e |].
  - assert (kube.clusterCache out.2 !! id.VersionID resource = Some entry) as Hstill
      by (by rewrite Hcache).
    destruct (Get_hit out.2 resource entry Hstill) as (Hr & Hc & _).
    split; [by apply fresh_calls_same | exact Hr].
  - assert (kube.clusterCache out.2 !! id.VersionID resource = None) as Hgone
      by (rewrite Hcache; apply lookup_delete_eq).
    split; [exact Hgone |]. intros gvr' namespaced' Hgvr' Hns'.
    destruct (Get_miss out.2 resource gvr' namespaced' {| kube.TryCache := true |}
                Hgvr' Hns' (or_intror Hgone)) as (Hcalls & _).
    by apply fresh_calls_more.
Qed.

Lemma kube_delete_and_later_reads_witness :
  let c := (kube.mutate (cluster := examples.demoCluster) examples.gone
              (kube.ByApply "v1") examples.client0).2 in
  let out := kube.Delete (cluster := examples.demoCluster) examples.gone
               {| kube.PropagationPolicy := None |} c in
  (kube.Get (cluster := examples.demoCluster) examples.gone
     {| kube.TryCache := true |} out.2).1 = (Some "v1", None).
Proof.
  intros c out.
  pose proof (kube_delete_and_later_reads (cluster := examples.demoCluster) c examples.gone
                examples.configMaps true {| kube.PropagationPolicy := None |}
                {| kube.obj := Some "v1"; kube.err := None |}
                eq_refl eq_refl eq_refl) as H.
  exact (proj2 H).
Defined.

(** X5. Every call of the facade is local to its resource: it files the
    resource's [VersionID] in the lock map and removes no key, it leaves the
    cache entry of every other [VersionID] as it was, it only appends to the
    log of calls, and it sends at most one request to the cluster. *)
Theorem kube_calls_are_local {World U : Type} {cluster : kube.Cluster World U}
    (c : kube.KubeClient World U) (resource : id.ResourceID) (m : kube.Method) :
  kube.resourceLocks (kube.invoke resource m c).2 =
    {[id.VersionID resource]} ∪ kube.resourceLocks c
  /\ (forall other, other <> id.VersionID resource ->
        kube.clusterCache (kube.invoke resource m c).2 !! other = kube.clusterCache c !! other)
  /\ exists new,
       kube.calls (kube.invoke resource m c).2 = kube.calls c ++ new
       /\ length (filter (fun call => kube.is_rpc call = true) new) <= 1.
Proof.
  destruct m as [opts | unstruct opts | unstruct opts | patch | opts]; cbn;
    unfold kube.Get, kube.Create, kube.Apply, kube.MergePatch, kube.Delete,
      kube.resolveClient, kube.resolveGVR, kube.resolveNamespaced, kube.perform,
      kube.cacheGet, kube.cacheSet, kube.cacheDelete, kube.resourceLock;
    unfold mbind, mret, kube.M_bind, kube.M_ret; cbn;
    repeat case_match; simplify_eq/=;
    (split; [reflexivity |]);
    (split;
     [intros other Hne; rewrite ?lookup_insert_ne, ?lookup_delete_ne by done; reflexivity |]);
    first
      [ exists []; split; [by rewrite app_nil_r | cbn; lia]
      | eexists [_]; split; [reflexivity | vm_compute; lia]
      | eexists [_; _]; split; [by rewrite <- app_assoc | vm_compute; lia] ].
Qed.

(** ** The release model: outcome and history *)

Section ReleaseMore.
Import release.

Lemma transition_identity now t r :
  name (transition now t r) = name r
  /\ namespace (transition now t r) = namespace r
  /\ revision (transition now t r) = revision r
  /\ appVersion (transition now t r) = appVersion r
  /\ chartName (transition now t r) = chartName r
  /\ chartVersion (transition now t r) = chartVersion r
  /\ notes (transition now t r) = notes r.
Proof.
  destruct t as [deployType | | | |]; cbn; try done.
  unfold Pend. destruct deployType; cbn; by destruct (IsZero (firstDeployed r)).
Qed.

Lemma transition_firstDeployed now t r :
  IsZero (firstDeployed r) = false ->
  firstDeployed (transition now t r) = firstDeployed r.
Proof.
  intros Hnz. destruct t as [deployType | | | |]; cbn; try done.
  unfold Pend. destruct deployType; cbn; by rewrite Hnz.
Qed.

Lemma transition_lastDeployed now t r :
  lastDeployed (transition now t r) =
    match t with
    | DoPend _ => now
    | _ => lastDeployed r
    end.
Proof. destruct t as [deployType | | | |]; cbn; done. Qed.

Lemma lastPend_from steps found :
  foldl (fun found step =>
           match step.2 with
           | DoPend _ => Some step.1
           | _ => found
           end) found steps
  = match lastPend steps with
    | Some t => Some t
    | None => found
    end.
Proof.
  unfold lastPend. revert found. induction steps as [| [now t] steps IH]; intros found; [done |].
  cbn. rewrite IH. rewrite (IH (match t with DoPend _ => Some now | _ => None end)).
  destruct (foldl _ None steps); [done |]. by destruct t.
Qed.

End ReleaseMore.

(** X6. [Succeeded] and [Failed] never hold together, whatever the status
    string.  A release is failed right after [Pend] and after [Fail], and
    succeeded after [Succeed] and after [Supersede]; so a revision that was
    pended and never closed reads as failed. *)
Theorem release_outcome_is_exclusive (r : release.Release) (now : release.Time)
    (deployType : release.DeployType) :
  ~ (release.Succeeded r = true /\ release.Failed r = true)
  /\ release.Failed (release.Pend now deployType r) = true
  /\ release.Succeeded (release.Pend now deployType r) = false
  /\ release.Failed (release.Fail r) = true
  /\ release.Succeeded (release.Succeed r) = true
  /\ release.Failed (release.Succeed r) = false
  /\ release.Succeeded (release.Supersede r) = true
  /\ release.Failed (release.Supersede r) = false.
Proof.
  split.
  - intros [Hs Hf]. apply Succeeded_spec in Hs. apply Failed_spec in Hf.
    repeat (apply elem_of_cons in Hs as [Hs | Hs];
            [rewrite Hs in Hf;
             repeat (apply elem_of_cons in Hf as [Hf | Hf]; [discriminate |]);
             by apply elem_of_nil in Hf |]).
    by apply elem_of_nil in Hs.
  - unfold release.Pend.
    destruct deployType; cbn; destruct (release.IsZero (release.firstDeployed r)); done.
Qed.

(** X7. Over any history of transitions: the identity of the release (name,
    namespace, revision) and its chart data and notes never change; a
    [firstDeployed] that is set is never overwritten; and [lastDeployed] is the
    clock reading of the last [Pend] of the history, or what it was when the
    history has no [Pend]. *)
Theorem release_history_keeps_first_deployed
    (steps : list (release.Time * release.Transition)) (r : release.Release) :
  release.name (release.transitions steps r) = release.name r
  /\ release.namespace (release.transitions steps r) = release.namespace r
  /\ release.revision (release.transitions steps r) = release.revision r
  /\ release.notes (release.transitions steps r) = release.notes r
  /\ (release.IsZero (release.firstDeployed r) = false ->
      release.firstDeployed (release.transitions steps r) = release.firstDeployed r)
  /\ release.lastDeployed (release.transitions steps r) =
       default (release.lastDeployed r) (release.lastPend steps).
Proof.
  revert r. induction steps as [| [now t] steps IH]; intros r; [done |].
  change (release.transitions ((now, t) :: steps) r)
    with (release.transitions steps (release.transition now t r)).
  destruct (IH (release.transition now t r)) as (Hn & Hns & Hrev & Hnotes & Hfirst & Hlast).
  destruct (transition_identity now t r) as (Tn & Tns & Trev & _ & _ & _ & Tnotes).
  split; [congruence |]. split; [congruence |]. split; [congruence |].
  split; [congruence |]. split.
  - intros Hnz. rewrite Hfirst; rewrite transition_firstDeployed; done.
  - rewrite Hlast, transition_lastDeployed.
    assert (release.lastPend ((now, t) :: steps) =
              match release.lastPend steps with
              | Some found => Some found
              | None => match t with release.DoPend _ => Some now | _ => None end
              end) as -> by (unfold release.lastPend at 1; cbn; apply lastPend_from).
    destruct (release.lastPend steps); [done |]. by destruct t.
Qed.

Lemma release_history_keeps_first_deployed_witness :
  release.firstDeployed
    (release.transitions
       [(3%Z, release.DoPend release.DeployTypeInstall); (4%Z, release.DoFail);
        (9%Z, release.DoPend release.DeployTypeUpgrade); (10%Z, release.DoSucceed)]
       release.fresh) = 3%Z.
Proof.
  change (release.transitions
            [(3%Z, release.DoPend release.DeployTypeInstall); (4%Z, release.DoFail);
             (9%Z, release.DoPend release.DeployTypeUpgrade); (10%Z, release.DoSucceed)]
            release.fresh)
    with (release.transitions
            [(4%Z, release.DoFail);
             (9%Z, release.DoPend release.DeployTypeUpgrade); (10%Z, release.DoSucceed)]
            (release.Pend 3%Z release.DeployTypeInstall release.fresh)).
  rewrite (proj1 (proj2 (proj2 (proj2 (proj2
             (release_history_keeps_first_deployed
                [(4%Z, release.DoFail);
                 (9%Z, release.DoPend release.DeployTypeUpgrade); (10%Z, release.DoSucceed)]
                (release.Pend 3%Z release.DeployTypeInstall release.fresh)))))));
    reflexivity.
Defined.

(** ** The apply operation *)

Section ApplyOperationFacts.
Context {World U : Type} {cluster : kube.Cluster World U}.
Import errors id kube.

(** An [Apply] without dry run that returns no error returns an object. *)
Lemma Apply_success_has_object (c : KubeClient World U) resource unstruct :
  (Apply resource unstruct {| DryRun := false |} c).1.2 = None ->
  exists resultObj,
    (Apply resource unstruct {| DryRun := false |} c).1 = (Some resultObj, None).
Proof.
  unfold Apply, resolveClient, resolveGVR, resolveNamespaced, perform, cacheSet, resourceLock.
  unfold mbind, mret, M_bind, M_ret. cbn.
  repeat case_match; simplify_eq/=; try done; eauto.
Qed.

End ApplyOperationFacts.

(** X8. [Execute] of an apply operation runs one [Apply] without dry run and
    settles the status: completed when the apply returned no error, failed
    (with the error wrapped) otherwise, never unknown; the identifier and the
    kind of the operation stay the same.  After a completed [Execute] a [Get]
    with [TryCache] of the resource returns an object without a request. *)
Theorem operation_execute_settles_status {World U : Type} {cluster : kube.Cluster World U}
    (o : operation.ApplyResourceOperation U) (c : kube.KubeClient World U) :
  let applied :=
    kube.Apply (operation.resource o) (operation.unstruct o) {| kube.DryRun := false |} c in
  let out := operation.ApplyResourceOperation_Execute o c in
  out.2 = applied.2
  /\ out.1.2 = match applied.1.2 with
               | Some e => Some (errors.Errorf "error applying resource: %w" [] e)
               | None => None
               end
  /\ operation.ApplyResourceOperation_Status out.1.1 =
       match out.1.2 with
       | Some _ => operation.StatusFailed
       | None => operation.StatusCompleted
       end
  /\ operation.ApplyResourceOperation_ID out.1.1 = operation.ApplyResourceOperation_ID o
  /\ operation.ApplyResourceOperation_Type out.1.1 = operation.ApplyResourceOperation_Type o
  /\ (out.1.2 = None ->
      exists resultObj,
        (kube.Get (operation.resource o) {| kube.TryCache := true |} out.2).1
          = (Some resultObj, None)
        /\ kube.fresh_calls out.2
             (kube.Get (operation.resource o) {| kube.TryCache := true |} out.2).2 = []).
Proof.
  intros applied out.
  assert (out = match applied.1.2 with
                | Some e =>
                    (operation.ApplyResourceOperation_set_status operation.StatusFailed o,
                     Some (errors.Errorf "error applying resource: %w" [] e), applied.2)
                | None =>
                    (operation.ApplyResourceOperation_set_status operation.StatusCompleted o,
                     None, applied.2)
                end) as Hout.
  { subst out applied. unfold operation.ApplyResourceOperation_Execute.
    unfold mbind, mret, kube.M_bind, kube.M_ret.
    destruct (kube.Apply _ _ _ c) as [[resultObj e] c1]. cbn. by destruct e. }
  destruct (applied.1.2) as [e |] eqn:Herr; rewrite Hout; cbn.
  - repeat split; done.
  - repeat split; try done. intros _.
    destruct (Apply_success_has_object c (operation.resource o) (operation.unstruct o) Herr)
      as [resultObj Hobj].
    assert (kube.mutate (operation.resource o) (kube.ByApply (operation.unstruct o)) c
            = (Some resultObj, None, applied.2)) as Hrun.
    { cbn. fold applied. fold applied in Hobj. destruct applied as [r c1]. cbn in *.
      by subst. }
    pose proof (mutate_caches _ _ _ _ _ Hrun) as Hentry.
    destruct (Get_hit applied.2 (operation.resource o) _ Hentry) as (Hr & Hc & _).
    exists resultObj. split; [exact Hr | by apply fresh_calls_same].
Qed.

Lemma operation_execute_settles_status_witness :
  let out := operation.ApplyResourceOperation_Execute (cluster := examples.demoCluster)
               examples.applyCfg examples.client0 in
  exists resultObj,
    (kube.Get (cluster := examples.demoCluster) examples.cfg
       {| kube.TryCache := true |} out.2).1 = (Some resultObj, None).
Proof.
  intros out.
  destruct (operation_execute_settles_status (cluster := examples.demoCluster)
              examples.applyCfg examples.client0) as (_ & _ & _ & _ & _ & Hget).
  destruct (Hget eq_refl) as (resultObj & Hr & _). by exists resultObj.
Defined.

(** X9. Two apply operations have the same identifier exactly when they agree
    on [extraPost] and their resources have the same identifier; so the
    operation and its extra-post counterpart for one resource are distinct
    vertices of a plan, and a second apply operation for the same resource is
    the same vertex. *)
Theorem operation_apply_identifier {U : Type} (o1 o2 : operation.ApplyResourceOperation U) :
  operation.ApplyResourceOperation_ID o1 = operation.ApplyResourceOperation_ID o2
  <-> (operation.extraPost o1 = operation.extraPost o2
       /\ id.ID (operation.resource o1) = id.ID (operation.resource o2)).
Proof.
  unfold operation.ApplyResourceOperation_ID, operation.TypeApplyResourceOperation,
    operation.TypeExtraPostApplyResourceOperation.
  destruct (operation.extraPost o1), (operation.extraPost o2); cbn;
    (split; [intros H | intros [He Hid]]);
    first [discriminate | by injection H | by rewrite Hid].
Qed.

(** ** The plan: queries, insertion and dependencies *)


(** X10. For a plan none of whose vertex identifiers is changed by
    formatting, the three queries by status return without error and split
    the operations of the plan: every operation of the graph is in exactly one
    of [CompletedOperations], [FailedOperations] and [CanceledOperations], and
    each list holds nothing else. *)
Theorem plan_status_queries_partition {U Any : Type}
    (Sprintf : string -> list Any -> string) (p : plan.Plan U) :
  plan.plain_keys Sprintf p ->
  exists completed failed canceled,
    plan.CompletedOperations Sprintf p = Some (completed, plan.nonempty completed, None)
    /\ plan.FailedOperations Sprintf p = Some (failed, plan.nonempty failed, None)
    /\ plan.CanceledOperations Sprintf p = Some (canceled, plan.nonempty canceled, None)
    /\ forall op : operation.Operation U,
         (plan.is_vertex p op <-> (op ∈ completed \/ op ∈ failed \/ op ∈ canceled))
         /\ ~ (op ∈ completed /\ op ∈ failed)
         /\ ~ (op ∈ completed /\ op ∈ canceled)
         /\ ~ (op ∈ failed /\ op ∈ canceled).
Proof.
  intros Hplain.
  destruct (operationsWithStatus_spec Sprintf operation.StatusCompleted p Hplain)
    as (completed & Hc & Hcin).
  destruct (operationsWithStatus_spec Sprintf operation.StatusFailed p Hplain)
    as (failed & Hf & Hfin).
  destruct (operationsWithStatus_spec Sprintf operation.StatusUnknown p Hplain)
    as (canceled & Hx & Hxin).
  exists completed, failed, canceled.
  split; [exact Hc |]. split; [exact Hf |]. split; [exact Hx |].
  intros op. rewrite Hcin, Hfin, Hxin. split; [| split; [| split]].
  - split; [| tauto]. intros Hv. destruct (operation.Status' op); tauto.
  - intros [[_ H1] [_ H2]]. congruence.
  - intros [[_ H1] [_ H2]]. congruence.
  - intros [[_ H1] [_ H2]]. congruence.
Qed.

Lemma plan_status_queries_partition_witness :
  plan.plain_keys examples.Sprintf examples.trackerPlan
  /\ plan.FailedOperations examples.Sprintf examples.trackerPlan
     = Some ([examples.failedTracker], true, None)
  /\ plan.CanceledOperations examples.Sprintf examples.trackerPlan
     = Some ([], false, None).
Proof.
  assert (plan.plain_keys examples.Sprintf examples.trackerPlan) as Hplain
    by (apply (bool_decide_unpack _); vm_compute; reflexivity).
  split; [exact Hplain |].
  destruct (plan_status_queries_partition examples.Sprintf examples.trackerPlan Hplain)
    as (completed & failed & canceled & _ & Hf & Hx & _).
  split.
  - rewrite Hf. vm_compute in Hf. by injection Hf as <- _.
  - rewrite Hx. vm_compute in Hx. by injection Hx as <- _.
Defined.

(** X11. For a plan none of whose vertex identifiers is changed by
    formatting, [Useless] returns without error, and it answers [true]
    exactly when every operation of the plan whose kind is one of those it
    looks at (the kinds that change a resource, the trackers and
    fail-release) is empty; stage markers and the other release operations do
    not count. *)
Theorem plan_useless_exactly {U Any : Type} (Sprintf : string -> list Any -> string)
    (p : plan.Plan U) :
  plan.plain_keys Sprintf p ->
  exists answer,
    plan.Useless Sprintf p = Some (answer, None)
    /\ (answer = true <->
        forall op : operation.Operation U,
          plan.is_vertex p op ->
          operation.Type' op ∈ plan.useless_kinds ->
          operation.Empty op = true).
Proof.
  intros Hplain. destruct (Operations_spec Sprintf p Hplain) as (ops & Hops & Hin).
  unfold plan.Useless. rewrite Hops. cbn.
  destruct (plan.nonempty ops) eqn:Hne; cbn.
  - eexists. split; [done |]. rewrite Useless_loop_true. split.
    + intros Hall op Hv. apply Hall. by apply Hin.
    + intros Hall op Hv. apply Hall. by apply Hin.
  - exists true. split; [done |]. split; [| done]. intros _ op Hv.
    apply nonempty_false in Hne. subst. apply Hin in Hv. by apply elem_of_nil in Hv.
Qed.

Lemma plan_useless_exactly_witness :
  plan.plain_keys examples.Sprintf examples.stagedPlan
  /\ plan.Useless examples.Sprintf examples.stagedPlan = Some (true, None).
Proof.
  assert (plan.plain_keys examples.Sprintf examples.stagedPlan) as Hplain
    by (apply (bool_decide_unpack _); vm_compute; reflexivity).
  split; [exact Hplain |].
  destruct (plan_useless_exactly examples.Sprintf examples.stagedPlan Hplain)
    as (answer & Hrun & _).
  rewrite Hrun. vm_compute in Hrun. by injection Hrun as <-.
Defined.

(** X12. [AddOperation] never panics and inserts by identifier: a vertex that
    is already filed under the identifier stays (the plan is unchanged and
    the operation offered is dropped), otherwise the operation is filed; the
    edges and every other vertex are as before, and offering any operation
    with the same identifier again changes nothing. *)
Theorem plan_add_operation_first_wins {U : Type} (p : plan.Plan U)
    (op : operation.Operation U) :
  graph.hash (plan.graph p) = operation.ID ->
  exists p',
    plan.AddOperation p op = Some p'
    /\ graph.edges (plan.graph p') = graph.edges (plan.graph p)
    /\ graph.vertices (plan.graph p') !! operation.ID op =
         Some (default op (graph.vertices (plan.graph p) !! operation.ID op))
    /\ (forall key, key <> operation.ID op ->
          graph.vertices (plan.graph p') !! key = graph.vertices (plan.graph p) !! key)
    /\ (is_Some (graph.vertices (plan.graph p) !! operation.ID op) -> p' = p)
    /\ (forall again, operation.ID again = operation.ID op ->
          plan.AddOperation p' again = Some p').
Proof.
  intros Hhash. rewrite AddOperation_spec. eexists. split; [done |]. cbn.
  destruct (AddVertex_frame (plan.graph p) op) as (Hh & Ht & He).
  split; [done |]. split; [by rewrite AddVertex_lookup, Hhash, decide_True |].
  split; [intros key Hne; by rewrite AddVertex_lookup, Hhash, decide_False |]. split.
  - intros [v Hv]. unfold graph.AddVertex. rewrite Hhash, Hv. cbn. apply plan_eta.
  - intros again Hid. rewrite AddOperation_spec. cbn. f_equal. f_equal.
    unfold graph.AddVertex at 1. rewrite Hh, Hhash, Hid.
    rewrite AddVertex_lookup, Hhash, decide_True by done. done.
Qed.

Lemma plan_add_operation_first_wins_witness :
  plan.AddOperation examples.stagedPlan
    (operation.OfOther
       {| operation.other_ID := "stage/install";
          operation.other_HumanID := "impostor";
          operation.other_Type := operation.TypeDeleteResourceOperation;
          operation.other_Status := operation.StatusUnknown;
          operation.other_Empty := false |})
  = Some examples.stagedPlan.
Proof.
  destruct (plan_add_operation_first_wins examples.stagedPlan
              (operation.OfOther
                 {| operation.other_ID := "stage/install";
                    operation.other_HumanID := "impostor";
                    operation.other_Type := operation.TypeDeleteResourceOperation;
                    operation.other_Status := operation.StatusUnknown;
                    operation.other_Empty := false |}) eq_refl)
    as (p' & Hrun & _ & _ & _ & Hsame & _).
  rewrite Hrun. f_equal. apply Hsame. vm_compute. eauto.
Defined.

(** X13. [AddDependency] on a plan whose graph prevents cycles and has none:
    with an endpoint that is not a vertex it returns an error around the
    library's vertex-not-found and leaves the plan; between two vertices it
    returns an error around the cycle error and leaves the plan when the
    target already leads to the source (the two being equal included), and
    otherwise returns [nil] with exactly the edge added, and the plan is still
    guarded. *)
Theorem plan_add_dependency_cases {U : Type} (p : plan.Plan U) (a b : string) :
  plan.guarded p ->
  ((graph.vertices (plan.graph p) !! a = None \/ graph.vertices (plan.graph p) !! b = None) ->
   exists e, plan.AddDependency p a b = (p, Some e)
             /\ errors.Is e graph.ErrVertexNotFound = true)
  /\ (is_Some (graph.vertices (plan.graph p) !! a) ->
      is_Some (graph.vertices (plan.graph p) !! b) ->
      rtc (graph.edge (plan.graph p)) b a ->
      exists e, plan.AddDependency p a b = (p, Some e)
                /\ errors.Is e graph.ErrEdgeCreatesCycle = true)
  /\ (is_Some (graph.vertices (plan.graph p) !! a) ->
      is_Some (graph.vertices (plan.graph p) !! b) ->
      ~ rtc (graph.edge (plan.graph p)) b a ->
      exists p',
        plan.AddDependency p a b = (p', None)
        /\ graph.edges (plan.graph p') = {[(a, b)]} ∪ graph.edges (plan.graph p)
        /\ graph.vertices (plan.graph p') = graph.vertices (plan.graph p)
        /\ plan.guarded p').
Proof.
  intros Hg. split; [| split].
  - intros Hmissing. unfold plan.AddDependency, graph.AddEdge.
    destruct (graph.vertices (plan.graph p) !! a) eqn:Ha.
    + destruct Hmissing as [? | Hb]; [done |]. rewrite Hb. cbn.
      rewrite plan_eta. eexists. split; [done |]. done.
    + cbn. rewrite plan_eta. eexists. split; [done |]. done.
  - intros Ha Hb Hpath. destruct Hg as [Ht Hac].
    rewrite AddDependency_cycle; [eexists; split; done | done | done | done | | done].
    intros Hedge. apply (Hac a). eapply tc_rtc_r; [by apply tc_once | done].
  - intros Ha Hb Hno. rewrite AddDependency_ok by done. eexists. split; [done |].
    split; [done |]. split; [done |]. by apply add_edge_guarded.
Qed.

Lemma plan_add_dependency_cases_witness :
  exists e,
    plan.AddDependency examples.stagedPlan "stage/install" "stage/missing"
      = (examples.stagedPlan, Some e)
    /\ errors.Is e graph.ErrVertexNotFound = true.
Proof.
  assert (plan.guarded examples.stagedPlan) as Hg.
  { apply (build_guarded examples.orderedStages plan.NewPlan); [apply NewPlan_guarded |].
    vm_compute. reflexivity. }
  apply (proj1 (plan_add_dependency_cases examples.stagedPlan
                  "stage/install" "stage/missing" Hg)).
  right. vm_compute. reflexivity.
Defined.


(** X14. On a plan whose graph prevents cycles and has none, and with stage
    identifiers that formatting leaves alone, [AddStagedOperation] panics
    exactly when, in that graph, the out-stage leads to the in-stage, or the
    operation leads to the in-stage, or the out-stage leads to the operation
    (in zero or more edges); and whenever it returns, the plan it returns is
    again acyclic and prevents cycles. *)
Theorem plan_staged_panics_exactly {U Any : Type} (Sprintf : string -> list Any -> string)
    (p : plan.Plan U) (op : operation.Operation U) (stageInID stageOutID : string) :
  plan.guarded p ->
  graph.hash (plan.graph p) = operation.ID ->
  plan.plain Sprintf stageInID ->
  plan.plain Sprintf stageOutID ->
  (plan.AddStagedOperation Sprintf p op stageInID stageOutID = None <->
     (rtc (graph.edge (plan.graph p)) stageOutID stageInID
      \/ rtc (graph.edge (plan.graph p)) (operation.ID op) stageInID
      \/ rtc (graph.edge (plan.graph p)) stageOutID (operation.ID op)))
  /\ (forall p', plan.AddStagedOperation Sprintf p op stageInID stageOutID = Some p' ->
        plan.guarded p' /\ graph.hash (plan.graph p') = operation.ID).
Proof. apply AddStagedOperation_outcome. Qed.

Lemma plan_staged_panics_exactly_witness :
  plan.AddStagedOperation examples.Sprintf examples.stagedPlan
    (operation.OfApply examples.applyCfg) "stage/post-install" "stage/install" = None.
Proof.
  assert (plan.guarded examples.stagedPlan) as Hg.
  { apply (build_guarded examples.orderedStages plan.NewPlan); [apply NewPlan_guarded |].
    vm_compute. reflexivity. }
  apply (proj1 (plan_staged_panics_exactly examples.Sprintf examples.stagedPlan
                  (operation.OfApply examples.applyCfg)
                  "stage/post-install" "stage/install" Hg eq_refl eq_refl eq_refl)).
  left. apply rtc_once. vm_compute. reflexivity.
Defined.

Section OneDependency.
Context {U : Type}.
Import errors plan.

Implicit Types (p : Plan U) (op : operation.Operation U).

(** One dependency added after the vertices are in place. *)
Lemma one_sided_outcome p p2 a b :
  guarded p ->
  graph.traits (graph p2) = graph.traits (graph p) ->
  graph.edges (graph p2) = graph.edges (graph p) ->
  is_Some (graph.vertices (graph p2) !! a) ->
  is_Some (graph.vertices (graph p2) !! b) ->
  (Must0 (AddDependency p2 a b) = None <-> rtc (graph.edge (graph p)) b a)
  /\ (forall p', Must0 (AddDependency p2 a b) = Some p' ->
        graph.edges (graph p') = {[(a, b)]} ∪ graph.edges (graph p)
        /\ graph.vertices (graph p') = graph.vertices (graph p2)
        /\ guarded p').
Proof.
  intros Hg Ht He Va Vb.
  assert (guarded p2) as Hg2 by (by eapply guarded_same_edges).
  destruct (Must0_AddDependency p2 a b Hg2 Va Vb) as [Hbad Hok].
  destruct (rtc_edge_decide (graph p) b a) as [Hyes | Hno].
  - rewrite Hbad by (by apply (rtc_same_edges_iff (graph p) (graph p2))).
    split; [tauto | done].
  - assert (~ rtc (graph.edge (graph p2)) b a) as Hno2
      by (by rewrite (rtc_same_edges_iff (graph p) (graph p2))).
    rewrite Hok by done. split; [split; [done | tauto] |].
    intros p' [= <-]. cbn. split; [by rewrite He |]. split; [done |].
    by apply (add_edge_guarded p2).
Qed.

End OneDependency.

Section OneSided.
Context {U Any : Type} (Sprintf : string -> list Any -> string).
Import errors plan.

Implicit Types (p : Plan U) (op : operation.Operation U).

Lemma one_stage_vertices p op stageID :
  plain Sprintf stageID ->
  graph.hash (graph p) = operation.ID ->
  exists p2,
    (p1 ← AddOperation p op; ensureStage Sprintf p1 stageID) = Some p2
    /\ graph.hash (graph p2) = operation.ID
    /\ graph.traits (graph p2) = graph.traits (graph p)
    /\ graph.edges (graph p2) = graph.edges (graph p)
    /\ is_Some (graph.vertices (graph p2) !! operation.ID op)
    /\ is_Some (graph.vertices (graph p2) !! stageID).
Proof.
  intros Hplain Hhash.
  destruct (AddOperation p op) as [p1 |] eqn:H1; [| by rewrite AddOperation_spec in H1].
  destruct (AddOperation_grows _ _ _ H1) as (Hh1 & Ht1 & He1 & Vop1 & Hmono1).
  rewrite Hhash in Vop1, Hh1.
  destruct (ensureStage Sprintf p1 stageID) as [p2 |] eqn:H2;
    [| by rewrite ensureStage_spec in H2 by done].
  destruct (ensureStage_grows Sprintf _ _ _ Hplain Hh1 H2)
    as (Hh2 & Ht2 & He2 & Vin2 & Hmono2).
  exists p2. cbn. split; [exact H2 |].
  split; [congruence |]. split; [congruence |]. split; [congruence |]. auto.
Qed.

End OneSided.

(** X15. The one-sided variants, on a plan whose graph prevents cycles and
    has none, with a stage identifier that formatting leaves alone.
    [AddInStagedOperation] panics exactly when the operation already leads to
    the stage, and otherwise adds the edge stage → op;
    [AddOutStagedOperation] panics exactly when the stage already leads to
    the operation, and otherwise adds the edge op → stage.  When they return,
    the operation and the stage marker are vertices, no other edge has changed
    and the graph is still acyclic. *)
Theorem plan_one_sided_staging {U Any : Type} (Sprintf : string -> list Any -> string)
    (p : plan.Plan U) (op : operation.Operation U) (stageID : string) :
  plan.guarded p ->
  graph.hash (plan.graph p) = operation.ID ->
  plan.plain Sprintf stageID ->
  (plan.AddInStagedOperation Sprintf p op stageID = None
     <-> rtc (graph.edge (plan.graph p)) (operation.ID op) stageID)
  /\ (forall p', plan.AddInStagedOperation Sprintf p op stageID = Some p' ->
        graph.edges (plan.graph p') = {[(stageID, operation.ID op)]} ∪ graph.edges (plan.graph p)
        /\ is_Some (graph.vertices (plan.graph p') !! operation.ID op)
        /\ is_Some (graph.vertices (plan.graph p') !! stageID)
        /\ plan.guarded p')
  /\ (plan.AddOutStagedOperation Sprintf p op stageID = None
     <-> rtc (graph.edge (plan.graph p)) stageID (operation.ID op))
  /\ (forall p', plan.AddOutStagedOperation Sprintf p op stageID = Some p' ->
        graph.edges (plan.graph p') = {[(operation.ID op, stageID)]} ∪ graph.edges (plan.graph p)
        /\ is_Some (graph.vertices (plan.graph p') !! operation.ID op)
        /\ is_Some (graph.vertices (plan.graph p') !! stageID)
        /\ plan.guarded p').
Proof.
  intros Hg Hhash Hplain.
  destruct (one_stage_vertices Sprintf p op stageID Hplain Hhash)
    as (p2 & Hrun & Hh & Ht & He & Vop & Vst).
  assert (plan.AddInStagedOperation Sprintf p op stageID =
            plan.Must0 (plan.AddDependency p2 stageID (operation.ID op))) as ->.
  { unfold plan.AddInStagedOperation.
    destruct (plan.AddOperation p op) as [p1 |]; [| done]. cbn in *. by rewrite Hrun. }
  assert (plan.AddOutStagedOperation Sprintf p op stageID =
            plan.Must0 (plan.AddDependency p2 (operation.ID op) stageID)) as ->.
  { unfold plan.AddOutStagedOperation.
    destruct (plan.AddOperation p op) as [p1 |]; [| done]. cbn in *. by rewrite Hrun. }
  destruct (one_sided_outcome p p2 stageID (operation.ID op) Hg Ht He Vst Vop) as [Hin1 Hin2].
  destruct (one_sided_outcome p p2 (operation.ID op) stageID Hg Ht He Vop Vst) as [Hout1 Hout2].
  split; [exact Hin1 |]. split.
  - intros p' Hp'. destruct (Hin2 p' Hp') as (Hedges & Hvs & Hg').
    rewrite Hvs. done.
  - split; [exact Hout1 |].
    intros p' Hp'. destruct (Hout2 p' Hp') as (Hedges & Hvs & Hg').
    rewrite Hvs. done.
Qed.

Lemma plan_one_sided_staging_witness :
  exists p',
    plan.AddInStagedOperation examples.Sprintf examples.stagedPlan
      (operation.OfApply examples.applyCfg) "stage/install" = Some p'
    /\ graph.edges (plan.graph p') =
         {[("stage/install", operation.ID (operation.OfApply examples.applyCfg))]}
         ∪ graph.edges (plan.graph examples.stagedPlan).
Proof.
  assert (plan.guarded examples.stagedPlan) as Hg.
  { apply (build_guarded examples.orderedStages plan.NewPlan); [apply NewPlan_guarded |].
    vm_compute. reflexivity. }
  destruct (plan_one_sided_staging examples.Sprintf examples.stagedPlan
              (operation.OfApply examples.applyCfg)
              "stage/install" Hg eq_refl eq_refl) as (_ & Hin & _).
  destruct (plan.AddInStagedOperation examples.Sprintf examples.stagedPlan
              (operation.OfApply examples.applyCfg) "stage/install") as [p' |] eqn:Hrun;
    [| vm_compute in Hrun; discriminate].
  exists p'. split; [reflexivity |]. exact (proj1 (Hin p' eq_refl)).
Defined.

(** ** The logger: levels and groups *)

Section LoggerMore.
Context {Any : Type}.
Import log.

Implicit Types (l : LogboekLogger Any) (ch : Channel).

Lemma Index_from_range i s v :
  Index_from i s v = (-1)%Z \/ (i <= Index_from i s v)%Z.
Proof.
  revert i. induction s as [| x s IH]; intros i; cbn; [by left |].
  case_decide; [right; lia |]. destruct (IH (i + 1)%Z); [by left | right; lia].
Qed.

Lemma Index_from_found i s v : v ∈ s -> (i <= Index_from i s v)%Z.
Proof.
  revert i. induction s as [| x s IH]; intros i Hin; [by apply elem_of_nil in Hin |].
  cbn. case_decide as Heq; [lia |].
  apply elem_of_cons in Hin as [? | Hin]; [done |]. specialize (IH (i + 1)%Z Hin). lia.
Qed.

Lemma Index_from_missing i s v : v ∉ s -> Index_from i s v = (-1)%Z.
Proof.
  revert i. induction s as [| x s IH]; intros i Hin; [done |].
  cbn. rewrite decide_False by (intros ->; apply Hin; by apply elem_of_cons; left).
  apply IH. intros H. apply Hin. by apply elem_of_cons; right.
Qed.

Lemma Index_lower_bound s v : (-1 <= Index s v)%Z.
Proof. unfold Index. destruct (Index_from_range 0 s v); lia. Qed.

End LoggerMore.

(** X16. [AcceptLevel] compares positions in [Levels], so it orders loggers
    by their level: a logger accepts its own level; if a logger accepts the
    level of a second one, it accepts whatever the second accepts; of two
    loggers one accepts the level of the other; and a level name that is not
    in [Levels] is accepted by every logger. *)
Theorem log_accept_level_orders_levels {Any : Type}
    (l1 l2 : log.LogboekLogger Any) (lvl : log.Level) :
  log.AcceptLevel l1 (log.Level' l1) = true
  /\ (log.AcceptLevel l1 (log.Level' l2) = true ->
      log.AcceptLevel l2 lvl = true -> log.AcceptLevel l1 lvl = true)
  /\ (log.AcceptLevel l1 (log.Level' l2) = true \/ log.AcceptLevel l2 (log.Level' l1) = true)
  /\ (lvl ∉ log.Levels -> log.AcceptLevel l1 lvl = true).
Proof.
  unfold log.AcceptLevel. rewrite !Z.geb_le. split; [lia |]. split; [lia |].
  split; [lia |]. intros Hmissing. unfold log.Index at 1.
  rewrite Index_from_missing by done. apply Index_lower_bound.
Qed.

Lemma log_accept_level_orders_levels_witness :
  log.AcceptLevel (Any := unit) log.NewLogboekLogger "verbose" = true.
Proof.
  apply (log_accept_level_orders_levels (Any := unit) log.NewLogboekLogger
           log.NewLogboekLogger "verbose").
  intros Hin. unfold log.Levels in Hin.
  repeat (apply elem_of_cons in Hin as [Hin | Hin]; [discriminate |]).
  by apply elem_of_nil in Hin.
Defined.

(** X17. [SetLevel] returns for the six level names of [Levels] and panics
    for every other string.  When it returns, the logger is at the new
    level, its stashes are untouched, exactly one call went to the backend,
    and the logger accepts the level it was set to. *)
Theorem log_set_level_known_names {Any : Type} (l : log.LogboekLogger Any)
    (lvl : log.Level) :
  (is_Some (log.SetLevel l lvl) <-> lvl ∈ log.Levels)
  /\ (forall l', log.SetLevel l lvl = Some l' ->
        log.Level' l' = lvl
        /\ (forall ch, log.stash ch l' = log.stash ch l)
        /\ (exists call, log.output l' = log.output l ++ [call])
        /\ log.AcceptLevel l' lvl = true).
Proof.
  assert (forall l', log.SetLevel l lvl = Some l' ->
            log.Level' l' = lvl
            /\ (forall ch, log.stash ch l' = log.stash ch l)
            /\ (exists call, log.output l' = log.output l ++ [call])) as Hset.
  { unfold log.SetLevel. intros l' Hrun.
    repeat case_decide; simplify_eq/=;
      (split; [done |]); (split; [intros ch; by destruct ch | by eexists]). }
  split.
  - unfold log.SetLevel, log.Levels. rewrite !elem_of_cons, elem_of_nil. split.
    + intros [l' Hrun]. repeat case_decide; simplify_eq/=; tauto.
    + intros Hin. repeat case_decide; eauto. tauto.
  - intros l' Hrun. destruct (Hset l' Hrun) as (Hlvl & Hst & Hout).
    split; [done |]. split; [done |]. split; [done |].
    unfold log.AcceptLevel. rewrite Hlvl. apply Z.geb_le. lia.
Qed.

Lemma log_set_level_known_names_witness :
  log.SetLevel (Any := unit) log.NewLogboekLogger "verbose" = None
  /\ is_Some (log.SetLevel (Any := unit) log.NewLogboekLogger log.TraceLevel).
Proof.
  destruct (log_set_level_known_names (Any := unit) log.NewLogboekLogger "verbose")
    as [Hknown _].
  destruct (log_set_level_known_names (Any := unit) log.NewLogboekLogger log.TraceLevel)
    as [Htrace _].
  split.
  - destruct (log.SetLevel log.NewLogboekLogger "verbose") as [l' |] eqn:Hrun; [| done].
    exfalso. assert ("verbose" ∈ log.Levels) as Hin by (apply Hknown; eauto).
    unfold log.Levels in Hin.
    repeat (apply elem_of_cons in Hin as [Hin | Hin]; [discriminate |]).
    by apply elem_of_nil in Hin.
  - apply Htrace. unfold log.Levels. repeat (apply elem_of_cons; first [by left | right]).
Defined.

(** X18. Groups and channels do not interfere.  A push emits nothing and
    leaves the level; a pop of one group leaves the level, every other group
    of its channel and every other channel as they were; so the pop of a
    second group emits the same calls whether or not the first group was
    popped before it. *)
Theorem log_groups_are_independent {Any : Type} (Sprintf : string -> list Any -> string)
    (ch : log.Channel) (l : log.LogboekLogger Any) (group other : string)
    (format : string) (a : list Any) :
  other <> group ->
  log.emitted l (log.Push Sprintf ch l group format a) = []
  /\ log.Level' (log.Push Sprintf ch l group format a) = log.Level' l
  /\ log.Level' (log.Pop ch l group) = log.Level' l
  /\ log.buffer ch (log.Pop ch l group) other = log.buffer ch l other
  /\ (forall ch', ch' <> ch -> log.stash ch' (log.Pop ch l group) = log.stash ch' l)
  /\ log.emitted (log.Pop ch l group) (log.Pop ch (log.Pop ch l group) other)
     = log.emitted l (log.Pop ch l other).
Proof.
  intros Hne.
  destruct (Push_spec Sprintf ch l group format a) as (_ & _ & Hpo & Hpl).
  destruct (Pop_spec ch l group) as (Hout & Hstash & Hothers & Hlvl).
  assert (log.buffer ch (log.Pop ch l group) other = log.buffer ch l other) as Hbuf
    by (unfold log.buffer; by rewrite Hstash, lookup_delete_ne).
  split; [apply emitted_spec; by rewrite Hpo, app_nil_r |].
  split; [exact Hpl |]. split; [exact Hlvl |]. split; [exact Hbuf |].
  split; [exact Hothers |].
  destruct (Pop_spec ch (log.Pop ch l group) other) as (Hout2 & _).
  destruct (Pop_spec ch l other) as (Hout3 & _).
  rewrite (emitted_spec _ _ _ Hout2), (emitted_spec _ _ _ Hout3), Hbuf.
  unfold log.AcceptLevel, log.Level'. by rewrite Hlvl.
Qed.

Lemma log_groups_are_independent_witness :
  let l := log.pushes examples.verbatim log.ChError
             (log.pushes examples.verbatim log.ChError log.NewLogboekLogger "a"
                [("first", [])]) "b" [("second", [])] in
  log.emitted (log.Pop log.ChError l "a") (log.Pop log.ChError (log.Pop log.ChError l "a") "b")
  = log.emitted l (log.Pop log.ChError l "b").
Proof.
  intros l.
  apply (log_groups_are_independent examples.verbatim log.ChError l "a" "b"
           EmptyString []).
  discriminate.
Defined.
